(** * Spectral Compressor: the STFT driver, the compressor bank and the
      double-buffered working set of [src/processor.cpp]

    The development follows [SpectralCompressorProcessor]: the block driver
    [do_stft], the two stages handed to it by [processBlock] and
    [processBlockBypassed], [update_compressors], and the rebuild of the
    working set in [update_and_swap_process_data].

    Sample values are kept abstract (a type with the operations of single
    precision); the two places where the source computes with floating
    point on integers, the number of windows of a block and the effective
    sample rate, use the IEEE-754 operations of [SpecFloat]. *)

From Stdlib Require Import ZArith NArith Lia.
From Stdlib Require Import Floats.SpecFloat.
From stdpp Require Import base list.

(** ** Single and double precision on integers *)

Module Float.
Local Open Scope Z_scope.

(** [static_cast<float>(n)] and [static_cast<double>(n)] for a [size_t] or
    an [int]. *)
Definition f32_of_Z (z : Z) : spec_float := binary_normalize 24 128 z 0 false.
Definition f64_of_Z (z : Z) : spec_float := binary_normalize 53 1024 z 0 false.

Definition f32_div : spec_float -> spec_float -> spec_float := SFdiv 24 128.
Definition f64_div : spec_float -> spec_float -> spec_float := SFdiv 53 1024.

(** [std::ceil] followed by the conversion to [int]: the least integer not
    below the value. Infinities and NaN have no integer value in C++ (the
    conversion is undefined); they arise only from a zero divisor. *)
Definition f32_ceil_to_int (x : spec_float) : Z :=
  match x with
  | S754_finite s m e =>
      let v := if s then Z.neg m else Z.pos m in
      match e with
      | Z.neg k => - ((- v) / 2 ^ Z.pos k)
      | _ => v * 2 ^ e
      end
  | _ => 0
  end.

(** [std::ceil(static_cast<float>(a) / b)] with [b] a [size_t]. *)
Definition f32_ceil_div (a b : Z) : Z :=
  f32_ceil_to_int (f32_div (f32_of_Z a) (f32_of_Z b)).

Lemma digits2_pos_size p : digits2_pos p = Pos.size p.
Proof. induction p; simpl; congruence. Qed.

Lemma size_bounds p :
  2 ^ (Z.pos (Pos.size p) - 1) <= Z.pos p < 2 ^ Z.pos (Pos.size p).
Proof.
  induction p; cbn [Pos.size].
  - rewrite Pos2Z.inj_succ.
    replace (Z.succ (Z.pos (Pos.size p)) - 1)
      with (Z.succ (Z.pos (Pos.size p) - 1)) by lia.
    rewrite !Z.pow_succ_r by lia. lia.
  - rewrite Pos2Z.inj_succ.
    replace (Z.succ (Z.pos (Pos.size p)) - 1)
      with (Z.succ (Z.pos (Pos.size p) - 1)) by lia.
    rewrite !Z.pow_succ_r by lia. lia.
  - cbn. lia.
Qed.

Lemma size_unique p k :
  2 ^ (k - 1) <= Z.pos p < 2 ^ k -> 0 < k -> Z.pos (Pos.size p) = k.
Proof.
  intros [H1 H2] Hk. pose proof (size_bounds p) as [H3 H4].
  destruct (Z.lt_trichotomy (Z.pos (Pos.size p)) k) as [Hlt|[Heq|Hgt]]; auto.
  - assert (2 ^ Z.pos (Pos.size p) <= 2 ^ (k - 1))
      by (apply Z.pow_le_mono_r; lia). lia.
  - assert (2 ^ k <= 2 ^ (Z.pos (Pos.size p) - 1))
      by (apply Z.pow_le_mono_r; lia). lia.
Qed.

Lemma iter_xO p k : Z.pos (Pos.iter xO p k) = Z.pos p * 2 ^ Z.pos k.
Proof.
  induction k using Pos.peano_ind.
  - simpl. lia.
  - rewrite Pos.iter_succ, (Pos2Z.inj_xO (Pos.iter xO p k)), IHk,
      Pos2Z.inj_succ, Z.pow_succ_r by lia. lia.
Qed.

(** A mantissa of 24 digits given exactly is kept as it is. *)
Lemma round_aux_exact_normal m e :
  Z.pos (Pos.size m) = 24 -> -149 <= e <= 104 ->
  binary_round_aux 24 128 false (Z.pos m) e loc_Exact = S754_finite false m e.
Proof.
  intros Hs He.
  unfold binary_round_aux, shr_fexp, Zdigits2.
  rewrite digits2_pos_size, Hs.
  unfold fexp, emin.
  replace (Z.max (24 + e - 24) (3 - 128 - 24) - e) with 0 by lia.
  cbn [shr shr_record_of_loc shr_m loc_of_shr_record round_nearest_even Zdigits2].
  rewrite digits2_pos_size, Hs.
  replace (Z.max (24 + e - 24) (3 - 128 - 24) - e) with 0 by lia.
  cbn [shr shr_record_of_loc shr_m].
  replace (e <=? 128 - 24) with true by (symmetry; apply Z.leb_le; lia).
  reflexivity.
Qed.

(** An integer below [2^24] converts exactly: its mantissa is the integer
    shifted to 24 digits. *)
Lemma f32_of_Z_pos p :
  Z.pos p < 2 ^ 24 ->
  exists m s, f32_of_Z (Z.pos p) = S754_finite false m (- s) /\
              0 <= s <= 23 /\ Z.pos m = Z.pos p * 2 ^ s /\
              Z.pos (Pos.size m) = 24.
Proof.
  intros Hp.
  pose proof (size_bounds p) as [Hlo Hhi].
  assert (Hsz : Z.pos (Pos.size p) <= 24).
  { destruct (Z.le_gt_cases (Z.pos (Pos.size p)) 24); auto.
    assert (2 ^ 24 <= 2 ^ (Z.pos (Pos.size p) - 1))
      by (apply Z.pow_le_mono_r; lia). lia. }
  unfold f32_of_Z, binary_normalize, binary_round.
  rewrite digits2_pos_size.
  unfold shl_align, fexp, emin.
  replace (Z.max (Z.pos (Pos.size p) + 0 - 24) (3 - 128 - 24) - 0)
    with (Z.pos (Pos.size p) - 24) by lia.
  destruct (Z.pos (Pos.size p) - 24) as [|d|d] eqn:Hd; try lia.
  - exists p, 0. rewrite round_aux_exact_normal by lia.
    repeat split; try lia.
  - exists (Pos.iter xO p d), (Z.pos d).
    assert (Hm : Z.pos (Pos.iter xO p d) = Z.pos p * 2 ^ Z.pos d)
      by apply iter_xO.
    assert (Hs24 : Z.pos (Pos.size (Pos.iter xO p d)) = 24).
    { apply size_unique; try lia. rewrite Hm.
      replace (Z.pos d) with (24 - Z.pos (Pos.size p)) by lia.
      split.
      - replace (24 - 1)
          with ((Z.pos (Pos.size p) - 1) + (24 - Z.pos (Pos.size p))) by lia.
        rewrite Z.pow_add_r by lia.
        apply Z.mul_le_mono_nonneg_r; [apply Z.pow_nonneg; lia | lia].
      - replace 24
          with (Z.pos (Pos.size p) + (24 - Z.pos (Pos.size p))) at 2 by lia.
        rewrite Z.pow_add_r by lia.
        apply Z.mul_lt_mono_pos_r; [apply Z.pow_pos_nonneg; lia | lia]. }
    replace (Z.max (Z.pos (Pos.size p) + 0 - 24) (3 - 128 - 24))
      with (Z.neg d) by lia.
    rewrite round_aux_exact_normal by lia.
    repeat split; try lia.
Qed.

Lemma new_location_spec my r :
  0 < my -> 0 <= r < my ->
  match new_location my r with
  | loc_Exact => r = 0
  | loc_Inexact Lt => 0 < 2 * r < my
  | loc_Inexact Eq => 2 * r = my
  | loc_Inexact Gt => my < 2 * r
  end.
Proof.
  intros Hmy Hr. unfold new_location, new_location_even, new_location_odd.
  destruct (Z.even my) eqn:Hev.
  - destruct (Z.eqb_spec r 0); [assumption|].
    destruct (Z.compare_spec (2 * r) my); lia.
  - destruct (Z.eqb_spec r 0); [assumption|].
    assert (Hodd : Z.odd my = true) by (rewrite <- Z.negb_even, Hev; reflexivity).
    apply Z.odd_spec in Hodd. destruct Hodd as [k Hk].
    destruct (Z.compare_spec (2 * r + 1) my); lia.
Qed.

(** The second half of [binary_round_aux]: the rounded mantissa is brought
    back to 24 digits. *)
Definition finish_round (m1 e1 : Z) : spec_float :=
  let '(mrs'', e'') := shr_fexp 24 128 m1 e1 loc_Exact in
  match shr_m mrs'' with
  | Z0 => S754_zero false
  | Zpos m =>
      if Z.leb e'' (128 - 24) then S754_finite false m e''
      else S754_infinity false
  | _ => S754_nan
  end.

Lemma binary_round_aux_split mx ex lx :
  binary_round_aux 24 128 false mx ex lx =
  let '(mrs', e') := shr_fexp 24 128 mx ex lx in
  finish_round (round_nearest_even (shr_m mrs') (loc_of_shr_record mrs')) e'.
Proof. reflexivity. Qed.

Lemma finish_round_spec m1 e1 :
  2 ^ 23 <= m1 <= 2 ^ 24 -> -149 <= e1 <= 102 ->
  exists mf ef, finish_round m1 e1 = S754_finite false mf ef /\
                e1 <= ef /\ Z.pos mf * 2 ^ (ef - e1) = m1.
Proof.
  intros Hm He. destruct m1 as [|p|p]; try lia.
  unfold finish_round, shr_fexp. cbn [Zdigits2]. rewrite digits2_pos_size.
  unfold fexp, emin.
  destruct (Z.eq_dec (Z.pos p) (2 ^ 24)) as [Heq|Hne].
  - assert (Hp : p = 16777216%positive) by (change (2 ^ 24) with 16777216 in Heq; lia).
    subst p. clear Heq Hm.
    change (Z.pos (Pos.size 16777216)) with 25.
    replace (Z.max (25 + e1 - 24) (3 - 128 - 24) - e1) with 1 by lia.
    cbn [shr shr_record_of_loc SpecFloat.iter_pos shr_1 shr_m orb].
    replace (e1 + 1 <=? 128 - 24) with true by (symmetry; apply Z.leb_le; lia).
    eexists _, _. split; [reflexivity|]. split; [lia|].
    replace (e1 + 1 - e1) with 1 by lia. reflexivity.
  - assert (Hs : Z.pos (Pos.size p) = 24) by (apply size_unique; lia).
    rewrite Hs.
    replace (Z.max (24 + e1 - 24) (3 - 128 - 24) - e1) with 0 by lia.
    cbn [shr shr_record_of_loc shr_m].
    replace (e1 <=? 128 - 24) with true by (symmetry; apply Z.leb_le; lia).
    exists p, e1. split; [reflexivity|]. split; [lia|].
    rewrite Z.sub_diag. cbn. lia.
Qed.

(** Rounding a quotient [q + r / my] of 24 or 25 digits: the mantissa [M]
    that is kept goes up by one only when the part cut off is at least one
    half, and stays only when it is at most one half. *)
Lemma round_aux_quotient q e my r :
  2 ^ 23 <= q < 2 ^ 25 -> 0 < my -> 0 <= r < my -> -149 <= e <= 100 ->
  exists mf ef t M m1 rho,
    binary_round_aux 24 128 false q e (new_location my r)
      = S754_finite false mf ef /\
    (t = 0 \/ t = 1) /\ q = M * 2 ^ t + rho /\ 0 <= rho < 2 ^ t /\
    2 ^ 23 <= M /\
    (m1 = M /\ 2 * (rho * my + r) <= my * 2 ^ t \/
     m1 = M + 1 /\ my * 2 ^ t <= 2 * (rho * my + r)) /\
    e <= ef /\ Z.pos mf * 2 ^ (ef - e) = m1 * 2 ^ t.
Proof.
  intros Hq Hmy Hr He.
  destruct q as [|pq|pq]; try lia.
  pose proof (size_bounds pq) as Hsb.
  assert (Hsz : Z.pos pq < 2 ^ 24 /\ Z.pos (Pos.size pq) = 24 \/
                2 ^ 24 <= Z.pos pq /\ Z.pos (Pos.size pq) = 25).
  { destruct (Z.lt_ge_cases (Z.pos pq) (2 ^ 24)).
    - left. split; [assumption|]. apply size_unique; lia.
    - right. split; [assumption|]. apply size_unique; lia. }
  pose proof (new_location_spec my r Hmy Hr) as Hloc.
  rewrite binary_round_aux_split.
  unfold shr_fexp. cbn [Zdigits2]. rewrite digits2_pos_size.
  unfold fexp, emin.
  destruct Hsz as [[Hlt Hs]|[Hge Hs]]; rewrite Hs.
  - (* 24 digits: the quotient is rounded as it is *)
    replace (Z.max (24 + e - 24) (3 - 128 - 24) - e) with 0 by lia.
    cbn [shr].
    set (m1 := round_nearest_even _ _).
    assert (Hm1 : m1 = Z.pos pq /\ 2 * r <= my \/
                  m1 = Z.pos pq + 1 /\ my <= 2 * r).
    { subst m1. revert Hloc.
      destruct (new_location my r) as [|[| |]];
        cbn [round_nearest_even shr_m loc_of_shr_record shr_record_of_loc];
        try (destruct (Z.even (Z.pos pq))); lia. }
    destruct (finish_round_spec m1 e) as (mf & ef & Hfin & Hef & Hval);
      [lia | lia |].
    exists mf, ef, 0, (Z.pos pq), m1, 0.
    rewrite Hfin. cbn [Z.pow].
    repeat split; try lia.
  - (* 25 digits: one bit is shifted out before rounding *)
    replace (Z.max (25 + e - 24) (3 - 128 - 24) - e) with 1 by lia.
    cbn [shr SpecFloat.iter_pos].
    set (mrs := shr_1 _).
    set (m1 := round_nearest_even _ _).
    assert (Hm1 : exists M rho, Z.pos pq = M * 2 + rho /\ 0 <= rho < 2 /\
              (m1 = M /\ 2 * (rho * my + r) <= my * 2 \/
               m1 = M + 1 /\ my * 2 <= 2 * (rho * my + r))).
    { subst m1 mrs. revert Hloc. destruct pq as [p|p|].
      - exists (Z.pos p), 1. split; [lia|]. split; [lia|].
        destruct (new_location my r) as [|[| |]];
          cbn [round_nearest_even shr_m loc_of_shr_record
               shr_record_of_loc shr_1 orb];
          try (destruct (Z.even (Z.pos p))); lia.
      - exists (Z.pos p), 0. split; [lia|]. split; [lia|].
        destruct (new_location my r) as [|[| |]];
          cbn [round_nearest_even shr_m loc_of_shr_record
               shr_record_of_loc shr_1 orb];
          try (destruct (Z.even (Z.pos p))); lia.
      - cbn in Hge. lia. }
    destruct Hm1 as (M & rho & HM & Hrho & Hm1).
    assert (HMb : 2 ^ 23 <= M < 2 ^ 24) by lia.
    destruct (finish_round_spec m1 (e + 1)) as (mf & ef & Hfin & Hef & Hval);
      [lia | lia |].
    exists mf, ef, 1, M, m1, rho.
    rewrite Hfin. change (2 ^ 1) with 2.
    repeat split; try lia.
    replace (ef - e) with (1 + (ef - (e + 1))) by lia.
    rewrite Z.pow_add_r by lia. change (2 ^ 1) with 2. lia.
Qed.

Lemma f32_div_normal mx sx my sy :
  Z.pos (Pos.size mx) = 24 -> Z.pos (Pos.size my) = 24 ->
  0 <= sx <= 23 -> 0 <= sy <= 23 ->
  f32_div (S754_finite false mx (- sx)) (S754_finite false my (- sy)) =
  binary_round_aux 24 128 false ((Z.pos mx * 2 ^ 24) / Z.pos my)
    (- sx + sy - 24)
    (new_location (Z.pos my) ((Z.pos mx * 2 ^ 24) mod Z.pos my)).
Proof.
  intros Hx Hy Hsx Hsy.
  unfold f32_div, SFdiv, SFdiv_core_binary. cbn [Zdigits2 xorb].
  rewrite (digits2_pos_size mx), (digits2_pos_size my), Hx, Hy.
  unfold fexp, emin.
  replace (Z.min (Z.max (24 + - sx - (24 + - sy) - 24) (3 - 128 - 24))
             (- sx - - sy))
    with (- sx + sy - 24) by lia.
  replace (- sx - - sy - (- sx + sy - 24)) with 24 by lia.
  cbv iota beta.
  rewrite Z.shiftl_mul_pow2 by lia.
  unfold Z.div, Z.modulo.
  destruct (Z.div_eucl (Z.pos mx * 2 ^ 24) (Z.pos my)) as [q r].
  reflexivity.
Qed.

Lemma ceil_div_unique m d n :
  0 < d -> (n - 1) * d < m <= n * d -> - ((- m) / d) = n.
Proof.
  intros Hd Hm.
  assert (H : (- m) / d = - n).
  { symmetry. apply (Z.div_unique_pos (- m) d (- n) (n * d - m)); lia. }
  lia.
Qed.

Lemma f32_ceil_sandwich mf ef E n :
  - E <= ef -> 0 <= E ->
  (n - 1) * 2 ^ E < Z.pos mf * 2 ^ (ef + E) <= n * 2 ^ E ->
  f32_ceil_to_int (S754_finite false mf ef) = n.
Proof.
  intros Hef HE Hs. unfold f32_ceil_to_int.
  assert (HG : 0 < 2 ^ E) by (apply Z.pow_pos_nonneg; lia).
  destruct ef as [|k|k].
  - cbn [Z.pow]. rewrite Z.add_0_l in Hs. destruct Hs as [Hs1 Hs2].
    apply Z.mul_lt_mono_pos_r in Hs1; [|assumption].
    apply Z.mul_le_mono_pos_r in Hs2; [|assumption]. lia.
  - rewrite Z.pow_add_r in Hs by lia. rewrite Z.mul_assoc in Hs.
    destruct Hs as [Hs1 Hs2].
    apply Z.mul_lt_mono_pos_r in Hs1; [|assumption].
    apply Z.mul_le_mono_pos_r in Hs2; [|assumption]. lia.
  - replace (- Z.pos mf) with (- (Z.pos mf)) by reflexivity.
    apply ceil_div_unique; [apply Z.pow_pos_nonneg; lia|].
    assert (HH : 0 < 2 ^ (Z.neg k + E)) by (apply Z.pow_pos_nonneg; lia).
    assert (HE2 : 2 ^ E = 2 ^ Z.pos k * 2 ^ (Z.neg k + E)).
    { rewrite <- Z.pow_add_r by lia. f_equal. lia. }
    rewrite HE2, !Z.mul_assoc in Hs. destruct Hs as [Hs1 Hs2].
    apply Z.mul_lt_mono_pos_r in Hs1; [|assumption].
    apply Z.mul_le_mono_pos_r in Hs2; [|assumption]. lia.
Qed.

(** Below [2^24] the single-precision ceiling of a quotient of two integers
    is the exact one. *)
Lemma f32_ceil_div_exact a b :
  0 <= a < 2 ^ 24 -> 0 < b < 2 ^ 24 ->
  f32_ceil_div a b = (a + b - 1) / b.
Proof.
  intros Ha Hb. unfold f32_ceil_div.
  destruct b as [|pb|pb]; try lia.
  destruct (f32_of_Z_pos pb) as (my & sb & Hfb & Hsb & Hmy & Hsy); [lia|].
  rewrite Hfb.
  destruct a as [|pa|pa]; try lia.
  - (* no sample left: 0.0f / hop *)
    change (f32_of_Z 0) with (S754_zero false). unfold f32_div, SFdiv.
    cbn [f32_ceil_to_int]. symmetry. apply Z.div_small. lia.
  - destruct (f32_of_Z_pos pa) as (mx & sa & Hfa & Hsa & Hmx & Hsx); [lia|].
    rewrite Hfa, f32_div_normal by assumption.
    set (n := (Z.pos pa + Z.pos pb - 1) / Z.pos pb).
    assert (Hn : (n - 1) * Z.pos pb < Z.pos pa <= n * Z.pos pb).
    { subst n.
      pose proof (Z.div_mod (Z.pos pa + Z.pos pb - 1) (Z.pos pb) ltac:(lia)).
      pose proof (Z.mod_pos_bound (Z.pos pa + Z.pos pb - 1) (Z.pos pb)
                    ltac:(lia)). nia. }
    clearbody n.
    pose proof (size_bounds mx) as Hbx. rewrite Hsx in Hbx.
    pose proof (size_bounds my) as Hby. rewrite Hsy in Hby.
    change (2 ^ (24 - 1)) with (2 ^ 23) in *.
    set (q := Z.pos mx * 2 ^ 24 / Z.pos my).
    set (r := (Z.pos mx * 2 ^ 24) mod Z.pos my).
    assert (Hqr : Z.pos mx * 2 ^ 24 = Z.pos my * q + r)
      by (apply Z.div_mod; lia).
    assert (Hr : 0 <= r < Z.pos my) by (apply Z.mod_pos_bound; lia).
    assert (Hq : 2 ^ 23 <= q < 2 ^ 25).
    { change (2 ^ 25) with (2 * 2 ^ 24) in *.
      change (2 ^ 24) with (2 * 2 ^ 23) in *.
      generalize dependent (2 ^ 23). intros. nia. }
    destruct (round_aux_quotient q (- sa + sb - 24) (Z.pos my) r)
      as (mf & ef & t & M & m1 & rho & Hres & Ht & HqM & Hrho & HM & Hrnd
          & Hef & Hval);
      [assumption | lia | assumption | lia |].
    rewrite Hres.
    set (E := 24 + sa - sb).
    apply (f32_ceil_sandwich mf ef E n); [lia | lia |].
    replace (ef + E) with (ef - (- sa + sb - 24)) by lia. rewrite Hval.
    (* everything in terms of a, b and powers of two *)
    set (U := 2 ^ t) in *.
    assert (HU : U = 1 \/ U = 2) by (destruct Ht; subst t U; cbn; lia).
    assert (HG : exists G', 0 < G' /\ 2 ^ E = U * G').
    { exists (2 ^ (E - t)). split; [apply Z.pow_pos_nonneg; lia|].
      subst U. rewrite <- Z.pow_add_r by lia. f_equal; lia. }
    destruct HG as (G' & HG' & HG).
    assert (HP : 2 ^ 24 * 2 ^ sa = 2 ^ E * 2 ^ sb).
    { subst E. rewrite <- !Z.pow_add_r by lia. f_equal; lia. }
    assert (HS : 0 < 2 ^ sb) by (apply Z.pow_pos_nonneg; lia).
    assert (Hmain : Z.pos pa * 2 ^ E * 2 ^ sb
                    = (M * U + rho) * (Z.pos pb * 2 ^ sb) + r).
    { transitivity (Z.pos mx * 2 ^ 24).
      - rewrite Hmx, <- !Z.mul_assoc. f_equal. rewrite <- HP. ring.
      - rewrite Hqr, HqM, Hmy. ring. }
    rewrite HG in *.
    set (A := Z.pos pa) in *. set (B := Z.pos pb) in *.
    set (Sc := 2 ^ sb) in *.
    assert (H24 : A < 2 * 2 ^ 23) by (change (2 * 2 ^ 23) with (2 ^ 24); lia).
    assert (H23 : 0 < 2 ^ 23) by reflexivity.
    rewrite Hmy in *.
    clear Hres Hval Hfa Hfb Hqr HqM HP Hmx Hmy Hbx Hby Hq Ha Hb.
    clearbody A B Sc U r. clear q.
    generalize dependent (2 ^ 23). intros z HM H24 Hz.
    (* the remainder is a multiple of the divisor's scale *)
    set (W := A * U * G' - M * U * B).
    assert (Hr' : rho * (B * Sc) + r = Sc * W) by (subst W; lia).
    assert (HW : 0 <= W < B * U) by nia.
    assert (HAW : A * U * G' = M * U * B + W) by (subst W; lia).
    assert (Hrnd' : m1 = M /\ 2 * W <= B * U \/ m1 = M + 1 /\ B * U <= 2 * W).
    { rewrite Hr' in Hrnd.
      destruct Hrnd as [[? ?]|[? ?]]; [left|right]; split; trivial; nia. }
    clearbody W. clear Hr' Hrnd Hmain Hr.
    assert (HUpos : 0 < U) by lia.
    split.
    + (* n - 1 < result *)
      rewrite (Z.mul_comm U G'), Z.mul_assoc.
      apply Z.mul_lt_mono_pos_r; [assumption|].
      assert (Hlow : (n - 1) * G' < M + 1).
      { apply (Z.mul_lt_mono_pos_r (U * B)); [nia|].
        assert ((n - 1) * B * (U * G') < A * (U * G'))
          by (apply Z.mul_lt_mono_pos_r; nia).
        nia. }
      destruct Hrnd' as [[-> Hle]|[-> Hge]]; [|lia].
      destruct (Z.eq_dec ((n - 1) * G') M) as [Heq|Hne]; [exfalso|lia].
      assert (HWeq : W = U * G' * (A - (n - 1) * B)) by nia.
      assert (HWge : U * G' <= W) by nia.
      assert (2 * G' <= B) by nia.
      assert (0 < n - 1) by nia.
      assert ((n - 1) * B < (n - 1) * (2 * G')) by nia.
      nia.
    + (* result <= n *)
      rewrite (Z.mul_comm U G'), Z.mul_assoc.
      apply Z.mul_le_mono_pos_r; [assumption|].
      assert (Hup : M * (U * B) <= n * G' * (U * B)) by nia.
      assert (HMn : M <= n * G') by (apply Z.mul_le_mono_pos_r in Hup; nia).
      destruct Hrnd' as [[-> Hle]|[-> Hge]]; [lia|].
      destruct (Z.eq_dec M (n * G')) as [Heq|Hne]; [exfalso|lia].
      assert (W <= 0) by nia. nia.
Qed.

End Float.

(** ** The sample counts of one block

    [do_stft] first works out how a block of [num_samples] samples is cut:
    a first stretch up to the next window boundary of the input ring
    buffer, then one stretch per window. All of it is [size_t] arithmetic
    but for the number of windows, a single-precision ceiling stored in an
    [int]. None of the subtractions below can wrap. *)

Definition windowing_interval (fft_window_size windowing_overlap_times : N) : N :=
  (fft_window_size / windowing_overlap_times)%N.

Definition already_processed_samples (num_samples pos windowing_interval : N) : N :=
  N.min num_samples
    ((windowing_interval - pos mod windowing_interval) mod windowing_interval)%N.

Definition samples_to_be_processed (num_samples already_processed : N) : N :=
  (num_samples - already_processed)%N.

Definition windows_to_process (samples_to_be_processed windowing_interval : N) : Z :=
  Float.f32_ceil_div (Z.of_N samples_to_be_processed) (Z.of_N windowing_interval).

Definition samples_to_process_this_iteration
    (windowing_interval num_samples sample_buffer_offset : N) : N :=
  N.min windowing_interval (num_samples - sample_buffer_offset)%N.

(** The loop over the windows of a block, for any loop body: [body] gets
    the offset into the host buffer and the length of the stretch, and the
    loop returns the final [sample_buffer_offset] with the state. *)
Fixpoint window_loop {St : Type} (body : N -> N -> St -> St) (windows : nat)
    (windowing_interval num_samples sample_buffer_offset : N) (st : St) : St * N :=
  match windows with
  | O => (st, sample_buffer_offset)
  | S k =>
      let n := samples_to_process_this_iteration windowing_interval num_samples
                 sample_buffer_offset in
      window_loop body k windowing_interval num_samples
        (sample_buffer_offset + n)%N (body sample_buffer_offset n st)
  end.

(** What one call of [do_stft] does in numbers: the length of the first
    stretch, how often the window stage runs, how many samples the window
    loop moves, and the offset its final assertion compares with
    [num_samples]. *)
Record BlockCounts := {
  first_stretch : N;
  stage_calls : N;
  loop_samples : N;
  final_offset : N
}.

Definition block_counts (num_samples pos windowing_interval : N) : BlockCounts :=
  let already := already_processed_samples num_samples pos windowing_interval in
  let windows :=
    windows_to_process (samples_to_be_processed num_samples already)
      windowing_interval in
  let '(calls, moved, offset) :=
    window_loop (fun _ n '(calls, moved) => (calls + 1, moved + n)%N)
      (Z.to_nat windows) windowing_interval num_samples already (0, 0)%N in
  {| first_stretch := already; stage_calls := calls; loop_samples := moved;
     final_offset := offset |}.

Definition ceil_div (a b : N) : N := ((a + b - 1) / b)%N.

Section BlockPlan.
Local Open Scope N_scope.

Lemma windows_to_process_exact n hop :
  n < 2 ^ 24 -> 0 < hop < 2 ^ 24 ->
  windows_to_process n hop = Z.of_N (ceil_div n hop).
Proof.
  intros Hn Hhop. unfold windows_to_process, ceil_div.
  rewrite Float.f32_ceil_div_exact.
  - rewrite N2Z.inj_div, N2Z.inj_sub, N2Z.inj_add by lia. reflexivity.
  - change (2 ^ 24)%Z with (Z.of_N (2 ^ 24)). lia.
  - change (2 ^ 24)%Z with (Z.of_N (2 ^ 24)). lia.
Qed.

Lemma ceil_div_spec a b :
  0 < b -> (ceil_div a b - 1) * b < a + b /\ a <= ceil_div a b * b.
Proof.
  intros Hb. unfold ceil_div.
  pose proof (N.div_mod (a + b - 1) b ltac:(lia)) as Hdm.
  pose proof (N.mod_lt (a + b - 1) b ltac:(lia)) as Hlt.
  set (c := (a + b - 1) / b) in *. set (r := (a + b - 1) mod b) in *.
  clearbody c r.
  destruct (N.eq_dec c 0) as [->|Hc]; [lia|].
  replace ((c - 1) * b) with (c * b - b) by nia.
  split; lia.
Qed.

Lemma ceil_div_lower a b : 0 < b -> ceil_div a b * b < a + b.
Proof.
  intros Hb. unfold ceil_div.
  pose proof (N.div_mod (a + b - 1) b ltac:(lia)) as Hdm.
  revert Hdm. generalize ((a + b - 1) / b) as c, ((a + b - 1) mod b) as r.
  intros c r Hdm. lia.
Qed.

Lemma ceil_div_0 b : 0 < b -> ceil_div 0 b = 0.
Proof. intros. unfold ceil_div. apply N.div_small. lia. Qed.

Lemma ceil_div_pos a b : 0 < b -> 0 < a -> 0 < ceil_div a b.
Proof.
  intros Hb Ha. unfold ceil_div.
  assert (1 <= (a + b - 1) / b); [|lia].
  apply N.div_le_lower_bound; lia.
Qed.

Lemma ceil_div_sub a b : 0 < b -> b <= a -> ceil_div (a - b) b = ceil_div a b - 1.
Proof.
  intros Hb Hab. unfold ceil_div.
  replace (a + b - 1) with ((a - b + b - 1) + 1 * b) by lia.
  rewrite N.div_add by lia. rewrite N.add_sub. reflexivity.
Qed.

Lemma ceil_div_small a b : 0 < a <= b -> ceil_div a b = 1.
Proof.
  intros Hab. unfold ceil_div.
  symmetry. apply (N.div_unique (a + b - 1) b 1 (a - 1)); lia.
Qed.

(** The window loop run exactly [ceil_div (num_samples - offset) hop] times
    ends at [num_samples], whatever its body does. *)
Lemma window_loop_offset {St} (body : N -> N -> St -> St) hop num_samples :
  0 < hop ->
  forall offset st, offset <= num_samples ->
    snd (window_loop body (N.to_nat (ceil_div (num_samples - offset) hop))
           hop num_samples offset st) = num_samples.
Proof.
  intros Hhop offset st Hoff.
  remember (N.to_nat (ceil_div (num_samples - offset) hop)) as k eqn:Hk.
  revert offset st Hoff Hk. induction k as [|k IH]; intros offset st Hoff Hk.
  - cbn. destruct (N.eq_dec offset num_samples) as [|Hne]; [assumption|].
    pose proof (ceil_div_pos (num_samples - offset) hop Hhop ltac:(lia)). lia.
  - cbn [window_loop]. unfold samples_to_process_this_iteration.
    apply IH; [lia|].
    destruct (N.le_gt_cases hop (num_samples - offset)) as [Hle|Hgt].
    + rewrite N.min_l by assumption.
      replace (num_samples - (offset + hop)) with (num_samples - offset - hop) by lia.
      rewrite ceil_div_sub by lia. lia.
    + rewrite N.min_r by lia.
      replace (num_samples - (offset + (num_samples - offset))) with 0 by lia.
      rewrite ceil_div_0 by lia.
      assert (0 < num_samples - offset).
      { destruct (N.eq_dec (num_samples - offset) 0) as [Hz|]; [|lia].
        rewrite Hz, ceil_div_0 in Hk by lia. lia. }
      rewrite ceil_div_small in Hk by lia. lia.
Qed.

End BlockPlan.

Section BlockCounts.
Local Open Scope N_scope.

Lemma window_loop_counting k hop num_samples :
  forall offset calls moved,
    fst (window_loop (fun _ n '(calls, moved) => (calls + 1, moved + n))
           k hop num_samples offset (calls, moved))
    = (calls + N.of_nat k,
       moved + (snd (window_loop (fun _ n '(calls, moved) => (calls + 1, moved + n))
                       k hop num_samples offset (calls, moved)) - offset)).
Proof.
  induction k as [|k IH]; intros offset calls moved.
  - cbn. f_equal; lia.
  - cbn [window_loop]. rewrite IH.
    set (n := samples_to_process_this_iteration hop num_samples offset).
    set (r := snd _).
    assert (Hr : offset + n <= r).
    { subst r. clear. generalize (calls + 1, moved + n). generalize (offset + n).
      induction k as [|k IH]; intros o st; cbn [window_loop snd]; [lia|].
      etransitivity; [|apply IH]. lia. }
    f_equal; lia.
Qed.

(** While whole hops are left the loop moves a hop with every window. *)
Lemma window_loop_whole_hops {St} (body : N -> N -> St -> St) hop num_samples :
  forall k offset st,
    offset + N.of_nat k * hop <= num_samples ->
    snd (window_loop body k hop num_samples offset st)
    = offset + N.of_nat k * hop.
Proof.
  induction k as [|k IH]; intros offset st Hle.
  - cbn. lia.
  - rewrite Nat2N.inj_succ, N.mul_succ_l in Hle.
    cbn [window_loop]. unfold samples_to_process_this_iteration.
    rewrite N.min_l by lia. rewrite IH by lia.
    rewrite Nat2N.inj_succ, N.mul_succ_l. lia.
Qed.

(** The counts of a block of fewer than [2^24] samples. *)
Lemma block_counts_exact num_samples pos hop :
  num_samples < 2 ^ 24 -> 0 < hop < 2 ^ 24 ->
  let c := block_counts num_samples pos hop in
  first_stretch c = N.min num_samples ((hop - pos mod hop) mod hop) /\
  stage_calls c = ceil_div (num_samples - first_stretch c) hop /\
  first_stretch c + loop_samples c = num_samples /\
  final_offset c = num_samples.
Proof.
  intros HN Hhop. unfold block_counts.
  set (already := already_processed_samples num_samples pos hop).
  assert (Hal : already <= num_samples) by (apply N.le_min_l).
  unfold samples_to_be_processed.
  rewrite windows_to_process_exact by lia.
  replace (Z.to_nat (Z.of_N (ceil_div (num_samples - already) hop)))
    with (N.to_nat (ceil_div (num_samples - already) hop)) by lia.
  pose proof (window_loop_counting
                (N.to_nat (ceil_div (num_samples - already) hop))
                hop num_samples already 0 0) as Hcount.
  pose proof (window_loop_offset
                (fun (_ n : N) '(calls, moved) => (calls + 1, moved + n))
                hop num_samples ltac:(lia) already (0, 0) Hal) as Hoff.
  destruct (window_loop _ _ _ _ _ _) as [[calls moved] offset].
  cbn [fst snd] in Hcount, Hoff. injection Hcount as -> ->. subst offset.
  cbn [first_stretch stage_calls loop_samples final_offset].
  repeat split; lia.
Qed.

End BlockCounts.

(** ** Window boundaries

    Counted from a fresh ring buffer, the windows fall on the multiples of
    the hop: after [t] samples [ceil_div t hop] of them have been
    processed, and the next one is due [(hop - t mod hop) mod hop] samples
    later. *)
Section Alignment.
Local Open Scope N_scope.

Lemma pred_mul c b : (c - 1) * b = c * b - b.
Proof. destruct (N.eq_dec c 0) as [->|Hc]; [reflexivity|nia]. Qed.

Lemma to_nat_of_N x : Z.to_nat (Z.of_N x) = N.to_nat x.
Proof. lia. Qed.

Lemma pos_mul_ge c b : c <> 0 -> b <= c * b.
Proof. intros Hc. nia. Qed.

Lemma ceil_div_eq a b c :
  0 < b -> a <= c * b -> (c = 0 \/ (c - 1) * b < a) -> ceil_div a b = c.
Proof.
  intros Hb Hle Hgt. unfold ceil_div.
  destruct (N.eq_dec c 0) as [->|Hc].
  - apply N.div_small. lia.
  - destruct Hgt as [|Hgt]; [lia|]. rewrite pred_mul in Hgt.
    symmetry. apply (N.div_unique (a + b - 1) b c (a + b - 1 - c * b)); lia.
Qed.

Lemma to_boundary t hop :
  0 < hop -> t + (hop - t mod hop) mod hop = ceil_div t hop * hop.
Proof.
  intros Hhop.
  pose proof (N.div_mod t hop ltac:(lia)) as Hdm.
  pose proof (N.mod_lt t hop ltac:(lia)) as Hlt.
  destruct (N.eq_dec (t mod hop) 0) as [Hz|Hnz].
  - rewrite Hz, N.sub_0_r, N.Div0.mod_same, N.add_0_r.
    rewrite Hz, N.add_0_r in Hdm. clear Hz Hlt.
    revert Hdm. generalize (t / hop) as q. intros q Hdm.
    rewrite (ceil_div_eq t hop q); [lia|lia|lia|].
    destruct (N.eq_dec q 0); [left; assumption|right].
    rewrite pred_mul. nia.
  - assert (Hsm : (hop - t mod hop) mod hop = hop - t mod hop).
    { apply N.mod_small. clear Hdm. revert Hnz Hlt. generalize (t mod hop). intros; lia. }
    rewrite Hsm. revert Hdm Hnz Hlt. generalize (t mod hop) as m. intros m Hdm Hnz Hlt.
    revert Hdm. generalize (t / hop) as q. intros q Hdm.
    rewrite (ceil_div_eq t hop (q + 1)); [lia|lia|lia|].
    right. rewrite N.add_sub. lia.
Qed.

Lemma to_boundary_lt t hop : 0 < hop -> (hop - t mod hop) mod hop < hop.
Proof. intros Hhop. apply N.mod_lt. lia. Qed.

Lemma ceil_div_before_boundary t n hop :
  0 < hop -> n <= (hop - t mod hop) mod hop ->
  ceil_div (t + n) hop = ceil_div t hop.
Proof.
  intros Hhop Hn.
  pose proof (to_boundary t hop Hhop) as Hb.
  pose proof (ceil_div_spec t hop Hhop) as [Hs1 Hs2].
  pose proof (to_boundary_lt t hop Hhop) as HA.
  pose proof (ceil_div_lower t hop Hhop) as Hlow.
  revert Hn Hb HA. generalize ((hop - t mod hop) mod hop) as A. intros A Hn Hb HA.
  apply ceil_div_eq; [assumption|lia|].
  destruct (N.eq_dec (ceil_div t hop) 0) as [Hz|Hnz]; [left; assumption|right].
  rewrite pred_mul. pose proof (pos_mul_ge _ hop Hnz). lia.
Qed.

Lemma ceil_div_after_boundary t n hop :
  0 < hop -> (hop - t mod hop) mod hop <= n ->
  ceil_div (t + n) hop
  = ceil_div t hop + ceil_div (n - (hop - t mod hop) mod hop) hop.
Proof.
  intros Hhop Hn.
  pose proof (to_boundary t hop Hhop) as Hb.
  revert Hn Hb. generalize ((hop - t mod hop) mod hop) as A. intros A Hn Hb.
  pose proof (ceil_div_spec (n - A) hop Hhop) as [_ Hs2].
  pose proof (ceil_div_lower (n - A) hop Hhop) as Hlow.
  apply ceil_div_eq; [assumption|lia|].
  destruct (N.eq_dec (ceil_div t hop + ceil_div (n - A) hop) 0) as [Hz|Hnz];
    [left; assumption|right].
  rewrite pred_mul. pose proof (pos_mul_ge _ hop Hnz) as Hge.
  destruct (N.eq_dec (n - A) 0) as [Hz|Hz].
  - rewrite Hz, ceil_div_0 in * by assumption.
    pose proof (ceil_div_lower t hop Hhop). lia.
  - pose proof (pos_mul_ge _ hop (N.neq_sym _ _ (N.lt_neq _ _
        (ceil_div_pos (n - A) hop Hhop ltac:(lia))))).
    lia.
Qed.

End Alignment.

(** ** The data of the processor *)

Section Model.

(** Samples, magnitudes and gains are [float]s: a type [F] with the
    operations the source applies to them. *)
Variable F : Type.
Variable f_zero f_one : F.
Variables f_add f_sub f_mul f_div : F -> F -> F.
(** An [int], a [size_t] or an integer-valued literal as a [float]. *)
Variable f_of_Z : Z -> F.
(** A [double] narrowed to [float]. *)
Variable f_of_double : spec_float -> F.
(** [x != 0.0f]. *)
Variable f_nonzero : F -> bool.
(** [std::abs] of the complex number [re + i im], [std::log2], [std::log10]. *)
Variable f_abs_complex : F -> F -> F.
Variables f_log2 f_log10 : F -> F.

(** *** Ring buffers *)

(** Modelled from the spec: [ring.h] is not among the sources. A ring
    buffer owns a backing store of a fixed capacity and a cursor; all
    positions are taken modulo the capacity, and [pos] is the cursor. *)
Record RingBuffer := {
  buffer : list F;
  current_pos : N
}.

Definition ring_size (rb : RingBuffer) : N := N.of_nat (length (buffer rb)).

Definition pos (rb : RingBuffer) : N := current_pos rb.

Definition ring_step (rb : RingBuffer) : N :=
  ((current_pos rb + 1) mod ring_size rb)%N.

(** Modelled from the spec: [ring.h] is not among the sources. A ring
    buffer resized for a working set has that capacity, holds silence and
    starts at position zero. *)
Definition resize (new_size : N) : RingBuffer :=
  {| buffer := replicate (N.to_nat new_size) f_zero; current_pos := 0 |}.

Definition push (rb : RingBuffer) (x : F) : RingBuffer :=
  {| buffer := <[N.to_nat (current_pos rb) := x]> (buffer rb);
     current_pos := ring_step rb |}.

(** Modelled from the spec: [ring.h] is not among the sources. [append]:
    copies the samples into the backing store from the cursor on, wrapping,
    and advances the cursor by their number. *)
Definition read_n_from (rb : RingBuffer) (src : list F) : RingBuffer :=
  foldl push rb src.

(** Modelled from the spec: [ring.h] is not among the sources and the spec
    does not describe this variant; as its name says it stores the samples
    like [read_n_from] and leaves the cursor where it was. *)
Definition read_n_from_in_place (rb : RingBuffer) (src : list F) : RingBuffer :=
  {| buffer := buffer (read_n_from rb src); current_pos := current_pos rb |}.

Definition accumulate (gain : F) (rb : RingBuffer) (x : F) : RingBuffer :=
  {| buffer := alter (fun y => f_add y (f_mul gain x)) (N.to_nat (current_pos rb))
                 (buffer rb);
     current_pos := ring_step rb |}.

(** Modelled from the spec: [ring.h] is not among the sources. [overlapAdd]:
    adds [gain * src[i]] into the next slots from the cursor on and
    advances the cursor by their number (a whole turn when a full window is
    added, as at the one call of the source). *)
Definition add_n_from_in_place (rb : RingBuffer) (src : list F) (gain : F)
    : RingBuffer :=
  foldl (accumulate gain) rb src.

Definition pop (clear : bool) (rb : RingBuffer) : F * RingBuffer :=
  (default f_zero (buffer rb !! N.to_nat (current_pos rb)),
   {| buffer := if clear then <[N.to_nat (current_pos rb) := f_zero]> (buffer rb)
                else buffer rb;
      current_pos := ring_step rb |}).

(** Modelled from the spec: [ring.h] is not among the sources. [consume]:
    copies out [num] samples from the cursor on, zeroing them after the
    read when asked to, and advances the cursor. *)
Fixpoint copy_n_to (rb : RingBuffer) (num : nat) (clear : bool)
    : list F * RingBuffer :=
  match num with
  | O => ([], rb)
  | S k =>
      let '(x, rb') := pop clear rb in
      let '(xs, rb'') := copy_n_to rb' k clear in
      (x :: xs, rb'')
  end.

(** Modelled from the spec: [ring.h] is not among the sources.
    [snapshotLast]: the most recent [num] samples, oldest first; the buffer
    is left as it is. *)
Definition copy_last_n_to (rb : RingBuffer) (num : N) : list F :=
  map (fun i =>
         default f_zero
           (buffer rb !! N.to_nat ((current_pos rb + ring_size rb - num
                                    + N.of_nat i) mod ring_size rb)%N))
      (seq 0 (N.to_nat num)).

(** *** The compressor of one bin

    [juce::dsp::Compressor<float>] is a library class: its settings are
    fields, the envelope follower's memory an abstract state [Env], and
    what [prepare] and [processSample] do with it two functions. *)
Variable Env : Type.
Variable env_initial : Env.
Variable compressor_process :
  F -> F -> F -> F -> spec_float -> Env -> nat -> F -> Env * F.

Record ProcessSpec := {
  spec_sampleRate : spec_float;
  spec_maximumBlockSize : N;
  spec_numChannels : N
}.

Record Compressor := {
  thresholddB : F;
  ratio : F;
  attackTime : F;
  releaseTime : F;
  sampleRate : spec_float;
  envelope : Env
}.

Variable default_compressor : Compressor.

Definition setThreshold (c : Compressor) (x : F) : Compressor :=
  {| thresholddB := x; ratio := ratio c; attackTime := attackTime c;
     releaseTime := releaseTime c; sampleRate := sampleRate c;
     envelope := envelope c |}.

Definition setRatio (c : Compressor) (x : F) : Compressor :=
  {| thresholddB := thresholddB c; ratio := x; attackTime := attackTime c;
     releaseTime := releaseTime c; sampleRate := sampleRate c;
     envelope := envelope c |}.

Definition setAttack (c : Compressor) (x : F) : Compressor :=
  {| thresholddB := thresholddB c; ratio := ratio c; attackTime := x;
     releaseTime := releaseTime c; sampleRate := sampleRate c;
     envelope := envelope c |}.

Definition setRelease (c : Compressor) (x : F) : Compressor :=
  {| thresholddB := thresholddB c; ratio := ratio c; attackTime := attackTime c;
     releaseTime := x; sampleRate := sampleRate c; envelope := envelope c |}.

(** [prepare] takes the sample rate of the spec and resets the envelope
    follower. *)
Definition prepare (c : Compressor) (spec : ProcessSpec) : Compressor :=
  {| thresholddB := thresholddB c; ratio := ratio c; attackTime := attackTime c;
     releaseTime := releaseTime c; sampleRate := spec_sampleRate spec;
     envelope := env_initial |}.

Definition processSample (c : Compressor) (channel : nat) (x : F)
    : Compressor * F :=
  let '(env, y) :=
    compressor_process (thresholddB c) (ratio c) (attackTime c) (releaseTime c)
      (sampleRate c) (envelope c) channel x in
  ({| thresholddB := thresholddB c; ratio := ratio c; attackTime := attackTime c;
      releaseTime := releaseTime c; sampleRate := sampleRate c;
      envelope := env |}, y).

(** *** The working set *)

Record ProcessData := {
  fft_window_size : N;
  num_windows_processed : N;
  (** the Hann table, by its size, and the FFT, by its order *)
  windowing_function : option N;
  fft : option N;
  fft_scratch_buffer : list F;
  spectral_compressors : list Compressor;
  spectral_compressor_sidechain_thresholds : list F;
  input_ring_buffers : list RingBuffer;
  output_ring_buffers : list RingBuffer;
  sidechain_ring_buffers : list RingBuffer
}.

Definition with_num_windows_processed (pd : ProcessData) (n : N) : ProcessData :=
  {| fft_window_size := fft_window_size pd; num_windows_processed := n;
     windowing_function := windowing_function pd; fft := fft pd;
     fft_scratch_buffer := fft_scratch_buffer pd;
     spectral_compressors := spectral_compressors pd;
     spectral_compressor_sidechain_thresholds :=
       spectral_compressor_sidechain_thresholds pd;
     input_ring_buffers := input_ring_buffers pd;
     output_ring_buffers := output_ring_buffers pd;
     sidechain_ring_buffers := sidechain_ring_buffers pd |}.

Definition with_fft_scratch_buffer (pd : ProcessData) (s : list F) : ProcessData :=
  {| fft_window_size := fft_window_size pd;
     num_windows_processed := num_windows_processed pd;
     windowing_function := windowing_function pd; fft := fft pd;
     fft_scratch_buffer := s;
     spectral_compressors := spectral_compressors pd;
     spectral_compressor_sidechain_thresholds :=
       spectral_compressor_sidechain_thresholds pd;
     input_ring_buffers := input_ring_buffers pd;
     output_ring_buffers := output_ring_buffers pd;
     sidechain_ring_buffers := sidechain_ring_buffers pd |}.

Definition with_spectral_compressors (pd : ProcessData) (cs : list Compressor)
    : ProcessData :=
  {| fft_window_size := fft_window_size pd;
     num_windows_processed := num_windows_processed pd;
     windowing_function := windowing_function pd; fft := fft pd;
     fft_scratch_buffer := fft_scratch_buffer pd;
     spectral_compressors := cs;
     spectral_compressor_sidechain_thresholds :=
       spectral_compressor_sidechain_thresholds pd;
     input_ring_buffers := input_ring_buffers pd;
     output_ring_buffers := output_ring_buffers pd;
     sidechain_ring_buffers := sidechain_ring_buffers pd |}.

Definition with_sidechain_thresholds (pd : ProcessData) (ts : list F)
    : ProcessData :=
  {| fft_window_size := fft_window_size pd;
     num_windows_processed := num_windows_processed pd;
     windowing_function := windowing_function pd; fft := fft pd;
     fft_scratch_buffer := fft_scratch_buffer pd;
     spectral_compressors := spectral_compressors pd;
     spectral_compressor_sidechain_thresholds := ts;
     input_ring_buffers := input_ring_buffers pd;
     output_ring_buffers := output_ring_buffers pd;
     sidechain_ring_buffers := sidechain_ring_buffers pd |}.

Definition with_input_ring_buffers (pd : ProcessData) (rs : list RingBuffer)
    : ProcessData :=
  {| fft_window_size := fft_window_size pd;
     num_windows_processed := num_windows_processed pd;
     windowing_function := windowing_function pd; fft := fft pd;
     fft_scratch_buffer := fft_scratch_buffer pd;
     spectral_compressors := spectral_compressors pd;
     spectral_compressor_sidechain_thresholds :=
       spectral_compressor_sidechain_thresholds pd;
     input_ring_buffers := rs;
     output_ring_buffers := output_ring_buffers pd;
     sidechain_ring_buffers := sidechain_ring_buffers pd |}.

Definition with_output_ring_buffers (pd : ProcessData) (rs : list RingBuffer)
    : ProcessData :=
  {| fft_window_size := fft_window_size pd;
     num_windows_processed := num_windows_processed pd;
     windowing_function := windowing_function pd; fft := fft pd;
     fft_scratch_buffer := fft_scratch_buffer pd;
     spectral_compressors := spectral_compressors pd;
     spectral_compressor_sidechain_thresholds :=
       spectral_compressor_sidechain_thresholds pd;
     input_ring_buffers := input_ring_buffers pd;
     output_ring_buffers := rs;
     sidechain_ring_buffers := sidechain_ring_buffers pd |}.

Definition with_sidechain_ring_buffers (pd : ProcessData) (rs : list RingBuffer)
    : ProcessData :=
  {| fft_window_size := fft_window_size pd;
     num_windows_processed := num_windows_processed pd;
     windowing_function := windowing_function pd; fft := fft pd;
     fft_scratch_buffer := fft_scratch_buffer pd;
     spectral_compressors := spectral_compressors pd;
     spectral_compressor_sidechain_thresholds :=
       spectral_compressor_sidechain_thresholds pd;
     input_ring_buffers := input_ring_buffers pd;
     output_ring_buffers := output_ring_buffers pd;
     sidechain_ring_buffers := rs |}.

(** A [ProcessData] before its first rebuild. *)
Definition empty_process_data : ProcessData :=
  {| fft_window_size := 0; num_windows_processed := 0;
     windowing_function := None; fft := None; fft_scratch_buffer := [];
     spectral_compressors := [];
     spectral_compressor_sidechain_thresholds := [];
     input_ring_buffers := []; output_ring_buffers := [];
     sidechain_ring_buffers := [] |}.

(** *** The two copies of the working set *)

(** Modelled from the spec: [utils.h] with [AtomicallySwappable] is not
    among the sources. One object is active; [modify_and_swap] rebuilds the
    inactive one and asks for the swap, which the next [get] carries out
    (as the header of the processor says of [update_and_swap_process_data]). *)
Record AtomicallySwappable (T : Type) := {
  active : T;
  inactive : T;
  swap_pending : bool
}.
Arguments active {T}.
Arguments inactive {T}.
Arguments swap_pending {T}.

Definition get {T} (x : AtomicallySwappable T) : AtomicallySwappable T :=
  if swap_pending x
  then {| active := inactive x; inactive := active x; swap_pending := false |}
  else x.

Definition modify_and_swap {T} (f : T -> T) (x : AtomicallySwappable T)
    : AtomicallySwappable T :=
  {| active := active x; inactive := f (inactive x); swap_pending := true |}.

Definition with_active {T} (x : AtomicallySwappable T) (a : T)
    : AtomicallySwappable T :=
  {| active := a; inactive := inactive x; swap_pending := swap_pending x |}.

(** *** The processor and the host's buffer *)

Record Processor := {
  (** the parameters *)
  sidechain_active : bool;
  compressor_ratio : F;
  compressor_attack_ms : F;
  compressor_release_ms : F;
  auto_makeup_gain : bool;
  fft_order : N;
  windowing_overlap_times : N;
  (** what the host tells and is told *)
  getSampleRate : spec_float;
  getMainBusNumInputChannels : nat;
  getMainBusNumOutputChannels : nat;
  getLatencySamples : N;
  (** the members *)
  max_samples_per_block : N;
  makeup_gain : F;
  compressor_settings_changed : bool;
  process_data : AtomicallySwappable ProcessData;
  (** [process_data_updater] has been triggered and has not run yet *)
  update_triggered : bool
}.

Definition with_process_data (p : Processor) (x : AtomicallySwappable ProcessData)
    : Processor :=
  {| sidechain_active := sidechain_active p;
     compressor_ratio := compressor_ratio p;
     compressor_attack_ms := compressor_attack_ms p;
     compressor_release_ms := compressor_release_ms p;
     auto_makeup_gain := auto_makeup_gain p; fft_order := fft_order p;
     windowing_overlap_times := windowing_overlap_times p;
     getSampleRate := getSampleRate p;
     getMainBusNumInputChannels := getMainBusNumInputChannels p;
     getMainBusNumOutputChannels := getMainBusNumOutputChannels p;
     getLatencySamples := getLatencySamples p;
     max_samples_per_block := max_samples_per_block p;
     makeup_gain := makeup_gain p;
     compressor_settings_changed := compressor_settings_changed p;
     process_data := x; update_triggered := update_triggered p |}.

Definition with_compressor_settings_changed (p : Processor) (b : bool)
    : Processor :=
  {| sidechain_active := sidechain_active p;
     compressor_ratio := compressor_ratio p;
     compressor_attack_ms := compressor_attack_ms p;
     compressor_release_ms := compressor_release_ms p;
     auto_makeup_gain := auto_makeup_gain p; fft_order := fft_order p;
     windowing_overlap_times := windowing_overlap_times p;
     getSampleRate := getSampleRate p;
     getMainBusNumInputChannels := getMainBusNumInputChannels p;
     getMainBusNumOutputChannels := getMainBusNumOutputChannels p;
     getLatencySamples := getLatencySamples p;
     max_samples_per_block := max_samples_per_block p;
     makeup_gain := makeup_gain p;
     compressor_settings_changed := b;
     process_data := process_data p; update_triggered := update_triggered p |}.

Definition with_makeup_gain (p : Processor) (g : F) : Processor :=
  {| sidechain_active := sidechain_active p;
     compressor_ratio := compressor_ratio p;
     compressor_attack_ms := compressor_attack_ms p;
     compressor_release_ms := compressor_release_ms p;
     auto_makeup_gain := auto_makeup_gain p; fft_order := fft_order p;
     windowing_overlap_times := windowing_overlap_times p;
     getSampleRate := getSampleRate p;
     getMainBusNumInputChannels := getMainBusNumInputChannels p;
     getMainBusNumOutputChannels := getMainBusNumOutputChannels p;
     getLatencySamples := getLatencySamples p;
     max_samples_per_block := max_samples_per_block p;
     makeup_gain := g;
     compressor_settings_changed := compressor_settings_changed p;
     process_data := process_data p; update_triggered := update_triggered p |}.

Definition setLatencySamples (p : Processor) (n : N) : Processor :=
  {| sidechain_active := sidechain_active p;
     compressor_ratio := compressor_ratio p;
     compressor_attack_ms := compressor_attack_ms p;
     compressor_release_ms := compressor_release_ms p;
     auto_makeup_gain := auto_makeup_gain p; fft_order := fft_order p;
     windowing_overlap_times := windowing_overlap_times p;
     getSampleRate := getSampleRate p;
     getMainBusNumInputChannels := getMainBusNumInputChannels p;
     getMainBusNumOutputChannels := getMainBusNumOutputChannels p;
     getLatencySamples := n;
     max_samples_per_block := max_samples_per_block p;
     makeup_gain := makeup_gain p;
     compressor_settings_changed := compressor_settings_changed p;
     process_data := process_data p; update_triggered := update_triggered p |}.

Definition with_max_samples_per_block (p : Processor) (n : N) : Processor :=
  {| sidechain_active := sidechain_active p;
     compressor_ratio := compressor_ratio p;
     compressor_attack_ms := compressor_attack_ms p;
     compressor_release_ms := compressor_release_ms p;
     auto_makeup_gain := auto_makeup_gain p; fft_order := fft_order p;
     windowing_overlap_times := windowing_overlap_times p;
     getSampleRate := getSampleRate p;
     getMainBusNumInputChannels := getMainBusNumInputChannels p;
     getMainBusNumOutputChannels := getMainBusNumOutputChannels p;
     getLatencySamples := getLatencySamples p;
     max_samples_per_block := n;
     makeup_gain := makeup_gain p;
     compressor_settings_changed := compressor_settings_changed p;
     process_data := process_data p; update_triggered := update_triggered p |}.

Definition with_fft_order (p : Processor) (order : N) : Processor :=
  {| sidechain_active := sidechain_active p;
     compressor_ratio := compressor_ratio p;
     compressor_attack_ms := compressor_attack_ms p;
     compressor_release_ms := compressor_release_ms p;
     auto_makeup_gain := auto_makeup_gain p; fft_order := order;
     windowing_overlap_times := windowing_overlap_times p;
     getSampleRate := getSampleRate p;
     getMainBusNumInputChannels := getMainBusNumInputChannels p;
     getMainBusNumOutputChannels := getMainBusNumOutputChannels p;
     getLatencySamples := getLatencySamples p;
     max_samples_per_block := max_samples_per_block p;
     makeup_gain := makeup_gain p;
     compressor_settings_changed := compressor_settings_changed p;
     process_data := process_data p; update_triggered := update_triggered p |}.

Definition with_update_triggered (p : Processor) (b : bool) : Processor :=
  {| sidechain_active := sidechain_active p;
     compressor_ratio := compressor_ratio p;
     compressor_attack_ms := compressor_attack_ms p;
     compressor_release_ms := compressor_release_ms p;
     auto_makeup_gain := auto_makeup_gain p; fft_order := fft_order p;
     windowing_overlap_times := windowing_overlap_times p;
     getSampleRate := getSampleRate p;
     getMainBusNumInputChannels := getMainBusNumInputChannels p;
     getMainBusNumOutputChannels := getMainBusNumOutputChannels p;
     getLatencySamples := getLatencySamples p;
     max_samples_per_block := max_samples_per_block p;
     makeup_gain := makeup_gain p;
     compressor_settings_changed := compressor_settings_changed p;
     process_data := process_data p; update_triggered := b |}.

(** The host's buffer: every channel holds [getNumSamples] samples. The
    main bus is channels [0 ..], read as input and overwritten with the
    output; the sidechain bus follows the channels of the main input. *)
Record AudioBuffer := {
  getNumSamples : N;
  channels : list (list F)
}.

Definition channel_samples (b : AudioBuffer) (channel : nat) (offset n : N)
    : list F :=
  take (N.to_nat n) (drop (N.to_nat offset) (default [] (channels b !! channel))).

(** Samples [xs] written over a channel from [offset] on. *)
Definition splice (c : list F) (offset : N) (xs : list F) : list F :=
  take (N.to_nat offset) c ++ xs ++ drop (N.to_nat offset + length xs) c.

Definition write_samples (b : AudioBuffer) (channel : nat) (offset : N)
    (xs : list F) : AudioBuffer :=
  {| getNumSamples := getNumSamples b;
     channels := alter (fun c => splice c offset xs) channel (channels b) |}.

Definition clear (b : AudioBuffer) (channel : nat) (start n : N) : AudioBuffer :=
  write_samples b channel start (replicate (N.to_nat n) f_zero).

(** ** The block driver, [do_stft] *)

(** [num_windows_processed >= windowing_overlap_times]: the output ring
    buffer is read only then. *)
Definition output_gate (p : Processor) (pd : ProcessData) : bool :=
  (windowing_overlap_times p <=? num_windows_processed pd)%N.

(** One channel's share of a stretch of [n] samples at [offset]: the input
    goes into the input ring buffer, the output comes out of the output
    ring buffer once [windowing_overlap_times] windows have been processed
    and is silence before, and the sidechain input goes into its ring
    buffer when sidechaining is on. *)
Definition copy_in_out_channel (p : Processor) (offset n : N)
    (st : ProcessData * AudioBuffer) (channel : nat) : ProcessData * AudioBuffer :=
  let '(pd, b) := st in
  let pd :=
    with_input_ring_buffers pd
      (alter (fun rb => read_n_from rb (channel_samples b channel offset n))
         channel (input_ring_buffers pd)) in
  let '(pd, b) :=
    if output_gate p pd then
      match output_ring_buffers pd !! channel with
      | Some rb =>
          let '(out, rb') := copy_n_to rb (N.to_nat n) true in
          (with_output_ring_buffers pd (<[channel := rb']> (output_ring_buffers pd)),
           write_samples b channel offset out)
      | None => (pd, b)
      end
    else (pd, clear b channel offset n) in
  let pd :=
    if sidechain_active p then
      with_sidechain_ring_buffers pd
        (alter (fun rb =>
                  read_n_from rb
                    (channel_samples b (getMainBusNumInputChannels p + channel)
                       offset n))
           channel (sidechain_ring_buffers pd))
    else pd in
  (pd, b).

Definition copy_in_out (p : Processor) (offset n : N)
    (st : ProcessData * AudioBuffer) : ProcessData * AudioBuffer :=
  foldl (copy_in_out_channel p offset n) st (seq 0 (getMainBusNumInputChannels p)).

(** The body of the window loop: the stage, one more window counted, then
    the samples of the stretch. *)
Definition process_window (process_fn : ProcessData -> nat -> ProcessData)
    (p : Processor) (offset n : N) (st : ProcessData * AudioBuffer)
    : ProcessData * AudioBuffer :=
  let '(pd, b) := st in
  let pd := process_fn pd (getMainBusNumInputChannels p) in
  let pd := with_num_windows_processed pd (num_windows_processed pd + 1) in
  copy_in_out p offset n (pd, b).

(** [do_stft], with the [sample_buffer_offset] its final assertion compares
    with the number of samples. *)
Definition do_stft (process_fn : ProcessData -> nat -> ProcessData)
    (p : Processor) (b : AudioBuffer) (pd : ProcessData)
    : ProcessData * AudioBuffer * N :=
  let input_channels := getMainBusNumInputChannels p in
  let output_channels := getMainBusNumOutputChannels p in
  let num_samples := getNumSamples b in
  let b :=
    foldl (fun b channel => clear b channel 0 num_samples) b
      (seq input_channels (output_channels - input_channels)) in
  let hop := windowing_interval (fft_window_size pd) (windowing_overlap_times p) in
  let already :=
    already_processed_samples num_samples
      (from_option pos 0%N (input_ring_buffers pd !! 0%nat)) hop in
  let windows :=
    windows_to_process (samples_to_be_processed num_samples already) hop in
  let '(st, sample_buffer_offset) :=
    if (0 <? already)%N then (copy_in_out p 0 already (pd, b), already)
    else ((pd, b), 0%N) in
  let '(pd, b, sample_buffer_offset) :=
    window_loop (process_window process_fn p) (Z.to_nat windows) hop num_samples
      sample_buffer_offset st in
  (pd, b, sample_buffer_offset).

(** ** The stages handed to [do_stft] *)

Definition ring_at (rs : list RingBuffer) (channel : nat) : RingBuffer :=
  default {| buffer := []; current_pos := 0 |} (rs !! channel).

(** Samples written to the start of the scratch buffer. *)
Definition store (scratch xs : list F) : list F :=
  xs ++ drop (length xs) scratch.

(** The stage of [processBlockBypassed]: the newest [windowing_interval]
    input samples go to the output ring buffer by way of the scratch
    buffer. *)
Definition bypass_channel (p : Processor) (pd : ProcessData) (channel : nat)
    : ProcessData :=
  let windowing_interval :=
    windowing_interval (fft_window_size pd) (windowing_overlap_times p) in
  let pd :=
    with_fft_scratch_buffer pd
      (store (fft_scratch_buffer pd)
         (copy_last_n_to (ring_at (input_ring_buffers pd) channel)
            windowing_interval)) in
  with_output_ring_buffers pd
    (alter (fun rb =>
              read_n_from_in_place rb
                (take (N.to_nat windowing_interval) (fft_scratch_buffer pd)))
       channel (output_ring_buffers pd)).

Definition bypass_stage (p : Processor) (pd : ProcessData) (input_channels : nat)
    : ProcessData :=
  foldl (bypass_channel p) pd (seq 0 input_channels).

(** The FFT and the Hann window of [juce::dsp]: library code, taken as
    functions on the scratch buffer (the FFT by its order and the flag of
    the sidechain call, the window by its table size and the length). *)
Variable performRealOnlyForwardTransform : N -> bool -> list F -> list F.
Variable performRealOnlyInverseTransform : N -> list F -> list F.
Variable multiplyWithWindowingTable : N -> list F -> N -> list F.

Definition fft_forward (pd : ProcessData) (only_positive : bool) : ProcessData :=
  with_fft_scratch_buffer pd
    (performRealOnlyForwardTransform (default 0%N (fft pd)) only_positive
       (fft_scratch_buffer pd)).

Definition fft_inverse (pd : ProcessData) : ProcessData :=
  with_fft_scratch_buffer pd
    (performRealOnlyInverseTransform (default 0%N (fft pd))
       (fft_scratch_buffer pd)).

Definition apply_window (pd : ProcessData) : ProcessData :=
  with_fft_scratch_buffer pd
    (multiplyWithWindowingTable (default 0%N (windowing_function pd))
       (fft_scratch_buffer pd) (fft_window_size pd)).

(** The scratch buffer read as complex bins: bin [b] is the pair at
    [2 b] and [2 b + 1]. *)
Definition bin_re (scratch : list F) (bin_idx : nat) : F :=
  default f_zero (scratch !! (2 * bin_idx)%nat).

Definition bin_im (scratch : list F) (bin_idx : nat) : F :=
  default f_zero (scratch !! (2 * bin_idx + 1)%nat).

Definition bin_magnitude (scratch : list F) (bin_idx : nat) : F :=
  f_abs_complex (bin_re scratch bin_idx) (bin_im scratch bin_idx).

Definition scale_bin (scratch : list F) (bin_idx : nat) (m : F) : list F :=
  alter (fun x => f_mul x m) (2 * bin_idx + 1)%nat
    (alter (fun x => f_mul x m) (2 * bin_idx)%nat scratch).

(** Sidechain, first loop: the magnitudes of one channel's sidechain
    spectrum are added to the accumulators. *)
Definition accumulate_magnitude (scratch : list F) (thresholds : list F)
    (compressor_idx : nat) : list F :=
  let bin_idx := (compressor_idx + 1)%nat in
  let magnitude := bin_magnitude scratch bin_idx in
  alter (fun t => f_add t magnitude) compressor_idx thresholds.

Definition sidechain_channel (pd : ProcessData) (channel : nat) : ProcessData :=
  let pd :=
    with_fft_scratch_buffer pd
      (store (fft_scratch_buffer pd)
         (copy_last_n_to (ring_at (sidechain_ring_buffers pd) channel)
            (fft_window_size pd))) in
  let pd := fft_forward pd true in
  with_sidechain_thresholds pd
    (foldl (accumulate_magnitude (fft_scratch_buffer pd))
       (spectral_compressor_sidechain_thresholds pd)
       (seq 0 (length (spectral_compressors pd)))).

(** Sidechain, second loop: every compressor gets the accumulated value
    divided by the number of channels, and the accumulator is zeroed. *)
Definition set_sidechain_threshold (input_channels : nat)
    (st : list Compressor * list F) (compressor_idx : nat)
    : list Compressor * list F :=
  let '(cs, thresholds) := st in
  (alter (fun c =>
            setThreshold c
              (f_div (default f_zero (thresholds !! compressor_idx))
                 (f_of_Z (Z.of_nat input_channels))))
     compressor_idx cs,
   <[compressor_idx := f_zero]> thresholds).

Definition sidechain_thresholds (pd : ProcessData) (input_channels : nat)
    : ProcessData :=
  let pd := foldl sidechain_channel pd (seq 0 input_channels) in
  let '(cs, thresholds) :=
    foldl (set_sidechain_threshold input_channels)
      (spectral_compressors pd, spectral_compressor_sidechain_thresholds pd)
      (seq 0 (length (spectral_compressors pd))) in
  with_sidechain_thresholds (with_spectral_compressors pd cs) thresholds.

(** The compression of one bin of one channel's spectrum. *)
Definition compression_multiplier (magnitude compressed_magnitude : F) : F :=
  if f_nonzero magnitude then f_div compressed_magnitude magnitude else f_one.

Definition compress_bin (channel : nat) (st : list Compressor * list F)
    (compressor_idx : nat) : list Compressor * list F :=
  let '(cs, scratch) := st in
  match cs !! compressor_idx with
  | Some c =>
      let bin_idx := (compressor_idx + 1)%nat in
      let magnitude := bin_magnitude scratch bin_idx in
      let '(c', compressed_magnitude) := processSample c channel magnitude in
      (<[compressor_idx := c']> cs,
       scale_bin scratch bin_idx
         (compression_multiplier magnitude compressed_magnitude))
  | None => st
  end.

Definition compress_bins (channel : nat) (cs : list Compressor) (scratch : list F)
    : list Compressor * list F :=
  foldl (compress_bin channel) (cs, scratch) (seq 0 (length cs)).

Definition spectral_channel (p : Processor) (pd : ProcessData) (channel : nat)
    : ProcessData :=
  let pd :=
    with_fft_scratch_buffer pd
      (store (fft_scratch_buffer pd)
         (copy_last_n_to (ring_at (input_ring_buffers pd) channel)
            (fft_window_size pd))) in
  let pd := apply_window pd in
  let pd := fft_forward pd false in
  let '(cs, scratch) :=
    compress_bins channel (spectral_compressors pd) (fft_scratch_buffer pd) in
  let pd := with_fft_scratch_buffer (with_spectral_compressors pd cs) scratch in
  let pd := fft_inverse pd in
  let pd := apply_window pd in
  with_output_ring_buffers pd
    (alter (fun rb =>
              add_n_from_in_place rb
                (take (N.to_nat (fft_window_size pd)) (fft_scratch_buffer pd))
                (makeup_gain p))
       channel (output_ring_buffers pd)).

(** The stage of [processBlock]. *)
Definition spectral_stage (p : Processor) (pd : ProcessData) (input_channels : nat)
    : ProcessData :=
  let pd :=
    if sidechain_active p then sidechain_thresholds pd input_channels else pd in
  foldl (spectral_channel p) pd (seq 0 input_channels).

(** ** [update_compressors] *)

Definition effective_sample_rate (sample_rate : spec_float)
    (fft_window_size windowing_overlap_times : N) : spec_float :=
  Float.f64_div sample_rate
    (Float.f64_div (Float.f64_of_Z (Z.of_N fft_window_size))
       (Float.f64_of_Z (Z.of_N windowing_overlap_times))).

Definition configure_compressor (p : Processor) (pd : ProcessData)
    (c : Compressor) : Compressor :=
  prepare
    (setRelease
       (setAttack (setRatio c (compressor_ratio p)) (compressor_attack_ms p))
       (compressor_release_ms p))
    {| spec_sampleRate :=
         effective_sample_rate (getSampleRate p) (fft_window_size pd)
           (windowing_overlap_times p);
       spec_maximumBlockSize := max_samples_per_block p;
       spec_numChannels := N.of_nat (getMainBusNumInputChannels p) |}.

Definition base_threshold_dbfs : F := f_zero.

(** The threshold of the compressor [compressor_idx] when sidechaining is
    off. *)
Definition pink_noise_threshold (sample_rate : spec_float) (fft_window_size : N)
    (compressor_idx : nat) : F :=
  let frequency_increment :=
    f_of_double
      (Float.f64_div sample_rate (Float.f64_of_Z (Z.of_N fft_window_size))) in
  let bin_idx := (compressor_idx + 1)%nat in
  let frequency := f_mul frequency_increment (f_of_Z (Z.of_nat bin_idx)) in
  let octave := f_log2 (f_add frequency (f_of_Z 2)) in
  f_sub (f_add base_threshold_dbfs (f_of_Z 3)) (f_mul (f_of_Z 3) octave).

Definition computed_makeup_gain (p : Processor) : F :=
  let g := f_div f_one (f_of_Z (Z.of_N (windowing_overlap_times p))) in
  if auto_makeup_gain p then
    if sidechain_active p then
      f_mul g (f_div (f_add (compressor_ratio p) (f_of_Z 24)) (f_of_Z 25))
    else
      f_mul g
        (f_sub
           (f_mul (f_log10 (f_mul (compressor_ratio p) (f_of_Z 100)))
              (f_of_Z 200))
           (f_of_Z 399))
  else g.

Definition update_compressors (p : Processor) (pd : ProcessData)
    : Processor * ProcessData :=
  let cs := map (configure_compressor p pd) (spectral_compressors pd) in
  let cs :=
    if sidechain_active p then cs
    else
      imap (fun compressor_idx c =>
              setThreshold c
                (pink_noise_threshold (getSampleRate p) (fft_window_size pd)
                   compressor_idx))
        cs in
  (with_makeup_gain p (computed_makeup_gain p), with_spectral_compressors pd cs).

(** ** The audio callbacks *)

Definition processBlockBypassed (p : Processor) (b : AudioBuffer)
    : Processor * AudioBuffer :=
  let sw := get (process_data p) in
  let '(pd, b, _) := do_stft (bypass_stage p) p b (active sw) in
  (with_process_data p (with_active sw pd), b).

Definition processBlock (p : Processor) (b : AudioBuffer)
    : Processor * AudioBuffer :=
  let sw := get (process_data p) in
  let '(p, pd) :=
    if compressor_settings_changed p
    then update_compressors (with_compressor_settings_changed p false) (active sw)
    else (p, active sw) in
  let '(pd, b, _) := do_stft (spectral_stage p) p b pd in
  (with_process_data p (with_active sw pd), b).

(** ** Rebuilding the working set *)

(** [std::vector::resize]: the elements that fit stay, new ones are value
    initialised. *)
Definition vector_resize {A} (x : A) (n : nat) (v : list A) : list A :=
  take n v ++ replicate (n - length v) x.

Definition rebuild (p : Processor) (pd : ProcessData) : ProcessData :=
  let window_size := (2 ^ fft_order p)%N in
  let compressors :=
    vector_resize default_compressor (N.to_nat (window_size / 2))
      (spectral_compressors pd) in
  let rings :=
    replicate (getMainBusNumInputChannels p) (resize window_size) in
  {| fft_window_size := window_size;
     num_windows_processed := 0;
     windowing_function := Some window_size;
     fft := Some (fft_order p);
     fft_scratch_buffer :=
       vector_resize f_zero (N.to_nat (window_size * 2)) (fft_scratch_buffer pd);
     spectral_compressors := compressors;
     spectral_compressor_sidechain_thresholds :=
       vector_resize f_zero (length compressors)
         (spectral_compressor_sidechain_thresholds pd);
     input_ring_buffers := rings;
     output_ring_buffers := rings;
     sidechain_ring_buffers := rings |}.

Definition update_and_swap_process_data (p : Processor) : Processor :=
  with_compressor_settings_changed
    (with_process_data p (modify_and_swap (rebuild p) (process_data p))) true.

Definition prepareToPlay (p : Processor) (maximumExpectedSamplesPerBlock : N)
    : Processor :=
  let p := with_max_samples_per_block p maximumExpectedSamplesPerBlock in
  let p := update_and_swap_process_data p in
  with_process_data p (get (process_data p)).

(** The body of [process_data_updater], run some time after
    [fft_order_listener] has triggered it. *)
Definition process_data_updater (p : Processor) : Processor :=
  let p := update_and_swap_process_data p in
  let new_window_size := (2 ^ fft_order p)%N in
  with_update_triggered (setLatencySamples p new_window_size) false.

(** Modelled from the spec: [LambdaAsyncUpdater] and
    [LambdaParameterListener] of [utils.h] are not among the sources.
    A change of the FFT order parameter, with its listener: configuration
    changes are asynchronous, the listener only asks for the update, which
    runs later, off the audio thread. *)
Definition set_fft_order (p : Processor) (order : N) : Processor :=
  with_update_triggered (with_fft_order p order) true.

(** [compressor_settings_listener], attached to the other parameters. *)
Definition compressor_settings_listener (p : Processor) : Processor :=
  with_compressor_settings_changed p true.

(** [setStateInformation] as far as the working set goes: the stored FFT
    order replaces the current one when the data parse. Whether the
    parameter listeners run is left open by the source; [listeners_run]
    covers both. *)
Definition setStateInformation (p : Processor) (stored_order : option N)
    (listeners_run : bool) : Processor :=
  let p :=
    match stored_order with
    | Some order =>
        if listeners_run then set_fft_order p order else with_fft_order p order
    | None => p
    end in
  let p := update_and_swap_process_data p in
  let new_window_size := (2 ^ fft_order p)%N in
  setLatencySamples p new_window_size.

(** The processor as its constructor leaves it: the parameters at the
    values given, the latency announced for the FFT order, the settings
    flag set, and two working sets not built yet. [makeup_gain] has no
    initialiser in the class; it holds whatever value it is given here. *)
Definition SpectralCompressorProcessor
    (sidechain : bool) (ratio_ attack_ms release_ms : F) (auto_makeup : bool)
    (order overlap_times : N) (sample_rate : spec_float)
    (input_channels output_channels : nat) (uninitialised : F) : Processor :=
  {| sidechain_active := sidechain;
     compressor_ratio := ratio_;
     compressor_attack_ms := attack_ms;
     compressor_release_ms := release_ms;
     auto_makeup_gain := auto_makeup;
     fft_order := order;
     windowing_overlap_times := overlap_times;
     getSampleRate := sample_rate;
     getMainBusNumInputChannels := input_channels;
     getMainBusNumOutputChannels := output_channels;
     getLatencySamples := 2 ^ order;
     max_samples_per_block := 0;
     makeup_gain := uninitialised;
     compressor_settings_changed := true;
     process_data :=
       {| active := empty_process_data; inactive := empty_process_data;
          swap_pending := false |};
     update_triggered := false |}.

(** ** What a stretch of samples changes

    The channels of a stretch are handled one after the other, each with
    ring buffers and a buffer channel of its own: the loop over the
    channels comes to the same as handling them side by side. *)

Lemma foldl_seq_S {A} (f : A -> nat -> A) (a : A) (k : nat) :
  foldl f a (seq 0 (S k)) = f (foldl f a (seq 0 k)) k.
Proof. rewrite seq_S, foldl_app. reflexivity. Qed.

Lemma foldl_invariant {A B} (P : A -> Prop) (f : A -> B -> A) (l : list B) :
  (forall a x, P a -> P (f a x)) -> forall a, P a -> P (foldl f a l).
Proof. intros Hf. induction l as [|x l IH]; intros a Ha; cbn; auto. Qed.

Lemma window_loop_invariant {St} (P : St -> Prop) (body : N -> N -> St -> St)
    (k : nat) (hop num_samples : N) :
  (forall off n st, P st -> P (body off n st)) ->
  forall off st, P st -> P (fst (window_loop body k hop num_samples off st)).
Proof.
  intros Hbody. induction k as [|k IH]; intros off st Hst; cbn [window_loop fst].
  - assumption.
  - apply IH, Hbody, Hst.
Qed.

Definition stretch_input_rings (b : AudioBuffer) (offset n : N) (k : nat)
    (rs : list RingBuffer) : list RingBuffer :=
  imap (fun c rb =>
          if decide (c < k)%nat
          then read_n_from rb (channel_samples b c offset n) else rb) rs.

Definition stretch_output_rings (gate : bool) (n : N) (k : nat)
    (rs : list RingBuffer) : list RingBuffer :=
  imap (fun c rb =>
          if decide (c < k)%nat
          then (if gate then snd (copy_n_to rb (N.to_nat n) true) else rb)
          else rb) rs.

Definition stretch_sidechain_rings (p : Processor) (b : AudioBuffer)
    (offset n : N) (k : nat) (rs : list RingBuffer) : list RingBuffer :=
  imap (fun c rb =>
          if decide (c < k)%nat
          then (if sidechain_active p
                then read_n_from rb
                       (channel_samples b (getMainBusNumInputChannels p + c)
                          offset n)
                else rb)
          else rb) rs.

Definition stretch_channels (gate : bool) (out_rings : list RingBuffer)
    (offset n : N) (k : nat) (cs : list (list F)) : list (list F) :=
  imap (fun c ch =>
          if decide (c < k)%nat
          then (if gate
                then match out_rings !! c with
                     | Some rb => splice ch offset (fst (copy_n_to rb (N.to_nat n) true))
                     | None => ch
                     end
                else splice ch offset (replicate (N.to_nat n) f_zero))
          else ch) cs.

Definition stretch_result (p : Processor) (offset n : N) (k : nat)
    (pd : ProcessData) (b : AudioBuffer) : ProcessData * AudioBuffer :=
  ({| fft_window_size := fft_window_size pd;
      num_windows_processed := num_windows_processed pd;
      windowing_function := windowing_function pd; fft := fft pd;
      fft_scratch_buffer := fft_scratch_buffer pd;
      spectral_compressors := spectral_compressors pd;
      spectral_compressor_sidechain_thresholds :=
        spectral_compressor_sidechain_thresholds pd;
      input_ring_buffers :=
        stretch_input_rings b offset n k (input_ring_buffers pd);
      output_ring_buffers :=
        stretch_output_rings (output_gate p pd) n k (output_ring_buffers pd);
      sidechain_ring_buffers :=
        stretch_sidechain_rings p b offset n k (sidechain_ring_buffers pd) |},
   {| getNumSamples := getNumSamples b;
      channels :=
        stretch_channels (output_gate p pd) (output_ring_buffers pd) offset n k
          (channels b) |}).

Lemma imap_nothing {A} (f : nat -> A -> A) (l : list A) :
  (forall i x, f i x = x) -> imap f l = l.
Proof.
  intros Hf. apply list_eq. intros i. rewrite list_lookup_imap.
  destruct (l !! i); cbn; [rewrite Hf|]; reflexivity.
Qed.

Lemma alter_imap_next {A} (f : A -> A) (g : nat -> A -> A) (k : nat) (l : list A) :
  (forall x, l !! k = Some x -> f x = g k x) ->
  alter f k (imap (fun c x => if decide (c < k)%nat then g c x else x) l)
  = imap (fun c x => if decide (c < S k)%nat then g c x else x) l.
Proof.
  intros Hf. apply list_eq. intros i.
  destruct (decide (k = i)) as [->|Hne].
  - rewrite list_lookup_alter_eq, !list_lookup_imap.
    destruct (l !! i) as [x|] eqn:Hi; cbn; [|reflexivity].
    repeat case_decide; try lia. rewrite Hf; auto.
  - rewrite list_lookup_alter_ne, !list_lookup_imap by assumption.
    destruct (l !! i); cbn; [|reflexivity].
    repeat case_decide; try lia; reflexivity.
Qed.

Lemma insert_imap_next {A} (g : nat -> A -> A) (k : nat) (l : list A) (x : A) :
  l !! k = Some x ->
  <[k := g k x]> (imap (fun c x => if decide (c < k)%nat then g c x else x) l)
  = imap (fun c x => if decide (c < S k)%nat then g c x else x) l.
Proof.
  intros Hk. apply list_eq. intros i.
  destruct (decide (k = i)) as [->|Hne].
  - rewrite list_lookup_insert_eq, list_lookup_imap, Hk.
    + cbn. case_decide; [reflexivity|lia].
    + rewrite length_imap. eapply lookup_lt_Some, Hk.
  - rewrite list_lookup_insert_ne, !list_lookup_imap by assumption.
    destruct (l !! i); cbn; [|reflexivity].
    repeat case_decide; try lia; reflexivity.
Qed.

Lemma imap_next_nothing {A} (g : nat -> A -> A) (k : nat) (l : list A) :
  (forall x, l !! k = Some x -> g k x = x) ->
  imap (fun c x => if decide (c < k)%nat then g c x else x) l
  = imap (fun c x => if decide (c < S k)%nat then g c x else x) l.
Proof.
  intros Hk. apply list_eq. intros i. rewrite !list_lookup_imap.
  destruct (l !! i) as [x|] eqn:Hi; cbn; [|reflexivity].
  repeat case_decide; try lia; try reflexivity.
  assert (i = k) by lia. subst i. rewrite Hk; auto.
Qed.

Lemma channel_samples_stretch gate out_rings off n k b c offset' n' :
  (k <= c)%nat ->
  channel_samples
    {| getNumSamples := getNumSamples b;
       channels := stretch_channels gate out_rings off n k (channels b) |}
    c offset' n'
  = channel_samples b c offset' n'.
Proof.
  intros Hc. unfold channel_samples, stretch_channels. cbn [channels].
  rewrite list_lookup_imap. destruct (channels b !! c); cbn; [|reflexivity].
  case_decide; [lia|reflexivity].
Qed.

Lemma process_data_eq (pd1 pd2 : ProcessData) :
  fft_window_size pd1 = fft_window_size pd2 ->
  num_windows_processed pd1 = num_windows_processed pd2 ->
  windowing_function pd1 = windowing_function pd2 ->
  fft pd1 = fft pd2 ->
  fft_scratch_buffer pd1 = fft_scratch_buffer pd2 ->
  spectral_compressors pd1 = spectral_compressors pd2 ->
  spectral_compressor_sidechain_thresholds pd1
    = spectral_compressor_sidechain_thresholds pd2 ->
  input_ring_buffers pd1 = input_ring_buffers pd2 ->
  output_ring_buffers pd1 = output_ring_buffers pd2 ->
  sidechain_ring_buffers pd1 = sidechain_ring_buffers pd2 ->
  pd1 = pd2.
Proof. destruct pd1, pd2; cbn; intros; subst; reflexivity. Qed.

Ltac fields :=
  cbn [fft_window_size num_windows_processed windowing_function fft
       fft_scratch_buffer spectral_compressors
       spectral_compressor_sidechain_thresholds input_ring_buffers
       output_ring_buffers sidechain_ring_buffers channels getNumSamples
       with_num_windows_processed with_fft_scratch_buffer
       with_spectral_compressors with_sidechain_thresholds
       with_input_ring_buffers with_output_ring_buffers
       with_sidechain_ring_buffers fst snd] in *.

Lemma channel_samples_written gate out_rings off n k b c f offset' n' :
  (k < c)%nat ->
  channel_samples
    {| getNumSamples := getNumSamples b;
       channels := alter f k (stretch_channels gate out_rings off n k (channels b)) |}
    c offset' n'
  = channel_samples b c offset' n'.
Proof.
  intros Hc. unfold channel_samples, stretch_channels. cbn [channels].
  rewrite list_lookup_alter_ne by lia.
  rewrite list_lookup_imap. destruct (channels b !! c); cbn; [|reflexivity].
  case_decide; [lia|reflexivity].
Qed.

Lemma copy_in_out_channels p offset n pd b k :
  (k <= getMainBusNumInputChannels p)%nat ->
  foldl (copy_in_out_channel p offset n) (pd, b) (seq 0 k)
  = stretch_result p offset n k pd b.
Proof.
  induction k as [|k IH]; intros Hk.
  - cbn [seq foldl]. unfold stretch_result, stretch_input_rings,
      stretch_output_rings, stretch_sidechain_rings, stretch_channels.
    rewrite !imap_nothing by (intros; case_decide; [lia|reflexivity]).
    destruct pd, b; reflexivity.
  - rewrite foldl_seq_S, IH by lia. clear IH.
    unfold stretch_result, copy_in_out_channel, clear, write_samples, output_gate.
    fields. rewrite !channel_samples_stretch by lia.
    set (gate := (windowing_overlap_times p <=? num_windows_processed pd)%N).
    assert (Hin := alter_imap_next
              (fun rb => read_n_from rb (channel_samples b k offset n))
              (fun c rb => read_n_from rb (channel_samples b c offset n))
              k (input_ring_buffers pd) ltac:(reflexivity)).
    assert (Hsc := alter_imap_next
              (fun rb => read_n_from rb
                           (channel_samples b (getMainBusNumInputChannels p + k)
                              offset n))
              (fun c rb => read_n_from rb
                             (channel_samples b
                                (getMainBusNumInputChannels p + c) offset n))
              k (sidechain_ring_buffers pd) ltac:(reflexivity)).
    assert (Hno := imap_next_nothing (fun (c : nat) (rb : RingBuffer) => rb) k
                     (sidechain_ring_buffers pd) ltac:(reflexivity)).
    destruct gate.
    + (* the output ring buffer is read *)
      unfold stretch_output_rings at 1. rewrite list_lookup_imap.
      destruct (output_ring_buffers pd !! k) as [rb|] eqn:Hrb;
        cbn [fmap option_fmap option_map].
      * case_decide; [lia|].
        assert (Hout := insert_imap_next
                  (fun c rb => snd (copy_n_to rb (N.to_nat n) true))
                  k (output_ring_buffers pd) rb Hrb).
        assert (Hch := alter_imap_next
                  (fun ch => splice ch offset
                               (fst (copy_n_to rb (N.to_nat n) true)))
                  (fun c ch =>
                     match output_ring_buffers pd !! c with
                     | Some rb =>
                         splice ch offset (fst (copy_n_to rb (N.to_nat n) true))
                     | None => ch
                     end)
                  k (channels b) ltac:(intros; cbn beta; rewrite Hrb; reflexivity)).
        destruct (copy_n_to rb (N.to_nat n) true) as [out rb'] eqn:Hcopy.
        cbn beta in Hout. rewrite Hcopy in Hout.
        cbn [fst snd] in Hout, Hch.
        rewrite ?channel_samples_written by lia.
        unfold stretch_input_rings, stretch_output_rings,
          stretch_sidechain_rings, stretch_channels. fields.
        destruct (sidechain_active p); fields;
          (f_equal; [apply process_data_eq; fields; trivial | f_equal; trivial]).
      * assert (Hout := imap_next_nothing
                  (fun c rb => snd (copy_n_to rb (N.to_nat n) true))
                  k (output_ring_buffers pd)
                  ltac:(intros x Hx; rewrite Hrb in Hx; discriminate)).
        assert (Hch := imap_next_nothing
                  (fun c ch =>
                     match output_ring_buffers pd !! c with
                     | Some rb =>
                         splice ch offset (fst (copy_n_to rb (N.to_nat n) true))
                     | None => ch
                     end)
                  k (channels b) ltac:(intros; cbn beta; rewrite Hrb; reflexivity)).
        rewrite ?channel_samples_stretch by lia.
        unfold stretch_input_rings, stretch_output_rings,
          stretch_sidechain_rings, stretch_channels. fields.
        destruct (sidechain_active p); fields;
          (f_equal; [apply process_data_eq; fields; trivial | f_equal; trivial]).
    + (* silence is written *)
      assert (Hout := imap_next_nothing (fun (c : nat) (rb : RingBuffer) => rb)
                        k (output_ring_buffers pd) ltac:(reflexivity)).
      assert (Hch := alter_imap_next
                (fun ch => splice ch offset (replicate (N.to_nat n) f_zero))
                (fun c ch => splice ch offset (replicate (N.to_nat n) f_zero))
                k (channels b) ltac:(reflexivity)).
      rewrite ?channel_samples_written by lia.
      unfold stretch_input_rings, stretch_output_rings,
        stretch_sidechain_rings, stretch_channels. fields.
      destruct (sidechain_active p); fields;
        (f_equal; [apply process_data_eq; fields; trivial | f_equal; trivial]).
Qed.

Lemma copy_in_out_stretch p offset n pd b :
  copy_in_out p offset n (pd, b)
  = stretch_result p offset n (getMainBusNumInputChannels p) pd b.
Proof. apply copy_in_out_channels. reflexivity. Qed.

(** *** The position of a ring buffer *)

Lemma ring_size_push rb x : ring_size (push rb x) = ring_size rb.
Proof. unfold ring_size, push. cbn. rewrite length_insert. reflexivity. Qed.

Lemma ring_size_read_n_from src : forall rb,
  ring_size (read_n_from rb src) = ring_size rb.
Proof.
  unfold read_n_from. induction src as [|x src IH]; intros rb; cbn.
  - reflexivity.
  - rewrite IH. apply ring_size_push.
Qed.

Lemma current_pos_read_n_from src : forall rb,
  (current_pos rb < ring_size rb)%N ->
  current_pos (read_n_from rb src)
  = ((current_pos rb + N.of_nat (length src)) mod ring_size rb)%N.
Proof.
  unfold read_n_from. induction src as [|x src IH]; intros rb Hpos; cbn [foldl length].
  - rewrite N.add_0_r, N.mod_small by assumption. reflexivity.
  - rewrite IH.
    + rewrite ring_size_push. cbn [push current_pos]. unfold ring_step.
      rewrite N.Div0.add_mod_idemp_l. f_equal. lia.
    + rewrite ring_size_push. cbn [push current_pos]. unfold ring_step.
      apply N.mod_lt. lia.
Qed.

Lemma length_copy_n_to num clear : forall rb,
  length (fst (copy_n_to rb num clear)) = num.
Proof.
  induction num as [|k IH]; intros rb; cbn [copy_n_to].
  - reflexivity.
  - destruct (pop clear rb) as [x rb']. specialize (IH rb').
    destruct (copy_n_to rb' k clear) as [xs rb'']. cbn [fst length] in *.
    congruence.
Qed.

Lemma length_channel_samples b c offset n ch :
  channels b !! c = Some ch ->
  (N.to_nat offset + N.to_nat n <= length ch)%nat ->
  length (channel_samples b c offset n) = N.to_nat n.
Proof.
  intros Hc Hlen. unfold channel_samples. rewrite Hc. cbn [default from_option id].
  rewrite length_take, length_drop. lia.
Qed.

(** *** Writing into a channel *)

Lemma length_splice ch offset xs :
  (N.to_nat offset + length xs <= length ch)%nat ->
  length (splice ch offset xs) = length ch.
Proof.
  intros H. unfold splice. rewrite !length_app, length_take, length_drop. lia.
Qed.

Lemma lookup_splice_before ch offset xs i :
  (i < N.to_nat offset)%nat -> (N.to_nat offset <= length ch)%nat ->
  splice ch offset xs !! i = ch !! i.
Proof.
  intros Hi Hoff. unfold splice.
  rewrite lookup_app_l by (rewrite length_take; lia).
  apply lookup_take_lt. assumption.
Qed.

Lemma lookup_splice_in ch offset xs i :
  (N.to_nat offset <= length ch)%nat ->
  (N.to_nat offset <= i < N.to_nat offset + length xs)%nat ->
  splice ch offset xs !! i = xs !! (i - N.to_nat offset)%nat.
Proof.
  intros Hoff Hi. unfold splice.
  rewrite lookup_app_r by (rewrite length_take; lia).
  rewrite length_take, Nat.min_l by lia.
  apply lookup_app_l. lia.
Qed.

(** ** Silence until enough windows have been processed *)

(** A stage that leaves the window size, the window count and the input
    ring buffers alone, as both stages of the source do. *)
Definition stage_keeps_input (process_fn : ProcessData -> nat -> ProcessData)
    : Prop :=
  forall pd n,
    fft_window_size (process_fn pd n) = fft_window_size pd /\
    num_windows_processed (process_fn pd n) = num_windows_processed pd /\
    input_ring_buffers (process_fn pd n) = input_ring_buffers pd.

(** A host buffer the processor can be given: at least the main channels,
    every channel of the announced length, fewer than [2^24] samples. *)
Definition buffer_ok (p : Processor) (b : AudioBuffer) : Prop :=
  (0 < getMainBusNumInputChannels p <= length (channels b))%nat /\
  Forall (fun ch => length ch = N.to_nat (getNumSamples b)) (channels b) /\
  (getNumSamples b < 2 ^ 24)%N.

Definition same_shape (b b' : AudioBuffer) : Prop :=
  getNumSamples b' = getNumSamples b /\
  length (channels b') = length (channels b) /\
  Forall (fun ch => length ch = N.to_nat (getNumSamples b)) (channels b').

(** What a stretch does to the first input ring buffer and to the main
    channels of the host buffer. *)
Lemma copy_in_out_facts p offset n pd b r0 :
  buffer_ok p b ->
  (offset + n <= getNumSamples b)%N ->
  input_ring_buffers pd !! 0%nat = Some r0 ->
  (current_pos r0 < ring_size r0)%N ->
  let st := copy_in_out p offset n (pd, b) in
  fft_window_size (fst st) = fft_window_size pd /\
  num_windows_processed (fst st) = num_windows_processed pd /\
  (exists r0', input_ring_buffers (fst st) !! 0%nat = Some r0' /\
               ring_size r0' = ring_size r0 /\
               current_pos r0' = ((current_pos r0 + n) mod ring_size r0)%N) /\
  same_shape b (snd st) /\
  (forall c ch', channels (snd st) !! c = Some ch' ->
     exists ch, channels b !! c = Some ch /\
       (forall i, (i < N.to_nat offset)%nat -> ch' !! i = ch !! i) /\
       ((c < getMainBusNumInputChannels p)%nat -> output_gate p pd = false ->
        forall i, (N.to_nat offset <= i < N.to_nat offset + N.to_nat n)%nat ->
                  ch' !! i = Some f_zero)).
Proof.
  intros (Hch & Hlen & Hsmall) Hoff Hr0 Hpos st. subst st.
  rewrite copy_in_out_stretch. unfold stretch_result. fields.
  split; [reflexivity|]. split; [reflexivity|].
  assert (Hlens : forall c ch, channels b !! c = Some ch ->
                    length ch = N.to_nat (getNumSamples b)).
  { intros c ch Hc. rewrite Forall_lookup in Hlen. eapply Hlen, Hc. }
  split; [|split].
  - (* the first input ring buffer *)
    unfold stretch_input_rings. rewrite list_lookup_imap, Hr0. cbn.
    case_decide; [|lia].
    eexists. split; [reflexivity|].
    destruct (lookup_lt_is_Some_2 (channels b) 0%nat ltac:(lia)) as [ch0 Hch0].
    rewrite ring_size_read_n_from. split; [reflexivity|].
    rewrite current_pos_read_n_from by assumption.
    rewrite (length_channel_samples b 0 offset n ch0 Hch0)
      by (rewrite (Hlens _ _ Hch0); lia).
    rewrite N2Nat.id. reflexivity.
  - (* the shape of the buffer *)
    unfold same_shape, stretch_channels. fields.
    split; [reflexivity|]. split; [apply length_imap|].
    rewrite Forall_lookup. intros c ch' Hc'.
    rewrite list_lookup_imap in Hc'.
    destruct (channels b !! c) as [ch|] eqn:Hc; [|discriminate].
    cbn in Hc'. injection Hc' as <-.
    pose proof (Hlens c ch Hc) as Hl.
    case_decide; [|assumption].
    destruct (output_gate p pd).
    + destruct (output_ring_buffers pd !! c); [|assumption].
      rewrite length_splice; [assumption|].
      rewrite length_copy_n_to. lia.
    + rewrite length_splice; [assumption|].
      rewrite length_replicate. lia.
  - (* the samples of the channels *)
    intros c ch' Hc'. unfold stretch_channels in Hc'.
    rewrite list_lookup_imap in Hc'.
    destruct (channels b !! c) as [ch|] eqn:Hc; [|discriminate].
    cbn in Hc'. injection Hc' as <-.
    pose proof (Hlens c ch Hc) as Hl.
    exists ch. split; [reflexivity|]. split.
    + intros i Hi. case_decide; [|reflexivity].
      destruct (output_gate p pd).
      * destruct (output_ring_buffers pd !! c); [|reflexivity].
        apply lookup_splice_before; lia.
      * apply lookup_splice_before; lia.
    + intros Hcin Hgate i Hi. rewrite Hgate.
      case_decide; [|lia].
      rewrite lookup_splice_in by (rewrite ?length_replicate; lia).
      apply lookup_replicate_2. lia.
Qed.

Lemma same_shape_ok p b b' : buffer_ok p b -> same_shape b b' -> buffer_ok p b'.
Proof.
  intros (Hch & Hlen & Hsmall) (Hn & Hl & Hf). unfold buffer_ok.
  rewrite Hn, Hl. split; [assumption|]. split; assumption.
Qed.

Lemma same_shape_refl p b : buffer_ok p b -> same_shape b b.
Proof. intros (Hch & Hlen & Hsmall). repeat split; assumption. Qed.

Lemma same_shape_trans b b1 b2 :
  same_shape b b1 -> same_shape b1 b2 -> same_shape b b2.
Proof.
  intros (Hn1 & Hl1 & Hf1) (Hn2 & Hl2 & Hf2). unfold same_shape.
  rewrite Hn2, Hn1, Hl2, Hl1. rewrite Hn1 in Hf2. repeat split. assumption.
Qed.

Lemma clear_same_shape p b channel :
  buffer_ok p b -> same_shape b (clear b channel 0 (getNumSamples b)).
Proof.
  intros (Hch & Hlen & Hsmall). unfold same_shape, clear, write_samples. fields.
  split; [reflexivity|]. split; [apply length_alter|].
  apply Forall_alter; [assumption|].
  intros ch _ Hl. rewrite length_splice; [assumption|].
  rewrite length_replicate. lia.
Qed.

(** The channels of the output bus without an input are zeroed first, which
    leaves the shape of the buffer as it was. *)
Lemma clear_unused_same_shape p b l :
  buffer_ok p b ->
  same_shape b (foldl (fun b' channel => clear b' channel 0 (getNumSamples b)) b l).
Proof.
  intros Hok.
  apply (foldl_invariant (same_shape b)); [|eapply same_shape_refl, Hok].
  intros b' channel Hb'.
  pose proof (clear_same_shape p b' channel (same_shape_ok p b b' Hok Hb')) as Hc.
  assert (Hn : getNumSamples b' = getNumSamples b) by apply Hb'.
  rewrite Hn in Hc. exact (same_shape_trans _ _ _ Hb' Hc).
Qed.

(** The working set [t] samples after a rebuild: the window size is [W],
    the windows at the multiples of the hop before [t] have been processed,
    and the first input ring buffer stands at [t]. *)
Definition aligned (W hop t : N) (pd : ProcessData) : Prop :=
  fft_window_size pd = W /\
  num_windows_processed pd = ceil_div t hop /\
  exists r0, input_ring_buffers pd !! 0%nat = Some r0 /\
             ring_size r0 = W /\ current_pos r0 = (t mod W)%N.

Lemma hop_positive W O :
  (0 < windowing_interval W O)%N ->
  (0 < W /\ 0 < O /\ O * windowing_interval W O <= W)%N.
Proof.
  unfold windowing_interval. intros Hhop.
  destruct (N.eq_dec O 0%N) as [->|HO].
  { destruct W; discriminate Hhop. }
  destruct (N.eq_dec W 0%N) as [->|HW0].
  { rewrite N.Div0.div_0_l in Hhop. lia. }
  pose proof (N.Div0.mul_div_le W O). lia.
Qed.

Section Silence.
Local Open Scope N_scope.

Variable process_fn : ProcessData -> nat -> ProcessData.
Variable p : Processor.
Variables W t : N.
Local Abbreviation hop := (windowing_interval W (windowing_overlap_times p)).
Local Abbreviation latency := ((windowing_overlap_times p - 1) * hop).

Hypothesis Hstage : stage_keeps_input process_fn.
Hypothesis Hhop : 0 < hop.

(** The main channels of the buffer hold silence up to [off], as far as
    that lies within the first [latency] samples since the rebuild. *)
Definition silent_before (b : AudioBuffer) (off : N) : Prop :=
  forall c ch i, (c < getMainBusNumInputChannels p)%nat ->
    channels b !! c = Some ch -> N.of_nat i < off ->
    t + N.of_nat i < latency -> ch !! i = Some f_zero.

Lemma gate_closed pd off i :
  num_windows_processed pd = ceil_div (t + off) hop ->
  off <= i -> t + i < latency -> output_gate p pd = false.
Proof.
  intros Hnum Hoff HL. unfold output_gate. rewrite Hnum.
  apply N.leb_gt.
  pose proof (ceil_div_lower (t + off) hop Hhop) as Hlow.
  apply (N.mul_lt_mono_pos_r hop); [assumption|].
  rewrite pred_mul in HL. lia.
Qed.

Lemma gate_closed_next pd off i :
  num_windows_processed pd = ceil_div (t + off) hop + 1 ->
  t + off = ceil_div (t + off) hop * hop ->
  off <= i -> t + i < latency -> output_gate p pd = false.
Proof.
  intros Hnum Hal Hoff HL. unfold output_gate. rewrite Hnum.
  apply N.leb_gt.
  apply (N.mul_lt_mono_pos_r hop); [assumption|].
  rewrite pred_mul in HL. lia.
Qed.

(** One window of the loop: the stage, the count, the stretch. *)
Lemma process_window_silent b0 off n pd b :
  buffer_ok p b0 -> same_shape b0 b ->
  0 < n <= hop -> off + n <= getNumSamples b0 ->
  t + off = ceil_div (t + off) hop * hop ->
  aligned W hop (t + off) pd ->
  silent_before b off ->
  let st := process_window process_fn p off n (pd, b) in
  aligned W hop (t + (off + n)) (fst st) /\ same_shape b0 (snd st) /\
  silent_before (snd st) (off + n).
Proof.
  intros Hok0 Hshape Hn Hoff Hal (HWpd & Hnum & r0 & Hr0 & Hsize & Hpos) Hsil.
  pose proof (hop_positive _ _ Hhop) as (HWpos & HOpos & HOW).
  pose proof (Hstage pd (getMainBusNumInputChannels p)) as (HsW & Hsn & Hsr).
  pose proof (same_shape_ok p b0 b Hok0 Hshape) as Hok.
  assert (Hb : getNumSamples b = getNumSamples b0) by apply Hshape.
  unfold process_window.
  set (pd1 := with_num_windows_processed _ _).
  assert (Hr1 : input_ring_buffers pd1 !! 0%nat = Some r0).
  { subst pd1. fields. rewrite Hsr. assumption. }
  assert (Hnum1 : num_windows_processed pd1 = ceil_div (t + off) hop + 1).
  { subst pd1. fields. rewrite Hsn, Hnum. reflexivity. }
  assert (HW1 : fft_window_size pd1 = W).
  { subst pd1. fields. rewrite HsW. assumption. }
  pose proof (copy_in_out_facts p off n pd1 b r0 Hok ltac:(lia) Hr1
                ltac:(rewrite Hpos, Hsize; apply N.mod_lt; lia))
    as (F1 & F2 & (r0' & F3 & F4 & F5) & F6 & F7).
  cbv zeta. split; [|split].
  - split; [congruence|]. split.
    + rewrite F2, Hnum1. symmetry. apply ceil_div_eq; [assumption|lia|].
      right. rewrite N.add_sub. lia.
    + exists r0'. split; [assumption|]. split; [congruence|].
      rewrite F5, Hpos, Hsize, N.Div0.add_mod_idemp_l. f_equal. lia.
  - eapply same_shape_trans; eassumption.
  - intros c ch' i Hc Hch' Hi HL.
    destruct (F7 c ch' Hch') as (ch & Hch & Hpre & Hz).
    destruct (N.lt_ge_cases (N.of_nat i) off) as [Hlt|Hge].
    + rewrite Hpre by lia. eapply Hsil; eassumption.
    + apply Hz; [assumption| |lia].
      eapply gate_closed_next; eassumption.
Qed.

(** The window loop of a block, entered at a window boundary. *)
Lemma window_loop_silent b0 : forall k off pd b,
  buffer_ok p b0 -> same_shape b0 b ->
  off <= getNumSamples b0 ->
  N.of_nat k = ceil_div (getNumSamples b0 - off) hop ->
  (off < getNumSamples b0 -> t + off = ceil_div (t + off) hop * hop) ->
  aligned W hop (t + off) pd ->
  silent_before b off ->
  let st := fst (window_loop (process_window process_fn p) k hop
                   (getNumSamples b0) off (pd, b)) in
  aligned W hop (t + getNumSamples b0) (fst st) /\ same_shape b0 (snd st) /\
  silent_before (snd st) (getNumSamples b0).
Proof.
  induction k as [|k IH]; intros off pd b Hok0 Hshape Hoff Hk Hal Hin Hsil;
    cbn [window_loop].
  - assert (Heq : getNumSamples b0 = off).
    { destruct (N.eq_dec (getNumSamples b0 - off) 0) as [Hz|Hnz]; [lia|].
      pose proof (ceil_div_pos (getNumSamples b0 - off) hop Hhop ltac:(lia)).
      lia. }
    cbn [fst snd]. rewrite Heq. auto.
  - assert (Hlt : off < getNumSamples b0).
    { destruct (N.eq_dec (getNumSamples b0 - off) 0) as [Hz|Hnz]; [|lia].
      rewrite Hz, ceil_div_0 in Hk by assumption. lia. }
    unfold samples_to_process_this_iteration.
    set (n := N.min hop (getNumSamples b0 - off)).
    assert (Hn : 0 < n <= hop) by (subst n; lia).
    pose proof (process_window_silent b0 off n pd b Hok0 Hshape Hn
                  ltac:(subst n; lia) (Hal Hlt) Hin Hsil) as (G1 & G2 & G3).
    destruct (process_window process_fn p off n (pd, b)) as [pd' b'].
    cbn [fst snd] in G1, G2, G3.
    apply IH; try assumption.
    + subst n. lia.
    + destruct (N.le_gt_cases hop (getNumSamples b0 - off)) as [Hfull|Hpart].
      * replace n with hop by (subst n; lia).
        replace (getNumSamples b0 - (off + hop))
          with (getNumSamples b0 - off - hop) by lia.
        rewrite ceil_div_sub by assumption. lia.
      * replace n with (getNumSamples b0 - off) by (subst n; lia).
        rewrite (ceil_div_small (getNumSamples b0 - off) hop) in Hk by lia.
        replace (getNumSamples b0 - (off + (getNumSamples b0 - off))) with 0 by lia.
        rewrite ceil_div_0 by assumption. lia.
    + intros Hmore. assert (n = hop) by (subst n; lia).
      specialize (Hal Hlt).
      rewrite (ceil_div_eq (t + (off + n)) hop (ceil_div (t + off) hop + 1));
        [lia|assumption|lia|].
      right. rewrite N.add_sub. lia.
Qed.

(** One block: the first stretch up to the next window boundary, then the
    windows. *)
Lemma do_stft_silent b pd :
  buffer_ok p b -> W < 2 ^ 24 -> t < W ->
  aligned W hop t pd ->
  let '(pd', b', _) := do_stft process_fn p b pd in
  aligned W hop (t + getNumSamples b) pd' /\ same_shape b b' /\
  silent_before b' (getNumSamples b).
Proof.
  intros Hok HW Ht (HWpd & Hnum & r0 & Hr0 & Hsize & Hpos).
  pose proof (hop_positive _ _ Hhop) as (HWpos & HOpos & HOW).
  assert (Hhop24 : hop < 2 ^ 24).
  { pose proof (pos_mul_ge (windowing_overlap_times p) hop ltac:(lia)). lia. }
  assert (Hsmall : getNumSamples b < 2 ^ 24) by apply Hok.
  unfold do_stft. rewrite HWpd, Hr0. cbn [from_option]. unfold pos.
  rewrite Hpos, (N.mod_small t W) by assumption.
  set (b1 := foldl _ b _).
  assert (Hs1 : same_shape b b1) by apply (clear_unused_same_shape p), Hok.
  pose proof (same_shape_ok p b b1 Hok Hs1) as Hok1.
  assert (Hn1 : getNumSamples b1 = getNumSamples b) by apply Hs1.
  unfold already_processed_samples, samples_to_be_processed.
  pose proof (to_boundary t hop Hhop) as Hbound.
  pose proof (fun n => ceil_div_before_boundary t n hop Hhop) as Hbefore.
  revert Hbound Hbefore. generalize ((hop - t mod hop) mod hop) as A.
  intros A Hbound Hbefore.
  set (already := N.min (getNumSamples b) A).
  rewrite windows_to_process_exact by lia.
  rewrite to_nat_of_N.
  assert (Hfirst : exists pd2 b2,
    (if 0 <? already then (copy_in_out p 0 already (pd, b1), already)
     else ((pd, b1), 0)) = ((pd2, b2), already) /\
    aligned W hop (t + already) pd2 /\ same_shape b b2 /\
    silent_before b2 already).
  { destruct (N.ltb_spec 0 already) as [Hpos'|Hzero].
    - pose proof (copy_in_out_facts p 0 already pd b1 r0 Hok1 ltac:(lia) Hr0
                    ltac:(rewrite Hpos, Hsize; apply N.mod_lt; lia))
        as (F1 & F2 & (r0' & F3 & F4 & F5) & F6 & F7).
      cbv zeta in *.
      destruct (copy_in_out p 0 already (pd, b1)) as [pd2 b2].
      cbn [fst snd] in *.
      exists pd2, b2. split; [reflexivity|]. split; [|split].
      + split; [congruence|]. split.
        * rewrite F2, Hnum. symmetry. apply Hbefore. lia.
        * exists r0'. split; [assumption|]. split; [congruence|].
          rewrite F5, Hpos, Hsize, N.Div0.add_mod_idemp_l. reflexivity.
      + eapply same_shape_trans; eassumption.
      + intros c ch' i Hc Hch' Hi HL.
        destruct (F7 c ch' Hch') as (ch & Hch & Hpre & Hz).
        apply Hz; [assumption| |lia].
        apply (gate_closed pd 0 (N.of_nat i)); [|lia|assumption].
        rewrite N.add_0_r. assumption.
    - assert (Hz : already = 0) by lia. rewrite Hz.
      exists pd, b1. split; [reflexivity|]. split; [|split].
      + rewrite N.add_0_r. split; [assumption|]. split; [assumption|].
        exists r0. rewrite Hpos. auto.
      + assumption.
      + intros c ch i _ _ Hi. lia. }
  destruct Hfirst as (pd2 & b2 & -> & G1 & G2 & G3).
  assert (Halign : already < getNumSamples b ->
                   t + already = ceil_div (t + already) hop * hop).
  { intros Hlt. assert (Heq : already = A) by lia.
    rewrite Heq, Hbefore by lia. assumption. }
  pose proof (window_loop_silent b
                (N.to_nat (ceil_div (getNumSamples b - already) hop))
                already pd2 b2 Hok G2 ltac:(lia)
                ltac:(rewrite N2Nat.id; reflexivity) Halign G1 G3) as H.
  cbv zeta in H.
  destruct (window_loop _ _ _ _ _ _) as [[pd' b'] off'].
  exact H.
Qed.

End Silence.

(** ** A stream of blocks

    The host hands the processor one block after the other; the output
    stream of a channel is what it gets back, end to end. *)
Fixpoint run_blocks (process_fn : ProcessData -> nat -> ProcessData)
    (p : Processor) (pd : ProcessData) (blocks : list AudioBuffer)
    : ProcessData * list AudioBuffer :=
  match blocks with
  | [] => (pd, [])
  | b :: rest =>
      let '(pd, b, _) := do_stft process_fn p b pd in
      let '(pd, outs) := run_blocks process_fn p pd rest in
      (pd, b :: outs)
  end.

Definition output_stream (channel : nat) (outs : list AudioBuffer) : list F :=
  concat (map (fun b => default [] (channels b !! channel)) outs).

Lemma run_blocks_silent process_fn p W :
  stage_keeps_input process_fn ->
  (0 < windowing_interval W (windowing_overlap_times p))%N ->
  (W < 2 ^ 24)%N ->
  forall blocks t pd,
    Forall (buffer_ok p) blocks ->
    aligned W (windowing_interval W (windowing_overlap_times p)) t pd ->
    forall c i x,
      (c < getMainBusNumInputChannels p)%nat ->
      output_stream c (snd (run_blocks process_fn p pd blocks)) !! i = Some x ->
      (t + N.of_nat i
       < (windowing_overlap_times p - 1)
         * windowing_interval W (windowing_overlap_times p))%N ->
      x = f_zero.
Proof.
  intros Hstage Hhop HW.
  pose proof (hop_positive _ _ Hhop) as (HWpos & HOpos & HOW).
  pose proof (pos_mul_ge (windowing_overlap_times p) _ ltac:(lia)
                : (windowing_interval W (windowing_overlap_times p) <= _)%N) as Hge.
  induction blocks as [|b rest IH]; intros t pd Hoks Hal c i x Hc Hi HL.
  - cbn in Hi. discriminate.
  - apply Forall_cons in Hoks as [Hok Hoks].
    assert (Ht : (t < W)%N) by (rewrite pred_mul in HL; lia).
    pose proof (do_stft_silent process_fn p W t Hstage Hhop b pd Hok HW Ht Hal)
      as Hblock.
    cbn [run_blocks] in Hi.
    destruct (do_stft process_fn p b pd) as [[pd' b'] off].
    destruct Hblock as (Hal' & Hshape & Hsil).
    specialize (IH (t + getNumSamples b)%N pd' Hoks Hal' c).
    destruct (run_blocks process_fn p pd' rest) as [pd'' outs].
    cbn [snd] in *. unfold output_stream in Hi. cbn [map concat] in Hi.
    fold (output_stream c outs) in Hi.
    pose proof (same_shape_ok p b b' Hok Hshape) as (Hch & Hlen & _).
    destruct (lookup_lt_is_Some_2 (channels b') c ltac:(lia)) as [ch Hch'].
    rewrite Hch' in Hi. cbn [default from_option id] in Hi.
    assert (Hl : length ch = N.to_nat (getNumSamples b)).
    { rewrite Forall_lookup in Hlen. rewrite (Hlen _ _ Hch').
      f_equal. apply Hshape. }
    destruct (decide (i < length ch)%nat) as [Hin|Hout].
    + rewrite lookup_app_l in Hi by assumption.
      rewrite (Hsil c ch i Hc Hch' ltac:(lia) HL) in Hi. congruence.
    + rewrite lookup_app_r in Hi by lia.
      apply (IH _ _ Hc Hi). lia.
Qed.

(** ** What the stages and the driver leave alone *)

Lemma bypass_stage_frame p pd n :
  let pd' := bypass_stage p pd n in
  fft_window_size pd' = fft_window_size pd /\
  num_windows_processed pd' = num_windows_processed pd /\
  input_ring_buffers pd' = input_ring_buffers pd /\
  spectral_compressors pd' = spectral_compressors pd /\
  spectral_compressor_sidechain_thresholds pd'
  = spectral_compressor_sidechain_thresholds pd.
Proof.
  cbv zeta. unfold bypass_stage.
  apply (foldl_invariant
           (fun pd' =>
              fft_window_size pd' = fft_window_size pd /\
              num_windows_processed pd' = num_windows_processed pd /\
              input_ring_buffers pd' = input_ring_buffers pd /\
              spectral_compressors pd' = spectral_compressors pd /\
              spectral_compressor_sidechain_thresholds pd'
              = spectral_compressor_sidechain_thresholds pd)).
  - intros pd' channel H. unfold bypass_channel. fields. exact H.
  - repeat split.
Qed.

Lemma bypass_stage_keeps_input p : stage_keeps_input (bypass_stage p).
Proof.
  intros pd n. destruct (bypass_stage_frame p pd n) as (H1 & H2 & H3 & _).
  auto.
Qed.

Lemma sidechain_thresholds_frame pd n :
  let pd' := sidechain_thresholds pd n in
  fft_window_size pd' = fft_window_size pd /\
  num_windows_processed pd' = num_windows_processed pd /\
  input_ring_buffers pd' = input_ring_buffers pd.
Proof.
  cbv zeta. unfold sidechain_thresholds.
  set (pd1 := foldl sidechain_channel pd (seq 0 n)).
  assert (H1 : fft_window_size pd1 = fft_window_size pd /\
               num_windows_processed pd1 = num_windows_processed pd /\
               input_ring_buffers pd1 = input_ring_buffers pd).
  { subst pd1.
    apply (foldl_invariant
             (fun pd' =>
                fft_window_size pd' = fft_window_size pd /\
                num_windows_processed pd' = num_windows_processed pd /\
                input_ring_buffers pd' = input_ring_buffers pd)).
    - intros pd' channel H. unfold sidechain_channel, fft_forward. fields.
      exact H.
    - repeat split. }
  destruct (foldl (set_sidechain_threshold n) _ _) as [cs thresholds].
  fields. exact H1.
Qed.

Lemma spectral_channel_frame p pd channel :
  let pd' := spectral_channel p pd channel in
  fft_window_size pd' = fft_window_size pd /\
  num_windows_processed pd' = num_windows_processed pd /\
  input_ring_buffers pd' = input_ring_buffers pd.
Proof.
  cbv zeta. unfold spectral_channel, apply_window, fft_forward, fft_inverse.
  fields. destruct (compress_bins _ _ _) as [cs scratch]. fields.
  repeat split.
Qed.

Lemma spectral_stage_keeps_input p : stage_keeps_input (spectral_stage p).
Proof.
  intros pd n. unfold spectral_stage.
  set (pd1 := if sidechain_active p then _ else _).
  assert (H1 : fft_window_size pd1 = fft_window_size pd /\
               num_windows_processed pd1 = num_windows_processed pd /\
               input_ring_buffers pd1 = input_ring_buffers pd).
  { subst pd1. destruct (sidechain_active p).
    - apply sidechain_thresholds_frame.
    - repeat split. }
  apply (foldl_invariant
           (fun pd' =>
              fft_window_size pd' = fft_window_size pd /\
              num_windows_processed pd' = num_windows_processed pd /\
              input_ring_buffers pd' = input_ring_buffers pd));
    [|exact H1].
  intros pd' channel (H2 & H3 & H4).
  pose proof (spectral_channel_frame p pd' channel) as (H5 & H6 & H7).
  repeat split; congruence.
Qed.

(** The driver itself touches the ring buffers, the window count and the
    host's buffer only: whatever the stage preserves of the compressors,
    of the accumulators or of the window size, a block preserves. *)
Lemma copy_in_out_frame p offset n pd b :
  let pd' := fst (copy_in_out p offset n (pd, b)) in
  fft_window_size pd' = fft_window_size pd /\
  num_windows_processed pd' = num_windows_processed pd /\
  spectral_compressors pd' = spectral_compressors pd /\
  spectral_compressor_sidechain_thresholds pd'
  = spectral_compressor_sidechain_thresholds pd.
Proof.
  cbv zeta. rewrite copy_in_out_stretch. unfold stretch_result. fields.
  repeat split.
Qed.

Lemma do_stft_keeps {A} (f : ProcessData -> A) process_fn p b pd :
  (forall pd pd',
     fft_window_size pd' = fft_window_size pd ->
     spectral_compressors pd' = spectral_compressors pd ->
     spectral_compressor_sidechain_thresholds pd'
     = spectral_compressor_sidechain_thresholds pd ->
     f pd' = f pd) ->
  (forall pd n, f (process_fn pd n) = f pd) ->
  f (fst (fst (do_stft process_fn p b pd))) = f pd.
Proof.
  intros Hf Hstage. unfold do_stft.
  set (first := if (0 <? _)%N then _ else _).
  assert (H1 : f (fst (fst first)) = f pd).
  { subst first. destruct (0 <? _)%N; [|reflexivity]. cbn [fst].
    pose proof (copy_in_out_frame p 0
                  (already_processed_samples (getNumSamples b)
                     (from_option pos 0%N (input_ring_buffers pd !! 0%nat))
                     (windowing_interval (fft_window_size pd)
                        (windowing_overlap_times p)))
                  pd
                  (foldl (fun b0 channel => clear b0 channel 0 (getNumSamples b)) b
                     (seq (getMainBusNumInputChannels p)
                        (getMainBusNumOutputChannels p
                         - getMainBusNumInputChannels p))))
      as (G1 & G2 & G3 & G4).
    apply Hf; assumption. }
  destruct first as [st off]. cbn [fst] in H1.
  pose proof (window_loop_invariant (fun st => f (fst st) = f pd)
                (process_window process_fn p)
                (Z.to_nat
                   (windows_to_process
                      (samples_to_be_processed (getNumSamples b)
                         (already_processed_samples (getNumSamples b)
                            (from_option pos 0%N (input_ring_buffers pd !! 0%nat))
                            (windowing_interval (fft_window_size pd)
                               (windowing_overlap_times p))))
                      (windowing_interval (fft_window_size pd)
                         (windowing_overlap_times p))))
                (windowing_interval (fft_window_size pd)
                   (windowing_overlap_times p))
                (getNumSamples b)) as Hloop.
  cbv beta in Hloop.
  specialize (Hloop ltac:(
    intros off' n [pd' b'] Hst; cbn [fst] in Hst; unfold process_window;
    destruct (copy_in_out_frame p off' n
                (with_num_windows_processed
                   (process_fn pd' (getMainBusNumInputChannels p))
                   (num_windows_processed
                      (process_fn pd' (getMainBusNumInputChannels p)) + 1)) b')
      as (G1 & G2 & G3 & G4);
    rewrite (Hf _ _ G1 G3 G4); fields;
    rewrite <- Hst, <- (Hstage pd' (getMainBusNumInputChannels p));
    apply Hf; reflexivity) off st H1).
  destruct (window_loop _ _ _ _ _ _) as [[pd' b'] off'].
  exact Hloop.
Qed.

(** What a stretch writes to a main channel of the host's buffer. *)
Lemma copy_in_out_output p offset n pd b c ch :
  (c < getMainBusNumInputChannels p)%nat ->
  channels b !! c = Some ch ->
  channels (snd (copy_in_out p offset n (pd, b))) !! c
  = Some (if output_gate p pd
          then match output_ring_buffers pd !! c with
               | Some rb => splice ch offset (fst (copy_n_to rb (N.to_nat n) true))
               | None => ch
               end
          else splice ch offset (replicate (N.to_nat n) f_zero)).
Proof.
  intros Hc Hch. rewrite copy_in_out_stretch. unfold stretch_result. fields.
  unfold stretch_channels. rewrite list_lookup_imap, Hch. cbn.
  case_decide; [reflexivity|lia].
Qed.

Lemma rebuild_aligned p pd :
  (0 < getMainBusNumInputChannels p)%nat ->
  (0 < windowing_interval (2 ^ fft_order p) (windowing_overlap_times p))%N ->
  aligned (2 ^ fft_order p)
    (windowing_interval (2 ^ fft_order p) (windowing_overlap_times p)) 0
    (rebuild p pd).
Proof.
  intros Hch Hhop. unfold aligned, rebuild. fields.
  split; [reflexivity|]. split; [symmetry; apply ceil_div_0; assumption|].
  exists (resize (2 ^ fft_order p)). split.
  - apply lookup_replicate_2. assumption.
  - unfold resize, ring_size. cbn [buffer current_pos].
    rewrite length_replicate, N2Nat.id, N.Div0.mod_0_l. auto.
Qed.

(** X16. While fewer than [windowing_overlap_times] windows have been
    processed, a stretch of samples copied to the host is zeroed instead
    of read from the output ring buffer. The count is raised before the
    samples of a window are copied, so the gate covers the first
    [windowing_overlap_times - 1] windows: from a rebuilt working set,
    for any stage that leaves the window size, the window count and the
    input ring buffers alone, and however the host cuts the stream into
    blocks, the first
    [(windowing_overlap_times - 1) * windowing_interval] output samples
    are silence. *)
Theorem silence_until_enough_windows process_fn p pd0 blocks :
  stage_keeps_input process_fn ->
  (0 < getMainBusNumInputChannels p)%nat ->
  Forall (buffer_ok p) blocks ->
  (0 < windowing_interval (2 ^ fft_order p) (windowing_overlap_times p))%N ->
  (2 ^ fft_order p < 2 ^ 24)%N ->
  (forall pd b offset n c ch,
     (c < getMainBusNumInputChannels p)%nat ->
     channels b !! c = Some ch ->
     (num_windows_processed pd < windowing_overlap_times p)%N ->
     channels (snd (copy_in_out p offset n (pd, b))) !! c
     = Some (splice ch offset (replicate (N.to_nat n) f_zero))) /\
  (forall c i x,
     (c < getMainBusNumInputChannels p)%nat ->
     output_stream c (snd (run_blocks process_fn p (rebuild p pd0) blocks)) !! i
     = Some x ->
     (N.of_nat i
      < (windowing_overlap_times p - 1)
        * windowing_interval (2 ^ fft_order p) (windowing_overlap_times p))%N ->
     x = f_zero).
Proof.
  intros Hstage Hch Hoks Hhop HW. split.
  - intros pd b offset n c ch Hc Hcch Hnum.
    rewrite (copy_in_out_output p offset n pd b c ch Hc Hcch).
    unfold output_gate. apply N.leb_gt in Hnum. rewrite Hnum. reflexivity.
  - intros c i x Hc Hi HL.
    apply (run_blocks_silent process_fn p (2 ^ fft_order p) Hstage Hhop HW
             blocks 0%N (rebuild p pd0) Hoks (rebuild_aligned p pd0 Hch Hhop)
             c i x Hc Hi).
    rewrite N.add_0_l. assumption.
Qed.

(** ** The counts of a block and [do_stft]

    The offset [do_stft] ends with, and the number of windows it hands to
    the stage, are those of [block_counts]. *)
Lemma window_loop_snd {St St'} (body : N -> N -> St -> St)
    (body' : N -> N -> St' -> St') (k : nat) (hop num_samples : N) :
  forall off st st',
    snd (window_loop body k hop num_samples off st)
    = snd (window_loop body' k hop num_samples off st').
Proof.
  induction k as [|k IH]; intros off st st'; cbn [window_loop].
  - reflexivity.
  - apply IH.
Qed.

Lemma do_stft_offset process_fn p b pd :
  snd (do_stft process_fn p b pd)
  = final_offset
      (block_counts (getNumSamples b)
         (from_option pos 0%N (input_ring_buffers pd !! 0%nat))
         (windowing_interval (fft_window_size pd) (windowing_overlap_times p))).
Proof.
  unfold do_stft, block_counts.
  set (hop := windowing_interval _ _).
  set (already := already_processed_samples _ _ _).
  set (k := Z.to_nat _).
  set (b1 := foldl _ b _).
  assert (Hfirst : exists st,
            (if (0 <? already)%N then (copy_in_out p 0 already (pd, b1), already)
             else ((pd, b1), 0%N)) = (st, already)).
  { destruct (N.ltb_spec 0 already) as [Hpos|Hzero].
    - eexists. reflexivity.
    - exists (pd, b1). f_equal. lia. }
  destruct Hfirst as [st ->].
  pose proof (window_loop_snd (process_window process_fn p)
                (fun (_ n : N) '(calls, moved) => ((calls + 1)%N, (moved + n)%N))
                k hop (getNumSamples b) already st (0%N, 0%N)) as Hsnd.
  destruct (window_loop (process_window process_fn p) _ _ _ _ _)
    as [[pd' b'] off].
  destruct (window_loop _ _ _ _ _ (0%N, 0%N)) as [[calls moved] off'].
  cbn [snd final_offset] in *. assumption.
Qed.

Lemma window_loop_windows process_fn p hop num_samples :
  (forall pd n,
     num_windows_processed (process_fn pd n) = num_windows_processed pd) ->
  forall k off pd b,
    num_windows_processed
      (fst (fst (window_loop (process_window process_fn p) k hop num_samples
                   off (pd, b))))
    = (num_windows_processed pd + N.of_nat k)%N.
Proof.
  intros Hstage. induction k as [|k IH]; intros off pd b; cbn [window_loop fst].
  - lia.
  - set (n := samples_to_process_this_iteration hop num_samples off).
    destruct (process_window process_fn p off n (pd, b)) as [pd1 b1] eqn:Hbody.
    rewrite IH.
    assert (Hnum : num_windows_processed pd1 = (num_windows_processed pd + 1)%N).
    { unfold process_window in Hbody.
      match type of Hbody with
      | copy_in_out p off n (?pd0, b) = _ =>
          destruct (copy_in_out_frame p off n pd0 b) as (_ & H & _)
      end.
      rewrite Hbody in H. cbn [fst] in H. rewrite H. fields.
      rewrite Hstage. reflexivity. }
    lia.
Qed.

(** One turn of the window loop written out, on the working set, the
    host buffer and the offset into it: one call of the stage, one more
    window counted, then the next [windowing_interval] samples, or what is
    left of the block, copied in and out. *)
Definition one_window (process_fn : ProcessData -> nat -> ProcessData)
    (p : Processor) (hop num_samples : N)
    (r : ProcessData * AudioBuffer * N) : ProcessData * AudioBuffer * N :=
  let '(pd, b, sample_buffer_offset) := r in
  let pd := process_fn pd (getMainBusNumInputChannels p) in
  let pd := with_num_windows_processed pd (num_windows_processed pd + 1) in
  let n := N.min hop (num_samples - sample_buffer_offset) in
  (copy_in_out p sample_buffer_offset n (pd, b), (sample_buffer_offset + n)%N).

(** The start of a block: the output channels without an input are
    zeroed, and the samples up to the next window, if any, are copied in
    and out. *)
Definition first_stretch_of (p : Processor) (b : AudioBuffer) (pd : ProcessData)
    (already : N) : ProcessData * AudioBuffer * N :=
  let num_samples := getNumSamples b in
  let cleared :=
    foldl (fun b channel => clear b channel 0 num_samples) b
      (seq (getMainBusNumInputChannels p)
         (getMainBusNumOutputChannels p - getMainBusNumInputChannels p)) in
  if (0 <? already)%N then (copy_in_out p 0 already (pd, cleared), already)
  else ((pd, cleared), 0%N).

Lemma window_loop_one_window process_fn p hop num_samples :
  forall k off st,
    window_loop (process_window process_fn p) k hop num_samples off st
    = Nat.iter k (one_window process_fn p hop num_samples) (st, off).
Proof.
  induction k as [|k IH]; intros off st.
  - reflexivity.
  - rewrite Nat.iter_succ_r. cbn [window_loop]. rewrite IH.
    destruct st as [pd b]. reflexivity.
Qed.

(** X1. A block of fewer than [2^24] samples, with a hop below [2^24],
    and any stage: after the first stretch [do_stft] does exactly
    [ceil ((num_samples - already) / hop)] turns of [one_window], each
    with one call of the stage, the exact ceiling of the remaining samples
    over the hop, and ends with [sample_buffer_offset] at the number of
    samples, as its closing assertion says. When the stage leaves the
    window count alone, the count has grown by that number of windows. *)
Theorem do_stft_counts_exact process_fn p b pd :
  (getNumSamples b < 2 ^ 24)%N ->
  (0 < windowing_interval (fft_window_size pd) (windowing_overlap_times p)
   < 2 ^ 24)%N ->
  let hop := windowing_interval (fft_window_size pd) (windowing_overlap_times p) in
  let position := from_option pos 0%N (input_ring_buffers pd !! 0%nat) in
  let already := N.min (getNumSamples b) ((hop - position mod hop) mod hop) in
  let windows := ceil_div (getNumSamples b - already) hop in
  do_stft process_fn p b pd
  = Nat.iter (N.to_nat windows) (one_window process_fn p hop (getNumSamples b))
      (first_stretch_of p b pd already) /\
  snd (do_stft process_fn p b pd) = getNumSamples b /\
  ((forall pd n,
      num_windows_processed (process_fn pd n) = num_windows_processed pd) ->
   num_windows_processed (fst (fst (do_stft process_fn p b pd)))
   = (num_windows_processed pd + windows)%N).
Proof.
  intros Hsmall Hhop. cbv zeta.
  set (hop := windowing_interval _ _) in *.
  set (position := from_option pos 0%N _).
  set (already := N.min _ _).
  assert (Hal : (already <= getNumSamples b)%N) by apply N.le_min_l.
  split; [|split].
  - unfold do_stft. fold hop. fold position.
    unfold already_processed_samples, samples_to_be_processed. fold already.
    clearbody already.
    rewrite windows_to_process_exact by lia.
    rewrite to_nat_of_N.
    fold (first_stretch_of p b pd already).
    destruct (first_stretch_of p b pd already) as [st off].
    rewrite window_loop_one_window.
    destruct (Nat.iter _ _ _) as [[pd' b'] off']. reflexivity.
  - rewrite do_stft_offset.
    apply (block_counts_exact (getNumSamples b) position hop Hsmall Hhop).
  - intros Hstage.
    unfold do_stft. fold hop. fold position.
    unfold already_processed_samples, samples_to_be_processed. fold already.
    clearbody already.
    rewrite windows_to_process_exact by lia.
    rewrite to_nat_of_N.
    set (b1 := foldl _ b _).
    set (first := if (0 <? already)%N then _ else _).
    assert (Hfirst : num_windows_processed (fst (fst first))
                     = num_windows_processed pd).
    { subst first. destruct (0 <? already)%N; [|reflexivity]. cbn [fst].
      apply copy_in_out_frame. }
    destruct first as [[pd1 b2] off]. cbn [fst] in Hfirst.
    pose proof (window_loop_windows process_fn p hop (getNumSamples b) Hstage
                  (N.to_nat (ceil_div (getNumSamples b - already) hop))
                  off pd1 b2) as Hloop.
    destruct (window_loop _ _ _ _ _ _) as [[pd' b'] off'].
    cbn [fst] in *. rewrite Hloop, Hfirst, N2Nat.id. reflexivity.
Qed.

(** C1, at a block of [2^24 + 1] samples. With a window of 512 samples
    and an overlap of 64 the hop is 8; the ring buffer stands at a window
    boundary. The number of windows is the single-precision ceiling of
    [16777217 / 8]: the sample count is rounded to [16777216.0f] first,
    so the stage runs 2097152 times where the exact ceiling is 2097153,
    the loop moves 16777216 samples, and [do_stft] ends with an offset one
    short of the number of samples (what its final assertion rules out). *)
Theorem block_counts_beyond_single_precision :
  let c := block_counts 16777217 0 (windowing_interval 512 64) in
  windowing_interval 512 64 = 8%N /\
  first_stretch c = 0%N /\
  stage_calls c = 2097152%N /\
  ceil_div (16777217 - first_stretch c) 8 = 2097153%N /\
  loop_samples c = 16777216%N /\
  final_offset c = 16777216%N /\
  final_offset c <> 16777217%N.
Proof.
  cbv zeta. change (windowing_interval 512 64) with 8%N.
  unfold block_counts.
  change (already_processed_samples 16777217 0 8) with 0%N.
  assert (Hwindows : windows_to_process (samples_to_be_processed 16777217 0) 8
                     = 2097152%Z) by (vm_compute; reflexivity).
  rewrite Hwindows.
  assert (Hk : N.of_nat (Z.to_nat 2097152) = 2097152%N) by lia.
  revert Hk. generalize (Z.to_nat 2097152) as k. intros k Hk.
  pose proof (window_loop_counting k 8 16777217 0 0 0) as Hcount.
  pose proof (window_loop_whole_hops
                (fun (_ n : N) '(calls, moved) => (calls + 1, moved + n)%N)
                8 16777217 k 0 (0, 0)%N ltac:(lia)) as Hoff.
  destruct (window_loop _ _ _ _ _ _) as [[calls moved] offset].
  cbn [fst snd] in Hcount, Hoff. injection Hcount as -> ->. subst offset.
  cbn [first_stretch stage_calls loop_samples final_offset].
  rewrite Hk. repeat split; try reflexivity. discriminate.
Qed.

(** ** The settings of the compressors

    The ballistics of a compressor are its ratio, its attack and release
    times and the sample rate it was prepared for. Processing a sample
    moves the envelope only. *)
Definition ballistics (c : Compressor) : F * F * F * spec_float :=
  (ratio c, attackTime c, releaseTime c, sampleRate c).

Definition settings (c : Compressor) : F * (F * F * F * spec_float) :=
  (thresholddB c, ballistics c).

Lemma fmap_alter_same {A B} (g : A -> B) (f : A -> A) (i : nat) (l : list A) :
  (forall x, g (f x) = g x) -> g <$> alter f i l = g <$> l.
Proof.
  intros H. apply list_eq. intros j. rewrite !list_lookup_fmap.
  destruct (decide (i = j)) as [->|Hne].
  - rewrite list_lookup_alter_eq. destruct (l !! j); cbn; rewrite ?H; reflexivity.
  - rewrite list_lookup_alter_ne by assumption. reflexivity.
Qed.

Lemma fmap_insert_same {A B} (g : A -> B) (i : nat) (l : list A) (x y : A) :
  l !! i = Some x -> g y = g x -> g <$> <[i := y]> l = g <$> l.
Proof.
  intros Hi Hg. rewrite list_fmap_insert, Hg.
  apply list_insert_id. rewrite list_lookup_fmap, Hi. reflexivity.
Qed.

Lemma processSample_settings c channel x :
  settings (fst (processSample c channel x)) = settings c.
Proof.
  unfold processSample. destruct (compressor_process _ _ _ _ _ _ _ _).
  reflexivity.
Qed.

Lemma compress_bins_settings channel cs scratch :
  settings <$> fst (compress_bins channel cs scratch) = settings <$> cs.
Proof.
  unfold compress_bins.
  apply (foldl_invariant (fun st => settings <$> fst st = settings <$> cs));
    [|reflexivity].
  intros [cs' scratch'] idx H. cbn [fst] in H. unfold compress_bin.
  destruct (cs' !! idx) as [c|] eqn:Hc; [|exact H].
  pose proof (processSample_settings c channel
                (bin_magnitude scratch' (idx + 1))) as Hs.
  destruct (processSample c channel _) as [c' y]. cbn [fst] in *.
  rewrite (fmap_insert_same settings idx cs' c c' Hc Hs). exact H.
Qed.

Lemma spectral_channel_settings p pd channel :
  settings <$> spectral_compressors (spectral_channel p pd channel)
  = settings <$> spectral_compressors pd.
Proof.
  unfold spectral_channel, apply_window, fft_forward, fft_inverse. fields.
  match goal with
  | |- context [compress_bins ?ch ?cs ?scratch] =>
      pose proof (compress_bins_settings ch cs scratch) as H;
      destruct (compress_bins ch cs scratch) as [cs' scratch']
  end.
  fields. exact H.
Qed.

Lemma sidechain_channel_compressors pd channel :
  spectral_compressors (sidechain_channel pd channel) = spectral_compressors pd.
Proof. reflexivity. Qed.

Lemma sidechain_thresholds_ballistics pd n :
  ballistics <$> spectral_compressors (sidechain_thresholds pd n)
  = ballistics <$> spectral_compressors pd.
Proof.
  unfold sidechain_thresholds.
  set (pd1 := foldl sidechain_channel pd (seq 0 n)).
  assert (H1 : spectral_compressors pd1 = spectral_compressors pd).
  { subst pd1.
    apply (foldl_invariant
             (fun pd' => spectral_compressors pd' = spectral_compressors pd));
      [|reflexivity].
    intros pd' channel H. rewrite sidechain_channel_compressors. exact H. }
  assert (H2 : ballistics <$>
                 fst (foldl (set_sidechain_threshold n)
                        (spectral_compressors pd1,
                         spectral_compressor_sidechain_thresholds pd1)
                        (seq 0 (length (spectral_compressors pd1))))
               = ballistics <$> spectral_compressors pd1).
  { apply (foldl_invariant
             (fun st => ballistics <$> fst st
                        = ballistics <$> spectral_compressors pd1));
      [|reflexivity].
    intros [cs thresholds] idx H. cbn [fst set_sidechain_threshold] in *.
    rewrite fmap_alter_same by reflexivity. exact H. }
  destruct (foldl (set_sidechain_threshold n) _ _) as [cs thresholds].
  fields. rewrite H2, H1. reflexivity.
Qed.

Lemma settings_ballistics (cs cs' : list Compressor) :
  settings <$> cs' = settings <$> cs -> ballistics <$> cs' = ballistics <$> cs.
Proof.
  intros H.
  change ballistics with (snd ∘ settings).
  rewrite !(list_fmap_compose settings snd). rewrite H. reflexivity.
Qed.

Lemma settings_thresholds (cs cs' : list Compressor) :
  settings <$> cs' = settings <$> cs -> thresholddB <$> cs' = thresholddB <$> cs.
Proof.
  intros H.
  change thresholddB with (fst ∘ settings).
  rewrite !(list_fmap_compose settings fst). rewrite H. reflexivity.
Qed.

Lemma spectral_channels_settings p n pd :
  settings <$> spectral_compressors (foldl (spectral_channel p) pd (seq 0 n))
  = settings <$> spectral_compressors pd.
Proof.
  apply (foldl_invariant
           (fun pd' => settings <$> spectral_compressors pd'
                       = settings <$> spectral_compressors pd));
    [|reflexivity].
  intros pd' channel H. rewrite spectral_channel_settings. exact H.
Qed.

(** The stage of [processBlock] keeps the ballistics of every compressor,
    and its threshold too unless the sidechain sets it. *)
Lemma spectral_stage_ballistics p pd n :
  ballistics <$> spectral_compressors (spectral_stage p pd n)
  = ballistics <$> spectral_compressors pd.
Proof.
  unfold spectral_stage.
  rewrite (settings_ballistics _ _ (spectral_channels_settings p n _)).
  destruct (sidechain_active p); [apply sidechain_thresholds_ballistics|reflexivity].
Qed.

Lemma spectral_stage_thresholds p pd n :
  sidechain_active p = false ->
  thresholddB <$> spectral_compressors (spectral_stage p pd n)
  = thresholddB <$> spectral_compressors pd.
Proof.
  intros Hside. unfold spectral_stage. rewrite Hside.
  apply settings_thresholds, spectral_channels_settings.
Qed.

(** ** The settings flag and the two callbacks *)

Lemma do_stft_settings {A} (g : Compressor -> A) process_fn p b pd :
  (forall pd n,
     g <$> spectral_compressors (process_fn pd n) = g <$> spectral_compressors pd) ->
  g <$> spectral_compressors (fst (fst (do_stft process_fn p b pd)))
  = g <$> spectral_compressors pd.
Proof.
  intros Hstage.
  apply (do_stft_keeps (fun pd => g <$> spectral_compressors pd));
    [|exact Hstage].
  intros pd1 pd2 _ H _. cbv beta. rewrite H. reflexivity.
Qed.

(** The ballistics [update_compressors] gives every compressor. *)
Definition configured_ballistics (p : Processor) (pd : ProcessData)
    : F * F * F * spec_float :=
  (compressor_ratio p, compressor_attack_ms p, compressor_release_ms p,
   effective_sample_rate (getSampleRate p) (fft_window_size pd)
     (windowing_overlap_times p)).

Lemma update_compressors_ballistics p pd :
  ballistics <$> spectral_compressors (snd (update_compressors p pd))
  = (fun _ => configured_ballistics p pd) <$> spectral_compressors pd.
Proof.
  unfold update_compressors. fields.
  destruct (sidechain_active p).
  - rewrite <- list_fmap_compose. reflexivity.
  - apply list_eq. intros i.
    rewrite !list_lookup_fmap, list_lookup_imap, list_lookup_fmap.
    destruct (spectral_compressors pd !! i); reflexivity.
Qed.



Lemma update_compressors_thresholds p pd :
  sidechain_active p = false ->
  thresholddB <$> spectral_compressors (snd (update_compressors p pd))
  = pink_noise_threshold (getSampleRate p) (fft_window_size pd)
      <$> seq 0 (length (spectral_compressors pd)).
Proof.
  intros Hside. unfold update_compressors. rewrite Hside. fields.
  apply list_eq. intros i.
  rewrite !list_lookup_fmap, list_lookup_imap, list_lookup_fmap.
  destruct (spectral_compressors pd !! i) as [c|] eqn:Hc; cbn.
  - rewrite lookup_seq_lt by (eapply lookup_lt_Some, Hc). reflexivity.
  - rewrite lookup_seq_ge by (apply lookup_ge_None; assumption). reflexivity.
Qed.

(** A block processed with the flag set: the flag is cleared and the
    working set is processed with the compressors [update_compressors]
    has configured. *)
Lemma processBlock_flag_set p b :
  compressor_settings_changed p = true ->
  let pd := active (get (process_data p)) in
  let p' := fst (processBlock p b) in
  let pd' := active (process_data p') in
  compressor_settings_changed p' = false /\
  makeup_gain p' = computed_makeup_gain p /\
  ballistics <$> spectral_compressors pd'
  = (fun _ => configured_ballistics p pd) <$> spectral_compressors pd /\
  (sidechain_active p = false ->
   thresholddB <$> spectral_compressors pd'
   = pink_noise_threshold (getSampleRate p) (fft_window_size pd)
       <$> seq 0 (length (spectral_compressors pd))).
Proof.
  intros Hflag. cbv zeta. unfold processBlock. rewrite Hflag.
  set (q := with_compressor_settings_changed p false).
  pose proof (update_compressors_ballistics q (active (get (process_data p))))
    as Hb.
  pose proof (update_compressors_thresholds q (active (get (process_data p))))
    as Ht.
  destruct (update_compressors q (active (get (process_data p)))) as [p1 pd1]
    eqn:Hup.
  assert (Hp1 : p1 = with_makeup_gain q (computed_makeup_gain q)).
  { unfold update_compressors in Hup. congruence. }
  pose proof (do_stft_settings ballistics (spectral_stage p1) p1 b pd1
                (spectral_stage_ballistics p1)) as Hkb.
  pose proof (fun Hs => do_stft_settings thresholddB (spectral_stage p1) p1 b pd1
                          (fun pd n => spectral_stage_thresholds p1 pd n Hs))
    as Hkt.
  destruct (do_stft (spectral_stage p1) p1 b pd1) as [[pd2 b2] off].
  cbn [fst snd] in *. subst p1. cbn.
  split; [reflexivity|]. split; [reflexivity|]. split.
  - rewrite Hkb. exact Hb.
  - intros Hside. rewrite (Hkt Hside). exact (Ht Hside).
Qed.


(** A block processed with the flag clear: [update_compressors] does not
    run; ballistics and makeup gain stay, and so do the thresholds unless
    the sidechain sets them. *)
Lemma processBlock_flag_clear p b :
  compressor_settings_changed p = false ->
  let pd := active (get (process_data p)) in
  let p' := fst (processBlock p b) in
  let pd' := active (process_data p') in
  compressor_settings_changed p' = false /\
  makeup_gain p' = makeup_gain p /\
  ballistics <$> spectral_compressors pd' = ballistics <$> spectral_compressors pd /\
  (sidechain_active p = false ->
   thresholddB <$> spectral_compressors pd'
   = thresholddB <$> spectral_compressors pd).
Proof.
  intros Hflag. cbv zeta. unfold processBlock. rewrite Hflag.
  pose proof (do_stft_settings ballistics (spectral_stage p) p b
                (active (get (process_data p)))
                (spectral_stage_ballistics p)) as Hkb.
  pose proof (fun Hs => do_stft_settings thresholddB (spectral_stage p) p b
                          (active (get (process_data p)))
                          (fun pd n => spectral_stage_thresholds p pd n Hs))
    as Hkt.
  destruct (do_stft (spectral_stage p) p b _) as [[pd2 b2] off].
  cbn [fst snd] in *. cbn.
  split; [assumption|]. split; [reflexivity|]. split; assumption.
Qed.

(** The bypassed callback touches neither the flag nor the makeup gain,
    and leaves the compressors of the working set it runs on as they are. *)
Lemma processBlockBypassed_frame p b :
  let p' := fst (processBlockBypassed p b) in
  compressor_settings_changed p' = compressor_settings_changed p /\
  makeup_gain p' = makeup_gain p /\
  spectral_compressors (active (process_data p'))
  = spectral_compressors (active (get (process_data p))) /\
  swap_pending (process_data p') = false /\
  inactive (process_data p') = inactive (get (process_data p)).
Proof.
  cbv zeta. unfold processBlockBypassed.
  pose proof (do_stft_keeps spectral_compressors (bypass_stage p) p b
                (active (get (process_data p)))
                ltac:(intros ? ? _ H _; exact H)
                ltac:(intros pd n; apply bypass_stage_frame)) as Hk.
  destruct (do_stft (bypass_stage p) p b _) as [[pd2 b2] off].
  cbn [fst snd] in *. cbn.
  split; [reflexivity|]. split; [reflexivity|]. split; [assumption|].
  unfold get. destruct (swap_pending (process_data p)) eqn:Hs; cbn; auto.
Qed.

(** A run of bypassed blocks. *)
Definition bypass_blocks (p : Processor) (blocks : list AudioBuffer) : Processor :=
  foldl (fun p b => fst (processBlockBypassed p b)) p blocks.

Lemma bypass_blocks_frame blocks : forall p,
  let p' := bypass_blocks p blocks in
  compressor_settings_changed p' = compressor_settings_changed p /\
  makeup_gain p' = makeup_gain p /\
  spectral_compressors (active (get (process_data p')))
  = spectral_compressors (active (get (process_data p))).
Proof.
  induction blocks as [|b blocks IH]; intros p; cbn [bypass_blocks foldl].
  - auto.
  - destruct (processBlockBypassed_frame p b) as (H1 & H2 & H3 & H4 & H5).
    destruct (IH (fst (processBlockBypassed p b))) as (G1 & G2 & G3).
    cbv zeta in *. unfold bypass_blocks in *.
    rewrite G1, G2, G3, H1, H2, <- H3.
    split; [reflexivity|]. split; [reflexivity|].
    unfold get at 1. rewrite H4. reflexivity.
Qed.

(** C10. Bypassed blocks neither read nor clear the settings flag and
    never run [update_compressors]: after any run of them the flag, the
    makeup gain and every compressor of the working set (threshold,
    ballistics, envelope) are what they were. A settings change that
    arrives before or between bypassed blocks leaves the flag set all the
    while, and the next [processBlock] clears it and processes the block
    with the makeup gain and the ballistics [update_compressors] derives
    from the parameters. *)
Theorem bypass_keeps_compressor_settings p blocks b :
  let q := bypass_blocks p blocks in
  compressor_settings_changed q = compressor_settings_changed p /\
  makeup_gain q = makeup_gain p /\
  spectral_compressors (active (get (process_data q)))
  = spectral_compressors (active (get (process_data p))) /\
  let q' := bypass_blocks (compressor_settings_listener p) blocks in
  compressor_settings_changed q' = true /\
  spectral_compressors (active (get (process_data q')))
  = spectral_compressors (active (get (process_data p))) /\
  let r := fst (processBlock q' b) in
  compressor_settings_changed r = false /\
  makeup_gain r = computed_makeup_gain q' /\
  ballistics <$> spectral_compressors (active (process_data r))
  = (fun _ => configured_ballistics q' (active (get (process_data q'))))
      <$> spectral_compressors (active (get (process_data p))).
Proof.
  cbv zeta.
  destruct (bypass_blocks_frame blocks p) as (H1 & H2 & H3).
  destruct (bypass_blocks_frame blocks (compressor_settings_listener p))
    as (G1 & G2 & G3).
  cbv zeta in *. cbn [compressor_settings_listener with_compressor_settings_changed
                      compressor_settings_changed makeup_gain process_data] in *.
  destruct (processBlock_flag_set _ b G1) as (K1 & K2 & K3 & _).
  cbv zeta in *. rewrite K3, G3.
  repeat split; assumption.
Qed.

(** ** The compression of one spectrum *)







Lemma length_vector_resize {A} (x : A) (n : nat) (v : list A) :
  length (vector_resize x n v) = n.
Proof.
  unfold vector_resize. rewrite length_app, length_take, length_replicate. lia.
Qed.


(** ** The thresholds from the sidechain *)

(** The spectrum of the sidechain signal of [channel] for the window at
    hand, in the words of the spec: the forward transform, for the
    magnitudes only, of the newest [fft_window_size] samples of the
    channel's sidechain ring buffer, oldest first. The transform works in
    the scratch buffer, where the samples are put first; behind them it
    finds what the channel before has left. The magnitude of bin [S k]
    belongs to the compressor [k]. *)
Fixpoint sidechain_spectrum (pd : ProcessData) (channel : nat) : list F :=
  let scratch :=
    match channel with
    | O => fft_scratch_buffer pd
    | S before => sidechain_spectrum pd before
    end in
  performRealOnlyForwardTransform (default 0%N (fft pd)) true
    (store scratch
       (copy_last_n_to (ring_at (sidechain_ring_buffers pd) channel)
          (fft_window_size pd))).

Definition sidechain_magnitude (pd : ProcessData) (k channel : nat) : F :=
  bin_magnitude (sidechain_spectrum pd channel) (S k).

Lemma imap_imap {A} (f g : nat -> A -> A) (l : list A) :
  imap f (imap g l) = imap (fun i x => f i (g i x)) l.
Proof.
  apply list_eq. intros i. rewrite !list_lookup_imap.
  destruct (l !! i); reflexivity.
Qed.

Lemma accumulate_all scratch len : forall acc,
  foldl (accumulate_magnitude scratch) acc (seq 0 len)
  = imap (fun k t => if decide (k < len)%nat
                     then f_add t (bin_magnitude scratch (S k)) else t) acc.
Proof.
  induction len as [|len IH]; intros acc.
  - cbn [seq foldl]. symmetry. apply imap_nothing.
    intros i x. case_decide; [lia|reflexivity].
  - rewrite foldl_seq_S, IH. unfold accumulate_magnitude.
    replace (len + 1)%nat with (S len) by lia.
    apply (alter_imap_next
             (fun t => f_add t (bin_magnitude scratch (S len)))
             (fun k t => f_add t (bin_magnitude scratch (S k)))).
    reflexivity.
Qed.

(** The first loop of the sidechain stage leaves the spectrum of the
    channel it has come to in the scratch buffer, and the ring buffers,
    the window size and the FFT as they were. *)
Lemma sidechain_channels_spectrum pd n :
  let pd1 := foldl sidechain_channel pd (seq 0 n) in
  fft pd1 = fft pd /\
  fft_window_size pd1 = fft_window_size pd /\
  sidechain_ring_buffers pd1 = sidechain_ring_buffers pd /\
  fft_scratch_buffer pd1
  = match n with
    | O => fft_scratch_buffer pd
    | S channel => sidechain_spectrum pd channel
    end.
Proof.
  cbv zeta. induction n as [|n (IH1 & IH2 & IH3 & IH4)].
  - repeat split.
  - rewrite foldl_seq_S.
    set (pd1 := foldl sidechain_channel pd (seq 0 n)) in *.
    unfold sidechain_channel, fft_forward. fields.
    rewrite IH1, IH2, IH3, IH4. repeat split.
    destruct n; reflexivity.
Qed.

(** The first loop of the sidechain stage: every accumulator has taken
    the magnitudes of its bin, channel after channel. *)
Lemma accumulate_channels pd n :
  let pd1 := foldl sidechain_channel pd (seq 0 n) in
  spectral_compressors pd1 = spectral_compressors pd /\
  spectral_compressor_sidechain_thresholds pd1
  = imap (fun k t =>
            if decide (k < length (spectral_compressors pd))%nat
            then foldl f_add t (map (sidechain_magnitude pd k) (seq 0 n))
            else t)
      (spectral_compressor_sidechain_thresholds pd).
Proof.
  cbv zeta. induction n as [|n [IH1 IH2]].
  - cbn [seq foldl map]. split; [reflexivity|].
    symmetry. apply imap_nothing. intros i x. case_decide; reflexivity.
  - rewrite foldl_seq_S.
    assert (Hs : fft_scratch_buffer
                   (sidechain_channel (foldl sidechain_channel pd (seq 0 n)) n)
                 = sidechain_spectrum pd n).
    { destruct (sidechain_channels_spectrum pd (S n)) as (_ & _ & _ & Hs).
      rewrite foldl_seq_S in Hs. exact Hs. }
    set (pd1 := foldl sidechain_channel pd (seq 0 n)) in *.
    split; [rewrite sidechain_channel_compressors; assumption|].
    unfold sidechain_channel, fft_forward in Hs |- *. fields.
    rewrite Hs, IH1, IH2, accumulate_all, imap_imap.
    apply imap_ext. intros k t _. cbv beta.
    case_decide; [|reflexivity].
    rewrite seq_S, map_app, foldl_app. reflexivity.
Qed.

(** The second loop: the compressors get the accumulated value divided by
    the number of channels, and the accumulators are zeroed. *)
Lemma set_thresholds_prefix n cs acc :
  (length cs <= length acc)%nat ->
  forall k,
    foldl (set_sidechain_threshold n) (cs, acc) (seq 0 k)
    = (imap (fun i c =>
               if decide (i < k)%nat
               then setThreshold c
                      (f_div (default f_zero (acc !! i)) (f_of_Z (Z.of_nat n)))
               else c) cs,
       imap (fun i t => if decide (i < k)%nat then f_zero else t) acc).
Proof.
  intros Hlen. induction k as [|k IH].
  - cbn [seq foldl]. f_equal; symmetry; apply imap_nothing;
      intros i x; case_decide; (lia || reflexivity).
  - rewrite foldl_seq_S, IH. unfold set_sidechain_threshold. f_equal.
    + rewrite list_lookup_imap.
      apply (alter_imap_next
               (fun c => setThreshold c
                           (f_div (default f_zero
                                     ((fun t => if decide (k < k)%nat
                                                then f_zero else t)
                                        <$> acc !! k))
                              (f_of_Z (Z.of_nat n))))
               (fun i c => setThreshold c
                             (f_div (default f_zero (acc !! i))
                                (f_of_Z (Z.of_nat n))))).
      intros c _. destruct (acc !! k); cbn; [|reflexivity].
      case_decide; [lia|reflexivity].
    + destruct (acc !! k) as [t|] eqn:Hk.
      * apply (insert_imap_next (fun _ _ => f_zero) k acc t Hk).
      * rewrite list_insert_ge
          by (rewrite length_imap; apply lookup_ge_None; assumption).
        apply (imap_next_nothing (fun _ _ => f_zero)).
        intros x Hx. congruence.
Qed.



(** C8. With the sidechain off, [update_compressors] sets the threshold of
    the compressor [compressor_idx], which belongs to the bin
    [compressor_idx + 1], to [(0 + 3) - 3 * log2 (frequency + 2)], where
    [frequency] is the bin index times the sample rate over the window
    size. [processBlock] computes these thresholds at its start when the
    settings flag is set, and leaves the thresholds as they are when it is
    not, however many windows the block spans. *)
Theorem pink_noise_thresholds p b :
  sidechain_active p = false ->
  let pd := active (get (process_data p)) in
  let threshold (compressor_idx : nat) :=
    let frequency_increment :=
      f_of_double
        (Float.f64_div (getSampleRate p)
           (Float.f64_of_Z (Z.of_N (fft_window_size pd)))) in
    let frequency :=
      f_mul frequency_increment (f_of_Z (Z.of_nat (compressor_idx + 1))) in
    let octave := f_log2 (f_add frequency (f_of_Z 2)) in
    f_sub (f_add f_zero (f_of_Z 3)) (f_mul (f_of_Z 3) octave) in
  thresholddB <$> spectral_compressors (snd (update_compressors p pd))
  = threshold <$> seq 0 (length (spectral_compressors pd)) /\
  thresholddB
    <$> spectral_compressors (active (process_data (fst (processBlock p b))))
  = if compressor_settings_changed p
    then threshold <$> seq 0 (length (spectral_compressors pd))
    else thresholddB <$> spectral_compressors pd.
Proof.
  intros Hside pd threshold.
  split; [exact (update_compressors_thresholds p pd Hside)|].
  destruct (compressor_settings_changed p) eqn:Hflag.
  - destruct (processBlock_flag_set p b Hflag) as (_ & _ & _ & H).
    exact (H Hside).
  - destruct (processBlock_flag_clear p b Hflag) as (_ & _ & _ & H).
    exact (H Hside).
Qed.

(** ** After a rebuild *)

Lemma do_stft_fresh_silent process_fn p b pd W :
  stage_keeps_input process_fn ->
  buffer_ok p b ->
  (0 < windowing_interval W (windowing_overlap_times p))%N ->
  (W < 2 ^ 24)%N ->
  aligned W (windowing_interval W (windowing_overlap_times p)) 0 pd ->
  forall c ch i x,
    (c < getMainBusNumInputChannels p)%nat ->
    channels (snd (fst (do_stft process_fn p b pd))) !! c = Some ch ->
    ch !! i = Some x ->
    (N.of_nat i
     < (windowing_overlap_times p - 1)
       * windowing_interval W (windowing_overlap_times p))%N ->
    x = f_zero.
Proof.
  intros Hstage Hok Hhop HW Hal c ch i x Hc Hch Hi HL.
  pose proof (hop_positive _ _ Hhop) as (HWpos & _ & _).
  pose proof (do_stft_silent process_fn p W 0 Hstage Hhop b pd Hok HW HWpos Hal)
    as H.
  destruct (do_stft process_fn p b pd) as [[pd' b'] off].
  destruct H as (_ & Hshape & Hsil). cbn [fst snd] in Hch.
  assert (Hl : length ch = N.to_nat (getNumSamples b)).
  { destruct Hshape as (_ & _ & Hf). rewrite Forall_lookup in Hf.
    apply (Hf _ _ Hch). }
  pose proof (lookup_lt_Some _ _ _ Hi) as Hlt.
  rewrite (Hsil c ch i Hc Hch ltac:(lia) ltac:(rewrite N.add_0_l; exact HL)) in Hi.
  congruence.
Qed.

Lemma aligned_with_spectral_compressors W hop t pd cs :
  aligned W hop t pd -> aligned W hop t (with_spectral_compressors pd cs).
Proof. intros H. exact H. Qed.

(** The working set the next callback runs on. *)
Definition newest (p : Processor) : ProcessData := active (get (process_data p)).

Lemma processBlock_after_rebuild q b pd0 :
  newest q = rebuild q pd0 ->
  compressor_settings_changed q = true ->
  buffer_ok q b ->
  (0 < getMainBusNumInputChannels q)%nat ->
  (0 < windowing_interval (2 ^ fft_order q) (windowing_overlap_times q))%N ->
  (2 ^ fft_order q < 2 ^ 24)%N ->
  forall c ch i x,
    (c < getMainBusNumInputChannels q)%nat ->
    channels (snd (processBlock q b)) !! c = Some ch ->
    ch !! i = Some x ->
    (N.of_nat i
     < (windowing_overlap_times q - 1)
       * windowing_interval (2 ^ fft_order q) (windowing_overlap_times q))%N ->
    x = f_zero.
Proof.
  intros Hnew Hflag Hok Hch Hhop HW c ch i x Hc Hcch Hi HL.
  unfold processBlock in Hcch. rewrite Hflag in Hcch.
  unfold newest in Hnew. rewrite Hnew in Hcch.
  unfold update_compressors in Hcch.
  set (p1 := with_makeup_gain _ _) in Hcch.
  set (pd1 := with_spectral_compressors _ _) in Hcch.
  pose proof (do_stft_fresh_silent (spectral_stage p1) p1 b pd1 (2 ^ fft_order q)
                (spectral_stage_keeps_input p1) Hok Hhop HW
                (aligned_with_spectral_compressors _ _ _ _ _
                   (rebuild_aligned q pd0 Hch Hhop)) c ch i x Hc) as H.
  destruct (do_stft (spectral_stage p1) p1 b pd1) as [[pd2 b2] off].
  cbn [fst snd] in *. exact (H Hcch Hi HL).
Qed.

Lemma processBlockBypassed_after_rebuild q b pd0 :
  newest q = rebuild q pd0 ->
  buffer_ok q b ->
  (0 < getMainBusNumInputChannels q)%nat ->
  (0 < windowing_interval (2 ^ fft_order q) (windowing_overlap_times q))%N ->
  (2 ^ fft_order q < 2 ^ 24)%N ->
  forall c ch i x,
    (c < getMainBusNumInputChannels q)%nat ->
    channels (snd (processBlockBypassed q b)) !! c = Some ch ->
    ch !! i = Some x ->
    (N.of_nat i
     < (windowing_overlap_times q - 1)
       * windowing_interval (2 ^ fft_order q) (windowing_overlap_times q))%N ->
    x = f_zero.
Proof.
  intros Hnew Hok Hch Hhop HW c ch i x Hc Hcch Hi HL.
  unfold processBlockBypassed in Hcch.
  unfold newest in Hnew. rewrite Hnew in Hcch.
  pose proof (do_stft_fresh_silent (bypass_stage q) q b (rebuild q pd0)
                (2 ^ fft_order q) (bypass_stage_keeps_input q) Hok Hhop HW
                (rebuild_aligned q pd0 Hch Hhop) c ch i x Hc) as H.
  destruct (do_stft (bypass_stage q) q b (rebuild q pd0)) as [[pd2 b2] off].
  cbn [fst snd] in *. exact (H Hcch Hi HL).
Qed.

(** The three places that rebuild the working set. *)
Lemma rebuilt_by_prepareToPlay p max :
  newest (prepareToPlay p max)
  = rebuild (prepareToPlay p max) (inactive (process_data p)) /\
  compressor_settings_changed (prepareToPlay p max) = true.
Proof. split; reflexivity. Qed.

Lemma rebuilt_by_process_data_updater p :
  newest (process_data_updater p)
  = rebuild (process_data_updater p) (inactive (process_data p)) /\
  compressor_settings_changed (process_data_updater p) = true.
Proof. split; reflexivity. Qed.

Lemma rebuilt_by_setStateInformation p stored listeners_run :
  newest (setStateInformation p stored listeners_run)
  = rebuild (setStateInformation p stored listeners_run)
      (inactive (process_data p)) /\
  compressor_settings_changed (setStateInformation p stored listeners_run) = true.
Proof.
  destruct stored as [order|]; [destruct listeners_run|]; split; reflexivity.
Qed.

(** X18. [prepareToPlay], [process_data_updater] and
    [setStateInformation] all rebuild the working set the next callback
    runs on: its window count is zero, its window size is that of the FFT
    order, and the settings flag is set. In the block that comes next,
    bypassed or not, the samples of the first
    [windowing_overlap_times - 1] windows are silence, and a
    [processBlock] as the next callback clears the flag and gives every
    compressor the ballistics derived from the parameters, and the
    thresholds of the pink-noise curve when the sidechain is off. *)
Theorem rebuild_restarts_working_set p max stored listeners_run q b :
  q = prepareToPlay p max \/ q = process_data_updater p \/
  q = setStateInformation p stored listeners_run ->
  buffer_ok q b ->
  (0 < getMainBusNumInputChannels q)%nat ->
  (0 < windowing_interval (2 ^ fft_order q) (windowing_overlap_times q))%N ->
  (2 ^ fft_order q < 2 ^ 24)%N ->
  (num_windows_processed (newest q) = 0%N /\
   fft_window_size (newest q) = (2 ^ fft_order q)%N /\
   compressor_settings_changed q = true) /\
  (forall r c ch i x,
     r = processBlock q b \/ r = processBlockBypassed q b ->
     (c < getMainBusNumInputChannels q)%nat ->
     channels (snd r) !! c = Some ch ->
     ch !! i = Some x ->
     (N.of_nat i
      < (windowing_overlap_times q - 1)
        * windowing_interval (2 ^ fft_order q) (windowing_overlap_times q))%N ->
     x = f_zero) /\
  (let q' := fst (processBlock q b) in
   compressor_settings_changed q' = false /\
   ballistics <$> spectral_compressors (active (process_data q'))
   = (fun _ => configured_ballistics q (newest q))
       <$> spectral_compressors (newest q) /\
   (sidechain_active q = false ->
    thresholddB <$> spectral_compressors (active (process_data q'))
    = pink_noise_threshold (getSampleRate q) (fft_window_size (newest q))
        <$> seq 0 (length (spectral_compressors (newest q))))).
Proof.
  intros Hq Hok Hch Hhop HW.
  assert (Hnew : newest q = rebuild q (inactive (process_data p)) /\
                 compressor_settings_changed q = true).
  { destruct Hq as [->|[->| ->]].
    - apply rebuilt_by_prepareToPlay.
    - apply rebuilt_by_process_data_updater.
    - apply rebuilt_by_setStateInformation. }
  destruct Hnew as [Hnew Hflag].
  split; [|split].
  - rewrite Hnew. auto.
  - intros r c ch i x [-> | ->].
    + apply (processBlock_after_rebuild q b _ Hnew Hflag Hok Hch Hhop HW).
    + apply (processBlockBypassed_after_rebuild q b _ Hnew Hok Hch Hhop HW).
  - destruct (processBlock_flag_set q b Hflag) as (K1 & _ & K3 & K4).
    auto.
Qed.

(** ** The latency told to the host

    What happens to a processor, in the order it happens: the host
    prepares it, sets the FFT order (whose listener triggers
    [process_data_updater]), the message thread gets to run the updater,
    another parameter changes, a state is restored, a block is processed
    or bypassed. *)
Inductive Event : Type :=
  | Prepare (maximumExpectedSamplesPerBlock : N)
  | SetFftOrder (order : N)
  | RunUpdater
  | SettingsChanged
  | SetState (stored_order : option N) (listeners_run : bool)
  | Process (b : AudioBuffer)
  | ProcessBypassed (b : AudioBuffer).

Definition step (p : Processor) (e : Event) : Processor :=
  match e with
  | Prepare n => prepareToPlay p n
  | SetFftOrder order => set_fft_order p order
  | RunUpdater => if update_triggered p then process_data_updater p else p
  | SettingsChanged => compressor_settings_listener p
  | SetState stored_order listeners_run =>
      setStateInformation p stored_order listeners_run
  | Process b => fst (processBlock p b)
  | ProcessBypassed b => fst (processBlockBypassed p b)
  end.

Definition run (p : Processor) (events : list Event) : Processor :=
  foldl step p events.

(** No update outstanding: the latency is that of the FFT order, and so is
    the window size of the working set the next callback runs on. *)
Definition latency_settled (p : Processor) : Prop :=
  update_triggered p = false ->
  getLatencySamples p = (2 ^ fft_order p)%N /\
  fft_window_size (newest p) = (2 ^ fft_order p)%N.

Lemma do_stft_window_size process_fn p b pd :
  stage_keeps_input process_fn ->
  fft_window_size (fst (fst (do_stft process_fn p b pd))) = fft_window_size pd.
Proof.
  intros Hstage. apply (do_stft_keeps fft_window_size).
  - intros pd1 pd2 H _ _. exact H.
  - intros pd1 n. apply Hstage.
Qed.

Lemma active_after_get {T} (x : AtomicallySwappable T) (a : T) :
  active (get (with_active (get x) a)) = a.
Proof. destruct x as [a0 i0 []]; reflexivity. Qed.

Lemma processBlock_latency p b :
  let p' := fst (processBlock p b) in
  update_triggered p' = update_triggered p /\
  getLatencySamples p' = getLatencySamples p /\
  fft_order p' = fft_order p /\
  fft_window_size (newest p') = fft_window_size (newest p).
Proof.
  cbv zeta. unfold processBlock, newest.
  set (st := if compressor_settings_changed p then _ else _).
  assert (Hst : update_triggered (fst st) = update_triggered p /\
                getLatencySamples (fst st) = getLatencySamples p /\
                fft_order (fst st) = fft_order p /\
                fft_window_size (snd st)
                = fft_window_size (active (get (process_data p)))).
  { subst st. destruct (compressor_settings_changed p); cbn; auto. }
  destruct st as [p1 pd1]. cbn [fst snd] in Hst.
  pose proof (do_stft_window_size (spectral_stage p1) p1 b pd1
                (spectral_stage_keeps_input p1)) as Hw.
  destruct (do_stft (spectral_stage p1) p1 b pd1) as [[pd2 b2] off].
  cbn [fst snd] in *. cbn. rewrite active_after_get.
  destruct Hst as (H1 & H2 & H3 & H4).
  repeat split; congruence.
Qed.

Lemma processBlockBypassed_latency p b :
  let p' := fst (processBlockBypassed p b) in
  update_triggered p' = update_triggered p /\
  getLatencySamples p' = getLatencySamples p /\
  fft_order p' = fft_order p /\
  fft_window_size (newest p') = fft_window_size (newest p).
Proof.
  cbv zeta. unfold processBlockBypassed, newest.
  pose proof (do_stft_window_size (bypass_stage p) p b
                (active (get (process_data p)))
                (bypass_stage_keeps_input p)) as Hw.
  destruct (do_stft (bypass_stage p) p b _) as [[pd2 b2] off].
  cbn [fst snd] in *. cbn. rewrite active_after_get. auto.
Qed.

Lemma step_latency_settled p e : latency_settled p -> latency_settled (step p e).
Proof.
  unfold latency_settled. intros Hp.
  destruct e as [n|order| | |stored listeners_run|b|b]; cbn [step].
  - intros Ht. destruct (Hp Ht) as [H1 H2]. split; [exact H1|reflexivity].
  - intros Ht. discriminate Ht.
  - destruct (update_triggered p) eqn:Hup.
    + intros _. split; reflexivity.
    + intros _. apply Hp. reflexivity.
  - exact Hp.
  - destruct stored as [order|]; [destruct listeners_run|].
    + intros Ht. discriminate Ht.
    + intros _. split; reflexivity.
    + intros _. split; reflexivity.
  - destruct (processBlock_latency p b) as (H1 & H2 & H3 & H4).
    cbv zeta in *. rewrite H1, H2, H3, H4. exact Hp.
  - destruct (processBlockBypassed_latency p b) as (H1 & H2 & H3 & H4).
    cbv zeta in *. rewrite H1, H2, H3, H4. exact Hp.
Qed.

Lemma run_latency_settled events : forall p,
  latency_settled p -> latency_settled (run p events).
Proof.
  induction events as [|e events IH]; intros p Hp; cbn [run foldl].
  - exact Hp.
  - apply IH, step_latency_settled, Hp.
Qed.

(** X17. From a processor that has been constructed and prepared, and
    whatever happens to it: at every moment at which the listener of the
    FFT order has no run of [process_data_updater] outstanding, the
    latency told to the host is [2 ^ fft_order], the window size of the
    working set the next callback runs on. That working set is the
    pending one as long as no callback has swapped it in:
    [process_data_updater] reports the latency right after building it,
    so the latency can differ from the window size of the working set
    still active. *)
Theorem latency_is_newest_window_size
    sidechain ratio_ attack_ms release_ms auto_makeup order overlap_times
    sample_rate input_channels output_channels uninitialised max events :
  let p :=
    run (prepareToPlay
           (SpectralCompressorProcessor sidechain ratio_ attack_ms release_ms
              auto_makeup order overlap_times sample_rate input_channels
              output_channels uninitialised) max) events in
  update_triggered p = false ->
  getLatencySamples p = (2 ^ fft_order p)%N /\
  fft_window_size
    (if swap_pending (process_data p) then inactive (process_data p)
     else active (process_data p))
  = getLatencySamples p.
Proof.
  intros p Ht.
  assert (H : latency_settled p).
  { apply run_latency_settled. intros _. split; reflexivity. }
  destruct (H Ht) as [H1 H2]. split; [exact H1|].
  rewrite H1, <- H2. unfold newest, get.
  destruct (swap_pending (process_data p)); reflexivity.
Qed.

(** ** Cutting a stretch in two

    Copying [n1 + n2] samples in and out comes to the same as copying
    [n1] and then [n2]. *)

Lemma read_n_from_app rb xs ys :
  read_n_from rb (xs ++ ys) = read_n_from (read_n_from rb xs) ys.
Proof. unfold read_n_from. apply foldl_app. Qed.

Lemma copy_n_to_add clear n1 : forall n2 rb,
  copy_n_to rb (n1 + n2) clear
  = (fst (copy_n_to rb n1 clear)
       ++ fst (copy_n_to (snd (copy_n_to rb n1 clear)) n2 clear),
     snd (copy_n_to (snd (copy_n_to rb n1 clear)) n2 clear)).
Proof.
  induction n1 as [|n1 IH]; intros n2 rb.
  - cbn [Nat.add copy_n_to fst snd app]. destruct (copy_n_to rb n2 clear); reflexivity.
  - cbn [Nat.add copy_n_to]. destruct (pop clear rb) as [x rb'].
    rewrite IH. destruct (copy_n_to rb' n1 clear) as [xs rb''].
    cbn [fst snd]. destruct (copy_n_to rb'' n2 clear) as [ys rb'''].
    reflexivity.
Qed.

Lemma channel_samples_add b c off n1 n2 :
  channel_samples b c off (n1 + n2)
  = channel_samples b c off n1 ++ channel_samples b c (off + n1) n2.
Proof.
  unfold channel_samples.
  replace (N.to_nat (n1 + n2)) with (N.to_nat n1 + N.to_nat n2)%nat by lia.
  replace (N.to_nat (off + n1)) with (N.to_nat off + N.to_nat n1)%nat by lia.
  rewrite <- take_take_drop, drop_drop. reflexivity.
Qed.

Lemma splice_parts ch off xs :
  (N.to_nat off <= length ch)%nat ->
  splice ch off xs
  = (take (N.to_nat off) ch ++ xs) ++ drop (N.to_nat off + length xs) ch /\
  length (take (N.to_nat off) ch ++ xs) = (N.to_nat off + length xs)%nat.
Proof.
  intros Hoff. split.
  - unfold splice. rewrite app_assoc. reflexivity.
  - rewrite length_app, length_take. lia.
Qed.

Lemma splice_splice ch off xs ys :
  (N.to_nat off <= length ch)%nat ->
  splice (splice ch off xs) (off + N.of_nat (length xs)) ys
  = splice ch off (xs ++ ys).
Proof.
  intros Hoff. destruct (splice_parts ch off xs Hoff) as [Hs Hl].
  unfold splice at 1. rewrite Hs.
  replace (N.to_nat (off + N.of_nat (length xs)))
    with (N.to_nat off + length xs)%nat by lia.
  rewrite (take_app_length' _ _ _ (eq_sym Hl)).
  rewrite (drop_app_add' _ _ _ _ (eq_sym Hl)), drop_drop.
  unfold splice. rewrite length_app, <- !app_assoc, Nat.add_assoc.
  reflexivity.
Qed.

Lemma drop_splice ch off xs :
  (N.to_nat off <= length ch)%nat ->
  drop (N.to_nat off + length xs) (splice ch off xs)
  = drop (N.to_nat off + length xs) ch.
Proof.
  intros Hoff. destruct (splice_parts ch off xs Hoff) as [Hs Hl].
  rewrite Hs. apply drop_app_length'. symmetry. exact Hl.
Qed.

Lemma channel_samples_after_stretch gate out_rings off n1 k b c n2 :
  Forall (fun ch => (N.to_nat off <= length ch)%nat) (channels b) ->
  channel_samples
    {| getNumSamples := getNumSamples b;
       channels := stretch_channels gate out_rings off n1 k (channels b) |}
    c (off + n1) n2
  = channel_samples b c (off + n1) n2.
Proof.
  intros Hlen. unfold channel_samples, stretch_channels. cbn [channels].
  rewrite list_lookup_imap.
  destruct (channels b !! c) as [ch|] eqn:Hc; cbn; [|reflexivity].
  assert (Hoff : (N.to_nat off <= length ch)%nat).
  { rewrite Forall_lookup in Hlen. exact (Hlen _ _ Hc). }
  assert (Hdrop : forall xs, length xs = N.to_nat n1 ->
            drop (N.to_nat (off + n1)) (splice ch off xs)
            = drop (N.to_nat (off + n1)) ch).
  { intros xs Hxs.
    replace (N.to_nat (off + n1)) with (N.to_nat off + length xs)%nat by lia.
    apply drop_splice. assumption. }
  case_decide; [|reflexivity].
  destruct gate.
  - destruct (out_rings !! c); [|reflexivity].
    rewrite Hdrop by apply length_copy_n_to. reflexivity.
  - rewrite Hdrop by apply length_replicate. reflexivity.
Qed.

Lemma copy_in_out_add p off n1 n2 pd b :
  Forall (fun ch => (N.to_nat off <= length ch)%nat) (channels b) ->
  copy_in_out p off (n1 + n2) (pd, b)
  = copy_in_out p (off + n1) n2 (copy_in_out p off n1 (pd, b)).
Proof.
  intros Hlen.
  rewrite (copy_in_out_stretch p off (n1 + n2)).
  rewrite (copy_in_out_stretch p off n1).
  unfold stretch_result at 2. rewrite copy_in_out_stretch.
  unfold stretch_result, output_gate. fields.
  set (gate := (windowing_overlap_times p <=? num_windows_processed pd)%N).
  set (k := getMainBusNumInputChannels p).
  assert (Hn : N.to_nat (n1 + n2) = (N.to_nat n1 + N.to_nat n2)%nat) by lia.
  f_equal; [apply process_data_eq; fields; try reflexivity|f_equal].
  - (* the input ring buffers *)
    unfold stretch_input_rings. rewrite imap_imap. apply imap_ext.
    intros c rb _. cbv beta. case_decide; [|reflexivity].
    rewrite channel_samples_after_stretch by assumption.
    rewrite channel_samples_add. apply read_n_from_app.
  - (* the output ring buffers *)
    unfold stretch_output_rings. rewrite imap_imap. apply imap_ext.
    intros c rb _. cbv beta. case_decide; [|reflexivity].
    destruct gate; [|reflexivity].
    rewrite Hn, copy_n_to_add. reflexivity.
  - (* the sidechain ring buffers *)
    unfold stretch_sidechain_rings. rewrite imap_imap. apply imap_ext.
    intros c rb _. cbv beta. case_decide; [|reflexivity].
    destruct (sidechain_active p); [|reflexivity].
    rewrite channel_samples_after_stretch by assumption.
    rewrite channel_samples_add. apply read_n_from_app.
  - (* the channels of the buffer *)
    unfold stretch_channels, stretch_output_rings. rewrite imap_imap.
    apply imap_ext. intros c ch Hc. cbv beta.
    assert (Hoff : (N.to_nat off <= length ch)%nat).
    { rewrite Forall_lookup in Hlen. exact (Hlen _ _ Hc). }
    case_decide; [|reflexivity].
    destruct gate.
    + rewrite list_lookup_imap.
      destruct (output_ring_buffers pd !! c) as [rb|]; cbn; [|reflexivity].
      case_decide; [|lia].
      rewrite Hn, copy_n_to_add. cbn [fst].
      rewrite <- splice_splice by assumption.
      rewrite length_copy_n_to, N2Nat.id. reflexivity.
    + rewrite Hn, replicate_add.
      rewrite <- splice_splice by assumption.
      rewrite length_replicate, N2Nat.id. reflexivity.
Qed.

(** ** Sample by sample

    When the hop divides the window size, [do_stft] does to a block what
    handling its samples one at a time would do, with a window whenever
    the input ring buffer stands at a multiple of the hop. *)

Definition window_due (p : Processor) (pd : ProcessData) : bool :=
  (from_option pos 0 (input_ring_buffers pd !! 0%nat)
   mod windowing_interval (fft_window_size pd) (windowing_overlap_times p)
   =? 0)%N.

Definition tick (process_fn : ProcessData -> nat -> ProcessData) (p : Processor)
    (off : N) (st : ProcessData * AudioBuffer) : ProcessData * AudioBuffer :=
  if window_due p (fst st) then process_window process_fn p off 1 st
  else copy_in_out p off 1 st.

Fixpoint ticks (process_fn : ProcessData -> nat -> ProcessData) (p : Processor)
    (n : nat) (off : N) (st : ProcessData * AudioBuffer)
    : ProcessData * AudioBuffer :=
  match n with
  | O => st
  | S k => ticks process_fn p k (off + 1) (tick process_fn p off st)
  end.

(** The working set [t] samples after a rebuild, as far as the driver
    looks at it. *)
Definition synced (W t : N) (pd : ProcessData) : Prop :=
  fft_window_size pd = W /\
  exists r0, input_ring_buffers pd !! 0%nat = Some r0 /\
             ring_size r0 = W /\ current_pos r0 = (t mod W)%N.

Lemma ticks_add process_fn p n1 : forall n2 off st,
  ticks process_fn p (n1 + n2) off st
  = ticks process_fn p n2 (off + N.of_nat n1) (ticks process_fn p n1 off st).
Proof.
  induction n1 as [|n1 IH]; intros n2 off st.
  - cbn [Nat.add ticks]. rewrite N.add_0_r. reflexivity.
  - cbn [Nat.add ticks]. rewrite IH. f_equal. lia.
Qed.

Section Phase.
Local Open Scope N_scope.

Lemma phase W hop t : 0 < hop -> W mod hop = 0 -> (t mod W) mod hop = t mod hop.
Proof.
  intros Hhop Hdiv.
  destruct (N.eq_dec W 0) as [->|HW].
  { rewrite N.mod_0_r. reflexivity. }
  pose proof (N.div_mod t W HW) as Ht.
  pose proof (N.div_mod W hop ltac:(lia)) as HWh.
  rewrite Hdiv, N.add_0_r in HWh.
  revert Ht HWh. generalize (t / W) as q, (t mod W) as r, (W / hop) as q'.
  intros q r q' Ht HWh.
  replace t with (r + q * q' * hop) by (rewrite Ht, HWh at 1; lia).
  rewrite N.Div0.mod_add. reflexivity.
Qed.

Lemma phase_add hop t j :
  0 < hop -> t mod hop = 0 -> 0 < j < hop -> (t + j) mod hop <> 0.
Proof.
  intros Hhop Ht Hj. rewrite N.Div0.add_mod, Ht, N.add_0_l, N.Div0.mod_mod.
  rewrite N.mod_small by lia. lia.
Qed.

Lemma phase_before_boundary hop t i :
  0 < hop -> i < (hop - t mod hop) mod hop -> (t + i) mod hop <> 0.
Proof.
  intros Hhop Hi.
  pose proof (N.mod_lt t hop ltac:(lia)) as Hr.
  rewrite N.Div0.add_mod.
  revert Hi Hr. generalize (t mod hop) as r. intros r Hi Hr.
  destruct (N.eq_dec r 0) as [->|Hr0].
  { rewrite N.sub_0_r, N.Div0.mod_same in Hi. lia. }
  rewrite (N.mod_small (hop - r)) in Hi by lia.
  rewrite (N.mod_small i) by lia. rewrite N.mod_small by lia. lia.
Qed.

Lemma phase_at_boundary hop t :
  0 < hop -> (t + (hop - t mod hop) mod hop) mod hop = 0.
Proof. intros Hhop. rewrite to_boundary by assumption. apply N.Div0.mod_mul. Qed.

End Phase.

Lemma buffer_ok_lengths p b off :
  buffer_ok p b -> (off <= getNumSamples b)%N ->
  Forall (fun ch => (N.to_nat off <= length ch)%nat) (channels b).
Proof.
  intros (_ & Hlen & _) Hoff. eapply Forall_impl; [exact Hlen|].
  intros ch Hch. cbv beta in Hch. lia.
Qed.

Section Chunks.
Local Open Scope N_scope.

Variable process_fn : ProcessData -> nat -> ProcessData.
Variable p : Processor.
Variable W : N.
Local Abbreviation hop := (windowing_interval W (windowing_overlap_times p)).

Hypothesis Hstage : stage_keeps_input process_fn.
Hypothesis Hhop : 0 < hop.
Hypothesis Hdiv : W mod hop = 0.

Lemma window_due_synced t pd :
  synced W t pd -> window_due p pd = (t mod hop =? 0).
Proof.
  intros (HW & r0 & Hr0 & Hsize & Hpos). unfold window_due.
  rewrite Hr0, HW. cbn [from_option]. unfold pos.
  rewrite Hpos, phase by assumption. reflexivity.
Qed.

Lemma synced_stage t pd :
  synced W t pd ->
  synced W t
    (with_num_windows_processed (process_fn pd (getMainBusNumInputChannels p))
       (num_windows_processed (process_fn pd (getMainBusNumInputChannels p)) + 1)).
Proof.
  intros (HW & r0 & Hr0 & Hsize & Hpos).
  destruct (Hstage pd (getMainBusNumInputChannels p)) as (H1 & _ & H3).
  unfold synced. fields. rewrite H1, H3. eauto.
Qed.

Lemma copy_in_out_synced t off n pd b :
  synced W t pd -> buffer_ok p b -> off + n <= getNumSamples b ->
  synced W (t + n) (fst (copy_in_out p off n (pd, b))) /\
  same_shape b (snd (copy_in_out p off n (pd, b))).
Proof.
  intros (HW & r0 & Hr0 & Hsize & Hpos) Hok Hoff.
  pose proof (hop_positive _ _ Hhop) as (HWpos & _ & _).
  pose proof (copy_in_out_facts p off n pd b r0 Hok Hoff Hr0
                ltac:(rewrite Hpos, Hsize; apply N.mod_lt; lia))
    as (F1 & _ & (r0' & F3 & F4 & F5) & F6 & _).
  cbv zeta in *. split; [|assumption].
  split; [congruence|]. exists r0'. split; [assumption|]. split; [congruence|].
  rewrite F5, Hpos, Hsize, N.Div0.add_mod_idemp_l. reflexivity.
Qed.

Lemma tick_synced t off pd b :
  synced W t pd -> buffer_ok p b -> off + 1 <= getNumSamples b ->
  synced W (t + 1) (fst (tick process_fn p off (pd, b))) /\
  same_shape b (snd (tick process_fn p off (pd, b))).
Proof.
  intros Hs Hok Hoff. unfold tick, process_window. cbn [fst].
  destruct (window_due p pd).
  - apply copy_in_out_synced; [apply synced_stage|..]; assumption.
  - apply copy_in_out_synced; assumption.
Qed.

Lemma ticks_synced n : forall t off pd b,
  synced W t pd -> buffer_ok p b -> off + N.of_nat n <= getNumSamples b ->
  synced W (t + N.of_nat n) (fst (ticks process_fn p n off (pd, b))) /\
  same_shape b (snd (ticks process_fn p n off (pd, b))).
Proof.
  induction n as [|n IH]; intros t off pd b Hs Hok Hoff; cbn [ticks].
  - rewrite N.add_0_r. split; [assumption|]. eapply same_shape_refl, Hok.
  - destruct (tick_synced t off pd b Hs Hok ltac:(lia)) as [Hs1 Hshape1].
    destruct (tick process_fn p off (pd, b)) as [pd1 b1]. cbn [fst snd] in *.
    pose proof (same_shape_ok p b b1 Hok Hshape1) as Hok1.
    assert (Hn1 : getNumSamples b1 = getNumSamples b) by apply Hshape1.
    destruct (IH (t + 1) (off + 1) pd1 b1 Hs1 Hok1 ltac:(lia)) as [Hs2 Hshape2].
    split.
    + replace (t + N.of_nat (S n)) with (t + 1 + N.of_nat n) by lia. assumption.
    + eapply same_shape_trans; eassumption.
Qed.

(** A stretch that meets no window boundary. *)
Lemma ticks_quiet n : forall t off pd b,
  synced W t pd -> buffer_ok p b -> off + N.of_nat (S n) <= getNumSamples b ->
  (forall i, i < N.of_nat (S n) -> (t + i) mod hop <> 0) ->
  ticks process_fn p (S n) off (pd, b) = copy_in_out p off (N.of_nat (S n)) (pd, b).
Proof.
  induction n as [|n IH]; intros t off pd b Hs Hok Hoff Hquiet.
  - cbn [ticks]. unfold tick. cbn [fst].
    rewrite (window_due_synced t pd Hs).
    pose proof (Hquiet 0 ltac:(lia)) as H0. rewrite N.add_0_r in H0.
    apply N.eqb_neq in H0. rewrite H0. reflexivity.
  - change (ticks process_fn p (S (S n)) off (pd, b))
      with (ticks process_fn p (S n) (off + 1) (tick process_fn p off (pd, b))).
    assert (Htick : tick process_fn p off (pd, b) = copy_in_out p off 1 (pd, b)).
    { unfold tick. cbn [fst]. rewrite (window_due_synced t pd Hs).
      pose proof (Hquiet 0 ltac:(lia)) as H0. rewrite N.add_0_r in H0.
      apply N.eqb_neq in H0. rewrite H0. reflexivity. }
    rewrite Htick.
    destruct (copy_in_out_synced t off 1 pd b Hs Hok ltac:(lia)) as [Hs1 Hshape1].
    destruct (copy_in_out p off 1 (pd, b)) as [pd1 b1] eqn:Hcopy.
    cbn [fst snd] in *.
    pose proof (same_shape_ok p b b1 Hok Hshape1) as Hok1.
    assert (Hn1 : getNumSamples b1 = getNumSamples b) by apply Hshape1.
    rewrite (IH (t + 1) (off + 1) pd1 b1 Hs1 Hok1 ltac:(lia)).
    + rewrite <- Hcopy.
      replace (N.of_nat (S (S n))) with (1 + N.of_nat (S n)) by lia.
      symmetry. apply copy_in_out_add.
      apply (buffer_ok_lengths p); [assumption|lia].
    + intros i Hi. replace (t + 1 + i) with (t + (1 + i)) by lia.
      apply Hquiet. lia.
Qed.

(** A window and the stretch after it. *)
Lemma ticks_window n t off pd b :
  synced W t pd -> buffer_ok p b -> off + N.of_nat (S n) <= getNumSamples b ->
  t mod hop = 0 -> N.of_nat (S n) <= hop ->
  ticks process_fn p (S n) off (pd, b)
  = process_window process_fn p off (N.of_nat (S n)) (pd, b).
Proof.
  intros Hs Hok Hoff Ht Hn.
  change (ticks process_fn p (S n) off (pd, b))
    with (ticks process_fn p n (off + 1) (tick process_fn p off (pd, b))).
  assert (Htick : tick process_fn p off (pd, b)
                  = process_window process_fn p off 1 (pd, b)).
  { unfold tick. cbn [fst]. rewrite (window_due_synced t pd Hs), Ht.
    reflexivity. }
  rewrite Htick. unfold process_window.
  set (pd1 := with_num_windows_processed _ _).
  pose proof (synced_stage t pd Hs) as Hs1. fold pd1 in Hs1.
  destruct n as [|n]; [reflexivity|].
  destruct (copy_in_out_synced t off 1 pd1 b Hs1 Hok ltac:(lia))
    as [Hs2 Hshape2].
  destruct (copy_in_out p off 1 (pd1, b)) as [pd2 b2] eqn:Hcopy.
  cbn [fst snd] in *.
  pose proof (same_shape_ok p b b2 Hok Hshape2) as Hok2.
  assert (Hn2 : getNumSamples b2 = getNumSamples b) by apply Hshape2.
  rewrite (ticks_quiet n (t + 1) (off + 1) pd2 b2 Hs2 Hok2 ltac:(lia)).
  - rewrite <- Hcopy.
    replace (N.of_nat (S (S n))) with (1 + N.of_nat (S n)) by lia.
    symmetry. apply copy_in_out_add.
    apply (buffer_ok_lengths p); [assumption|lia].
  - intros i Hi. replace (t + 1 + i) with (t + (1 + i)) by lia.
    apply phase_add; [assumption|assumption|lia].
Qed.

(** The window loop, entered at a window boundary. *)
Lemma window_loop_ticks num_samples k : forall off t pd b,
  synced W t pd -> buffer_ok p b -> getNumSamples b = num_samples ->
  off <= num_samples ->
  N.of_nat k = ceil_div (num_samples - off) hop ->
  (off < num_samples -> t mod hop = 0) ->
  fst (window_loop (process_window process_fn p) k hop num_samples off (pd, b))
  = ticks process_fn p (N.to_nat (num_samples - off)) off (pd, b).
Proof.
  induction k as [|k IH]; intros off t pd b Hs Hok Hnum Hoff Hk Hal;
    cbn [window_loop].
  - assert (Heq : num_samples - off = 0).
    { destruct (N.eq_dec (num_samples - off) 0) as [Hz|Hnz]; [assumption|].
      pose proof (ceil_div_pos (num_samples - off) hop Hhop ltac:(lia)). lia. }
    rewrite Heq. reflexivity.
  - assert (Hlt : off < num_samples).
    { destruct (N.eq_dec (num_samples - off) 0) as [Hz|Hnz]; [|lia].
      rewrite Hz, ceil_div_0 in Hk by assumption. lia. }
    unfold samples_to_process_this_iteration.
    set (n := N.min hop (num_samples - off)).
    assert (Hn : 0 < n <= hop) by (subst n; lia).
    assert (Hnle : off + n <= num_samples) by (subst n; lia).
    destruct (N.to_nat n) as [|n'] eqn:Hn'; [lia|].
    assert (Hnn : N.of_nat (S n') = n) by lia.
    pose proof (ticks_window n' t off pd b Hs Hok ltac:(lia) (Hal Hlt)
                  ltac:(lia)) as Hwin.
    rewrite Hnn in Hwin. rewrite <- Hwin.
    destruct (ticks_synced (S n') t off pd b Hs Hok ltac:(lia))
      as [Hs1 Hshape1].
    rewrite Hnn in Hs1.
    destruct (ticks process_fn p (S n') off (pd, b)) as [pd1 b1] eqn:Hticks.
    cbn [fst snd] in *.
    pose proof (same_shape_ok p b b1 Hok Hshape1) as Hok1.
    assert (Hn1 : getNumSamples b1 = num_samples)
      by (rewrite <- Hnum; apply Hshape1).
    rewrite (IH (off + n) (t + n) pd1 b1 Hs1 Hok1 Hn1 Hnle).
    + replace (N.to_nat (num_samples - off))
        with (S n' + N.to_nat (num_samples - (off + n)))%nat by lia.
      rewrite ticks_add, Hticks, Hnn. reflexivity.
    + destruct (N.le_gt_cases hop (num_samples - off)) as [Hfull|Hpart].
      * replace n with hop by (subst n; lia).
        replace (num_samples - (off + hop))
          with (num_samples - off - hop) by lia.
        rewrite ceil_div_sub by assumption. lia.
      * replace n with (num_samples - off) by (subst n; lia).
        rewrite (ceil_div_small (num_samples - off) hop) in Hk by lia.
        replace (num_samples - (off + (num_samples - off))) with 0 by lia.
        rewrite ceil_div_0 by assumption. lia.
    + intros Hmore. assert (Heq : n = hop) by (subst n; lia).
      rewrite Heq. replace (t + hop) with (t + 1 * hop) by lia.
      rewrite N.Div0.mod_add. apply Hal, Hlt.
Qed.

(** The buffer with the output channels that have no input zeroed, as
    [do_stft] starts by doing. *)
Definition clear_unused (b : AudioBuffer) : AudioBuffer :=
  foldl (fun b' channel => clear b' channel 0 (getNumSamples b)) b
    (seq (getMainBusNumInputChannels p)
       (getMainBusNumOutputChannels p - getMainBusNumInputChannels p)).

Lemma do_stft_ticks t pd b :
  synced W t pd -> buffer_ok p b -> W < 2 ^ 24 ->
  fst (do_stft process_fn p b pd)
  = ticks process_fn p (N.to_nat (getNumSamples b)) 0 (pd, clear_unused b).
Proof.
  intros Hs Hok HW.
  pose proof Hs as (HWpd & r0 & Hr0 & Hsize & Hpos).
  pose proof (hop_positive _ _ Hhop) as (HWpos & HOpos & HOW).
  assert (Hhop24 : hop < 2 ^ 24).
  { pose proof (pos_mul_ge (windowing_overlap_times p) hop ltac:(lia)). lia. }
  assert (Hsmall : getNumSamples b < 2 ^ 24) by apply Hok.
  unfold do_stft. fold (clear_unused b).
  rewrite HWpd, Hr0. cbn [from_option]. unfold pos.
  rewrite Hpos.
  assert (Hshape0 : same_shape b (clear_unused b))
    by apply (clear_unused_same_shape p), Hok.
  pose proof (same_shape_ok p b _ Hok Hshape0) as Hok1.
  assert (Hn1 : getNumSamples (clear_unused b) = getNumSamples b)
    by apply Hshape0.
  unfold already_processed_samples, samples_to_be_processed.
  rewrite (phase W hop t Hhop Hdiv).
  pose proof (phase_at_boundary hop t Hhop) as Hbound.
  pose proof (fun i => phase_before_boundary hop t i Hhop) as Hquiet.
  revert Hbound Hquiet. generalize ((hop - t mod hop) mod hop) as A.
  intros A Hbound Hquiet.
  set (already := N.min (getNumSamples b) A).
  assert (Hal : already <= getNumSamples b) by (subst already; lia).
  assert (HalA : already <= A) by (subst already; lia).
  assert (HalN : already < getNumSamples b -> already = A)
    by (subst already; lia).
  clearbody already.
  rewrite windows_to_process_exact by lia.
  rewrite to_nat_of_N.
  assert (Hfirst :
    (if 0 <? already then (copy_in_out p 0 already (pd, clear_unused b), already)
     else ((pd, clear_unused b), 0))
    = (ticks process_fn p (N.to_nat already) 0 (pd, clear_unused b), already)).
  { destruct (N.ltb_spec 0 already) as [Hpos'|Hzero].
    - destruct (N.to_nat already) as [|n'] eqn:Hn'; [lia|].
      rewrite (ticks_quiet n' t 0 pd (clear_unused b) Hs Hok1) by
        (try (intros i Hi; apply Hquiet); lia).
      repeat f_equal. lia.
    - assert (Hz : already = 0) by lia. rewrite Hz. reflexivity. }
  rewrite Hfirst.
  destruct (ticks_synced (N.to_nat already) t 0 pd (clear_unused b) Hs Hok1
              ltac:(lia)) as [Hs1 Hshape1].
  rewrite N2Nat.id in Hs1.
  destruct (ticks process_fn p (N.to_nat already) 0 (pd, clear_unused b))
    as [pd1 b1] eqn:Hticks.
  cbn [fst snd] in *.
  pose proof (same_shape_ok p _ b1 Hok1 Hshape1) as Hok2.
  assert (Hn2 : getNumSamples b1 = getNumSamples b)
    by (rewrite <- Hn1; apply Hshape1).
  pose proof (window_loop_ticks (getNumSamples b)
                (N.to_nat (ceil_div (getNumSamples b - already) hop))
                already (t + already) pd1 b1 Hs1 Hok2 Hn2 Hal
                ltac:(rewrite N2Nat.id; reflexivity)
                ltac:(intros Hlt; rewrite (HalN Hlt); exact Hbound)) as Hloop.
  destruct (window_loop _ _ _ _ _ _) as [[pd' b'] off'].
  cbn [fst] in Hloop. cbn [fst]. rewrite Hloop.
  replace (N.to_nat (getNumSamples b))
    with (N.to_nat already + N.to_nat (getNumSamples b - already))%nat by lia.
  rewrite ticks_add, Hticks, N2Nat.id, N.add_0_l. reflexivity.
Qed.

End Chunks.

(** ** Blocks end to end *)

(** Two blocks as one: every channel of the first followed by the same
    channel of the second. *)
Definition glue (l r : AudioBuffer) : AudioBuffer :=
  {| getNumSamples := getNumSamples l + getNumSamples r;
     channels := zip_with app (channels l) (channels r) |}.

Lemma imap_zip_app_l (f g : nat -> list F -> list F) (L R : list (list F)) :
  (forall c lc rc, L !! c = Some lc -> R !! c = Some rc ->
                   f c (lc ++ rc) = g c lc ++ rc) ->
  imap f (zip_with app L R) = zip_with app (imap g L) R.
Proof.
  intros H. apply list_eq. intros c.
  rewrite list_lookup_imap, !lookup_zip_with, list_lookup_imap.
  destruct (L !! c) as [lc|] eqn:HL; [|reflexivity].
  destruct (R !! c) as [rc|] eqn:HR; [|reflexivity].
  cbn. rewrite (H c lc rc HL HR). reflexivity.
Qed.

Lemma imap_zip_app_r (f g : nat -> list F -> list F) (L R : list (list F)) :
  (forall c lc rc, L !! c = Some lc -> R !! c = Some rc ->
                   f c (lc ++ rc) = lc ++ g c rc) ->
  imap f (zip_with app L R) = zip_with app L (imap g R).
Proof.
  intros H. apply list_eq. intros c.
  rewrite list_lookup_imap, !lookup_zip_with, list_lookup_imap.
  destruct (L !! c) as [lc|] eqn:HL; [|reflexivity].
  destruct (R !! c) as [rc|] eqn:HR; [|reflexivity].
  cbn. rewrite (H c lc rc HL HR). reflexivity.
Qed.

Lemma splice_app_l lc rc off xs :
  (N.to_nat off + length xs <= length lc)%nat ->
  splice (lc ++ rc) off xs = splice lc off xs ++ rc.
Proof.
  intros H. unfold splice.
  rewrite take_app_le, drop_app_le by lia.
  rewrite <- !app_assoc. reflexivity.
Qed.

Lemma splice_app_r lc rc off off' xs :
  N.to_nat off' = (length lc + N.to_nat off)%nat ->
  splice (lc ++ rc) off' xs = lc ++ splice rc off xs.
Proof.
  intros H. unfold splice. rewrite H.
  rewrite take_app_add, <- Nat.add_assoc, drop_app_add.
  rewrite <- !app_assoc. reflexivity.
Qed.

(** Blocks of the same number of channels, as the host passes them. *)
Definition fit (p : Processor) (l r : AudioBuffer) : Prop :=
  buffer_ok p l /\ buffer_ok p r /\ length (channels l) = length (channels r).

Lemma fit_lookup p l r c :
  fit p l r ->
  (exists lc rc, channels l !! c = Some lc /\ channels r !! c = Some rc /\
                 length lc = N.to_nat (getNumSamples l) /\
                 length rc = N.to_nat (getNumSamples r)) \/
  (channels l !! c = None /\ channels r !! c = None).
Proof.
  intros ((_ & Hl & _) & (_ & Hr & _) & Hlen).
  rewrite Forall_lookup in Hl, Hr.
  destruct (channels l !! c) as [lc|] eqn:HL.
  - destruct (lookup_lt_is_Some_2 (channels r) c) as [rc HR].
    { rewrite <- Hlen. eapply lookup_lt_Some, HL. }
    left. exists lc, rc. split; [reflexivity|]. split; [assumption|].
    split; [eapply Hl, HL|eapply Hr, HR].
  - right. split; [reflexivity|].
    apply lookup_ge_None. rewrite <- Hlen. apply lookup_ge_None. assumption.
Qed.

Lemma channel_samples_glue_l p l r c off n :
  fit p l r -> (off + n <= getNumSamples l)%N ->
  channel_samples (glue l r) c off n = channel_samples l c off n.
Proof.
  intros Hfit Hoff. unfold channel_samples, glue. cbn [channels].
  rewrite lookup_zip_with.
  destruct (fit_lookup p l r c Hfit)
    as [(lc & rc & -> & -> & Hlc & Hrc)|[-> ->]]; [|reflexivity].
  cbn. rewrite drop_app_le by lia.
  apply take_app_le. rewrite length_drop. lia.
Qed.

Lemma channel_samples_glue_r p l r c off n :
  fit p l r ->
  channel_samples (glue l r) c (getNumSamples l + off) n
  = channel_samples r c off n.
Proof.
  intros Hfit. unfold channel_samples, glue. cbn [channels].
  rewrite lookup_zip_with.
  destruct (fit_lookup p l r c Hfit)
    as [(lc & rc & -> & -> & Hlc & Hrc)|[-> ->]];
    [|cbn; rewrite !drop_nil; reflexivity].
  cbn. replace (N.to_nat (getNumSamples l + off))
         with (length lc + N.to_nat off)%nat by lia.
  rewrite drop_app_add. reflexivity.
Qed.

Lemma fit_length_l p l r c lc :
  fit p l r -> channels l !! c = Some lc ->
  length lc = N.to_nat (getNumSamples l).
Proof.
  intros ((_ & Hl & _) & _) HL. rewrite Forall_lookup in Hl. eapply Hl, HL.
Qed.

Lemma copy_in_out_glue_l p off n pd l r :
  fit p l r -> (off + n <= getNumSamples l)%N ->
  copy_in_out p off n (pd, glue l r)
  = (fst (copy_in_out p off n (pd, l)),
     glue (snd (copy_in_out p off n (pd, l))) r).
Proof.
  intros Hfit Hoff. rewrite !copy_in_out_stretch. unfold stretch_result.
  cbn [fst snd]. f_equal.
  - apply process_data_eq; fields; try reflexivity.
    + unfold stretch_input_rings. apply imap_ext. intros c rb _. cbv beta.
      rewrite (channel_samples_glue_l p) by assumption. reflexivity.
    + unfold stretch_sidechain_rings. apply imap_ext. intros c rb _. cbv beta.
      rewrite (channel_samples_glue_l p) by assumption. reflexivity.
  - unfold glue. cbn [getNumSamples channels]. f_equal.
    unfold stretch_channels. apply imap_zip_app_l.
    intros c lc rc HL HR.
    pose proof (fit_length_l p l r c lc Hfit HL) as Hlc.
    case_decide; [|reflexivity].
    destruct (output_gate p pd).
    + destruct (output_ring_buffers pd !! c); [|reflexivity].
      apply splice_app_l. rewrite length_copy_n_to. lia.
    + apply splice_app_l. rewrite length_replicate. lia.
Qed.

Lemma copy_in_out_glue_r p off n pd l r :
  fit p l r ->
  copy_in_out p (getNumSamples l + off) n (pd, glue l r)
  = (fst (copy_in_out p off n (pd, r)),
     glue l (snd (copy_in_out p off n (pd, r)))).
Proof.
  intros Hfit. rewrite !copy_in_out_stretch. unfold stretch_result.
  cbn [fst snd]. f_equal.
  - apply process_data_eq; fields; try reflexivity.
    + unfold stretch_input_rings. apply imap_ext. intros c rb _. cbv beta.
      rewrite (channel_samples_glue_r p) by assumption. reflexivity.
    + unfold stretch_sidechain_rings. apply imap_ext. intros c rb _. cbv beta.
      rewrite (channel_samples_glue_r p) by assumption. reflexivity.
  - unfold glue. cbn [getNumSamples channels]. f_equal.
    unfold stretch_channels. apply imap_zip_app_r.
    intros c lc rc HL HR.
    pose proof (fit_length_l p l r c lc Hfit HL) as Hlc.
    assert (Hshift : N.to_nat (getNumSamples l + off)
                     = (length lc + N.to_nat off)%nat) by lia.
    case_decide; [|reflexivity].
    destruct (output_gate p pd).
    + destruct (output_ring_buffers pd !! c); [|reflexivity].
      apply splice_app_r. assumption.
    + apply splice_app_r. assumption.
Qed.

Lemma fit_same_shape_l p l l' r :
  fit p l r -> same_shape l l' -> fit p l' r.
Proof.
  intros (Hl & Hr & Hlen) Hshape. split; [|split].
  - exact (same_shape_ok p l l' Hl Hshape).
  - assumption.
  - destruct Hshape as (_ & H & _). congruence.
Qed.

Lemma fit_same_shape_r p l r r' :
  fit p l r -> same_shape r r' -> fit p l r'.
Proof.
  intros (Hl & Hr & Hlen) Hshape. split; [|split].
  - assumption.
  - exact (same_shape_ok p r r' Hr Hshape).
  - destruct Hshape as (_ & H & _). congruence.
Qed.

Lemma copy_in_out_same_shape p off n pd b :
  buffer_ok p b -> (off + n <= getNumSamples b)%N ->
  same_shape b (snd (copy_in_out p off n (pd, b))).
Proof.
  intros (Hch & Hlen & Hsmall) Hoff.
  rewrite copy_in_out_stretch. unfold stretch_result, same_shape, stretch_channels.
  fields. split; [reflexivity|]. split; [apply length_imap|].
  rewrite Forall_lookup in Hlen |- *. intros c ch' Hc'.
  rewrite list_lookup_imap in Hc'.
  destruct (channels b !! c) as [ch|] eqn:Hc; [|discriminate].
  cbn in Hc'. injection Hc' as <-.
  pose proof (Hlen c ch Hc) as Hl.
  case_decide; [|assumption].
  destruct (output_gate p pd).
  - destruct (output_ring_buffers pd !! c); [|assumption].
    rewrite length_splice; [assumption|].
    rewrite length_copy_n_to. lia.
  - rewrite length_splice; [assumption|].
    rewrite length_replicate. lia.
Qed.

Lemma tick_same_shape process_fn p off pd b :
  buffer_ok p b -> (off + 1 <= getNumSamples b)%N ->
  same_shape b (snd (tick process_fn p off (pd, b))).
Proof.
  intros Hok Hoff. unfold tick, process_window. cbn [fst].
  destruct (window_due p pd); apply copy_in_out_same_shape; assumption.
Qed.

Lemma tick_glue_l process_fn p off pd l r :
  fit p l r -> (off + 1 <= getNumSamples l)%N ->
  tick process_fn p off (pd, glue l r)
  = (fst (tick process_fn p off (pd, l)),
     glue (snd (tick process_fn p off (pd, l))) r).
Proof.
  intros Hfit Hoff. unfold tick, process_window. cbn [fst].
  destruct (window_due p pd); apply copy_in_out_glue_l; assumption.
Qed.

Lemma tick_glue_r process_fn p off pd l r :
  fit p l r ->
  tick process_fn p (getNumSamples l + off) (pd, glue l r)
  = (fst (tick process_fn p off (pd, r)),
     glue l (snd (tick process_fn p off (pd, r)))).
Proof.
  intros Hfit. unfold tick, process_window. cbn [fst].
  destruct (window_due p pd); apply copy_in_out_glue_r; assumption.
Qed.

Lemma ticks_glue_l process_fn p n : forall off pd l r,
  fit p l r -> (off + N.of_nat n <= getNumSamples l)%N ->
  ticks process_fn p n off (pd, glue l r)
  = (fst (ticks process_fn p n off (pd, l)),
     glue (snd (ticks process_fn p n off (pd, l))) r).
Proof.
  induction n as [|n IH]; intros off pd l r Hfit Hoff; cbn [ticks].
  - reflexivity.
  - rewrite tick_glue_l by (assumption || lia).
    pose proof (tick_same_shape process_fn p off pd l ltac:(apply Hfit)
                  ltac:(lia)) as Hshape.
    destruct (tick process_fn p off (pd, l)) as [pd1 l1]. cbn [fst snd] in *.
    apply IH.
    + eapply fit_same_shape_l; eassumption.
    + destruct Hshape as (-> & _). lia.
Qed.

Lemma ticks_glue_r process_fn p n : forall off pd l r,
  fit p l r -> (off + N.of_nat n <= getNumSamples r)%N ->
  ticks process_fn p n (getNumSamples l + off) (pd, glue l r)
  = (fst (ticks process_fn p n off (pd, r)),
     glue l (snd (ticks process_fn p n off (pd, r)))).
Proof.
  induction n as [|n IH]; intros off pd l r Hfit Hoff; cbn [ticks].
  - reflexivity.
  - rewrite tick_glue_r by assumption.
    pose proof (tick_same_shape process_fn p off pd r ltac:(apply Hfit)
                  ltac:(lia)) as Hshape.
    destruct (tick process_fn p off (pd, r)) as [pd1 r1]. cbn [fst snd] in *.
    rewrite <- N.add_assoc. apply IH.
    + eapply fit_same_shape_r; eassumption.
    + destruct Hshape as (-> & _). lia.
Qed.

Lemma alter_zip_app (f fl fr : list F -> list F) (c : nat) (L R : list (list F)) :
  (forall lc rc, L !! c = Some lc -> R !! c = Some rc ->
                 f (lc ++ rc) = fl lc ++ fr rc) ->
  alter f c (zip_with app L R) = zip_with app (alter fl c L) (alter fr c R).
Proof.
  intros H. apply list_eq. intros i.
  destruct (decide (c = i)) as [->|Hne].
  - rewrite list_lookup_alter_eq, !lookup_zip_with, !list_lookup_alter_eq.
    destruct (L !! i) as [lc|]; [|reflexivity].
    destruct (R !! i) as [rc|]; [|reflexivity].
    cbn. rewrite (H lc rc eq_refl eq_refl). reflexivity.
  - rewrite list_lookup_alter_ne, !lookup_zip_with, !list_lookup_alter_ne
      by assumption.
    reflexivity.
Qed.

Lemma splice_all ch n :
  length ch = n -> splice ch 0 (replicate n f_zero) = replicate n f_zero.
Proof.
  intros Hn. unfold splice. cbn [N.to_nat take app Nat.add].
  rewrite length_replicate, drop_ge by lia. apply app_nil_r.
Qed.

Lemma clear_glue p l r c :
  fit p l r ->
  clear (glue l r) c 0 (getNumSamples l + getNumSamples r)
  = glue (clear l c 0 (getNumSamples l)) (clear r c 0 (getNumSamples r)).
Proof.
  intros Hfit. unfold clear, write_samples, glue. cbn [getNumSamples channels].
  f_equal. apply alter_zip_app. intros lc rc HL HR.
  destruct (fit_lookup p l r c Hfit)
    as [(lc' & rc' & HL' & HR' & Hlc & Hrc)|[HL' _]]; [|congruence].
  assert (lc' = lc) by congruence. assert (rc' = rc) by congruence.
  subst lc' rc'.
  rewrite !splice_all by (rewrite ?length_app; lia).
  replace (N.to_nat (getNumSamples l + getNumSamples r))
    with (N.to_nat (getNumSamples l) + N.to_nat (getNumSamples r))%nat by lia.
  apply replicate_add.
Qed.

Lemma clears_glue p nl nr chs : forall l r,
  fit p l r -> getNumSamples l = nl -> getNumSamples r = nr ->
  foldl (fun b' channel => clear b' channel 0 (nl + nr)) (glue l r) chs
  = glue (foldl (fun b' channel => clear b' channel 0 nl) l chs)
      (foldl (fun b' channel => clear b' channel 0 nr) r chs).
Proof.
  induction chs as [|c chs IH]; intros l r Hfit Hl Hr; cbn [foldl].
  - reflexivity.
  - rewrite <- Hl, <- Hr at 1. rewrite (clear_glue p) by assumption.
    rewrite Hl, Hr.
    pose proof (clear_same_shape p l c ltac:(apply Hfit)) as Hsl.
    pose proof (clear_same_shape p r c ltac:(apply Hfit)) as Hsr.
    rewrite Hl in Hsl. rewrite Hr in Hsr.
    apply IH.
    + eapply fit_same_shape_l; [|exact Hsl].
      eapply fit_same_shape_r; [|exact Hsr]. assumption.
    + destruct Hsl as (-> & _). assumption.
    + destruct Hsr as (-> & _). assumption.
Qed.

Lemma clear_unused_glue p l r :
  fit p l r ->
  clear_unused p (glue l r) = glue (clear_unused p l) (clear_unused p r).
Proof.
  intros Hfit. unfold clear_unused.
  apply (clears_glue p); [assumption|reflexivity|reflexivity].
Qed.

Lemma glue_ok p l r :
  fit p l r -> (getNumSamples l + getNumSamples r < 2 ^ 24)%N ->
  buffer_ok p (glue l r).
Proof.
  intros Hfit Hsmall. pose proof Hfit as ((Hch & _ & _) & _ & Hlen).
  unfold buffer_ok, glue. cbn [getNumSamples channels].
  split; [|split; [|assumption]].
  - rewrite length_zip_with. lia.
  - rewrite Forall_lookup. intros c ch Hc. rewrite lookup_zip_with in Hc.
    destruct (fit_lookup p l r c Hfit)
      as [(lc & rc & HL & HR & Hlc & Hrc)|[HL HR]];
      rewrite HL, HR in Hc; cbn in Hc; [|discriminate].
    injection Hc as <-. rewrite length_app. lia.
Qed.

(** A block given as two: the second call of [do_stft] goes on where the
    first one ended. *)
Lemma do_stft_glue process_fn p W t pd l r :
  stage_keeps_input process_fn ->
  (0 < windowing_interval W (windowing_overlap_times p))%N ->
  (W mod windowing_interval W (windowing_overlap_times p) = 0)%N ->
  (W < 2 ^ 24)%N ->
  synced W t pd -> fit p l r ->
  (getNumSamples l + getNumSamples r < 2 ^ 24)%N ->
  let first := fst (do_stft process_fn p l pd) in
  let second := fst (do_stft process_fn p r (fst first)) in
  fst (do_stft process_fn p (glue l r) pd)
  = (fst second, glue (snd first) (snd second)) /\
  synced W (t + getNumSamples l) (fst first) /\
  same_shape l (snd first) /\ same_shape r (snd second).
Proof.
  intros Hstage Hhop Hdiv HW Hs Hfit Hsmall first second.
  pose proof Hfit as (Hokl & Hokr & Hlen).
  pose proof (glue_ok p l r Hfit Hsmall) as Hokg.
  assert (Hcl : same_shape l (clear_unused p l))
    by apply (clear_unused_same_shape p), Hokl.
  assert (Hcr : same_shape r (clear_unused p r))
    by apply (clear_unused_same_shape p), Hokr.
  assert (Hfitc : fit p (clear_unused p l) (clear_unused p r)).
  { eapply fit_same_shape_l; [|exact Hcl].
    eapply fit_same_shape_r; [|exact Hcr]. assumption. }
  assert (Hnl : getNumSamples (clear_unused p l) = getNumSamples l)
    by apply Hcl.
  assert (Hnr : getNumSamples (clear_unused p r) = getNumSamples r)
    by apply Hcr.
  (* the first block *)
  pose proof (do_stft_ticks process_fn p W Hstage Hhop Hdiv t pd l Hs Hokl HW)
    as Hfirst.
  fold first in Hfirst.
  destruct (ticks_synced process_fn p W Hstage Hhop Hdiv
              (N.to_nat (getNumSamples l)) t 0 pd (clear_unused p l) Hs
              ltac:(apply Hfitc) ltac:(lia)) as [Hs1 Hshape1].
  rewrite <- Hfirst, N2Nat.id in Hs1. rewrite <- Hfirst in Hshape1.
  (* the second block *)
  pose proof (do_stft_ticks process_fn p W Hstage Hhop Hdiv
                (t + getNumSamples l) (fst first) r Hs1 Hokr HW) as Hsecond.
  fold second in Hsecond.
  destruct (ticks_synced process_fn p W Hstage Hhop Hdiv
              (N.to_nat (getNumSamples r)) (t + getNumSamples l) 0 (fst first)
              (clear_unused p r) Hs1 ltac:(apply Hfitc) ltac:(lia))
    as [_ Hshape2].
  rewrite <- Hsecond in Hshape2.
  split; [|split; [assumption|split]].
  - rewrite (do_stft_ticks process_fn p W Hstage Hhop Hdiv t pd (glue l r)
               Hs Hokg HW).
    rewrite clear_unused_glue by assumption.
    change (getNumSamples (glue l r)) with (getNumSamples l + getNumSamples r)%N.
    replace (N.to_nat (getNumSamples l + getNumSamples r))
      with (N.to_nat (getNumSamples l) + N.to_nat (getNumSamples r))%nat by lia.
    rewrite ticks_add, N2Nat.id, N.add_0_l.
    rewrite (ticks_glue_l process_fn p _ 0 pd _ _ Hfitc) by lia.
    rewrite <- Hfirst.
    assert (Hfit1 : fit p (snd first) (clear_unused p r)).
    { eapply fit_same_shape_l; [exact Hfitc|exact Hshape1]. }
    assert (Hn1 : getNumSamples (snd first) = getNumSamples l).
    { destruct Hshape1 as (-> & _). assumption. }
    rewrite <- Hn1 at 1. rewrite <- (N.add_0_r (getNumSamples (snd first))).
    rewrite (ticks_glue_r process_fn p _ 0 (fst first) _ _ Hfit1) by lia.
    rewrite <- Hsecond. reflexivity.
  - eapply same_shape_trans; eassumption.
  - eapply same_shape_trans; eassumption.
Qed.

(** A stream of blocks end to end, from a block of no samples on. *)
Definition no_samples (nch : nat) : AudioBuffer :=
  {| getNumSamples := 0; channels := replicate nch [] |}.

Definition glue_all (nch : nat) (bs : list AudioBuffer) : AudioBuffer :=
  foldr glue (no_samples nch) bs.

(** Blocks the host may pass: [nch] channels each. *)
Definition blocks_ok (p : Processor) (nch : nat) (bs : list AudioBuffer) : Prop :=
  (0 < getMainBusNumInputChannels p <= nch)%nat /\
  Forall (fun b => buffer_ok p b /\ length (channels b) = nch) bs.

Lemma no_samples_ok p nch :
  (0 < getMainBusNumInputChannels p <= nch)%nat -> buffer_ok p (no_samples nch).
Proof.
  intros Hch. unfold buffer_ok, no_samples. cbn [getNumSamples channels].
  rewrite length_replicate. split; [assumption|]. split; [|reflexivity].
  apply Forall_replicate. reflexivity.
Qed.

Lemma clear_unused_no_samples p nch :
  clear_unused p (no_samples nch) = no_samples nch.
Proof.
  unfold clear_unused.
  apply (foldl_invariant (fun b => b = no_samples nch)); [|reflexivity].
  intros b c ->. unfold clear, write_samples, no_samples.
  cbn [getNumSamples channels]. f_equal.
  apply list_alter_id. intros ch. unfold splice.
  change (N.to_nat 0) with 0%nat. reflexivity.
Qed.

Lemma glue_all_ok p nch bs :
  blocks_ok p nch bs -> (getNumSamples (glue_all nch bs) < 2 ^ 24)%N ->
  buffer_ok p (glue_all nch bs) /\ length (channels (glue_all nch bs)) = nch.
Proof.
  intros [Hch Hbs]. induction Hbs as [|b bs [Hb Hn] Hbs IH]; intros Hsmall;
    cbn [glue_all foldr] in *.
  - split; [apply no_samples_ok; assumption|].
    unfold no_samples. cbn [channels]. apply length_replicate.
  - fold (glue_all nch bs) in *.
    change (getNumSamples (glue b (glue_all nch bs)))
      with (getNumSamples b + getNumSamples (glue_all nch bs))%N in Hsmall.
    destruct (IH ltac:(lia)) as [Hok Hlen].
    assert (Hfit : fit p b (glue_all nch bs)).
    { split; [assumption|]. split; [assumption|]. congruence. }
    split; [apply glue_ok; assumption|].
    unfold glue. cbn [channels]. rewrite length_zip_with. lia.
Qed.

Lemma run_blocks_glue process_fn p W nch :
  stage_keeps_input process_fn ->
  (0 < windowing_interval W (windowing_overlap_times p))%N ->
  (W mod windowing_interval W (windowing_overlap_times p) = 0)%N ->
  (W < 2 ^ 24)%N ->
  forall bs t pd,
    synced W t pd -> blocks_ok p nch bs ->
    (getNumSamples (glue_all nch bs) < 2 ^ 24)%N ->
    fst (do_stft process_fn p (glue_all nch bs) pd)
    = (fst (run_blocks process_fn p pd bs),
       glue_all nch (snd (run_blocks process_fn p pd bs))).
Proof.
  intros Hstage Hhop Hdiv HW.
  induction bs as [|b bs IH]; intros t pd Hs Hbs Hsmall.
  - cbn [glue_all foldr run_blocks fst snd].
    rewrite (do_stft_ticks process_fn p W Hstage Hhop Hdiv t pd _ Hs
               (no_samples_ok p nch ltac:(apply Hbs)) HW).
    cbn [no_samples getNumSamples N.to_nat ticks].
    fold (no_samples nch). rewrite clear_unused_no_samples. reflexivity.
  - destruct Hbs as [Hch Hbs]. apply Forall_cons in Hbs as [[Hb Hn] Hbs].
    cbn [glue_all foldr] in *. fold (glue_all nch bs) in *.
    change (getNumSamples (glue b (glue_all nch bs)))
      with (getNumSamples b + getNumSamples (glue_all nch bs))%N in Hsmall.
    destruct (glue_all_ok p nch bs (conj Hch Hbs) ltac:(lia)) as [Hok Hlen].
    assert (Hfit : fit p b (glue_all nch bs)).
    { split; [assumption|]. split; [assumption|]. congruence. }
    destruct (do_stft_glue process_fn p W t pd b (glue_all nch bs) Hstage Hhop
                Hdiv HW Hs Hfit Hsmall) as (Hglue & Hs1 & _ & _).
    cbv zeta in Hglue. rewrite Hglue.
    rewrite (IH (t + getNumSamples b)%N _ Hs1 (conj Hch Hbs) ltac:(lia)).
    cbn [run_blocks].
    destruct (do_stft process_fn p b pd) as [[pd1 b1] off]. cbn [fst snd].
    destruct (run_blocks process_fn p pd1 bs) as [pd2 outs]. reflexivity.
Qed.

(** X3. When the hop divides the window size (an overlap that is a power
    of two), the working set is left in the same state, and the host is
    given the same output samples, whichever way a stream of fewer than
    [2^24] samples is cut into blocks. *)
Theorem chunking_does_not_matter process_fn p W t pd nch bs bs' :
  stage_keeps_input process_fn ->
  (0 < windowing_interval W (windowing_overlap_times p))%N ->
  (W mod windowing_interval W (windowing_overlap_times p) = 0)%N ->
  (W < 2 ^ 24)%N ->
  synced W t pd ->
  blocks_ok p nch bs -> blocks_ok p nch bs' ->
  (getNumSamples (glue_all nch bs) < 2 ^ 24)%N ->
  glue_all nch bs = glue_all nch bs' ->
  fst (run_blocks process_fn p pd bs) = fst (run_blocks process_fn p pd bs') /\
  glue_all nch (snd (run_blocks process_fn p pd bs))
  = glue_all nch (snd (run_blocks process_fn p pd bs')).
Proof.
  intros Hstage Hhop Hdiv HW Hs Hbs Hbs' Hsmall Heq.
  pose proof (run_blocks_glue process_fn p W nch Hstage Hhop Hdiv HW bs t pd Hs
                Hbs Hsmall) as H1.
  pose proof (run_blocks_glue process_fn p W nch Hstage Hhop Hdiv HW bs' t pd Hs
                Hbs' ltac:(rewrite <- Heq; exact Hsmall)) as H2.
  rewrite Heq, H2 in H1. injection H1 as H3 H4. auto.
Qed.

(** ** One block, stretch by stretch

    A block of fewer than [2^24] samples is handled as a first stretch up
    to the next window boundary and then one stretch per window, the last
    of them cut at the end of the block. What holds at the start and is
    kept by every stretch holds at the end. *)

Lemma window_loop_induction process_fn p hop num_samples already
    (Q : N -> ProcessData * AudioBuffer -> Prop) :
  (0 < hop)%N ->
  (forall j off st, Q off st -> (off < num_samples)%N ->
     off = (already + N.of_nat j * hop)%N ->
     Q (off + N.min hop (num_samples - off))%N
       (process_window process_fn p off (N.min hop (num_samples - off)) st)) ->
  forall k off st,
    (off <= num_samples)%N ->
    N.of_nat k = ceil_div (num_samples - off) hop ->
    ((off < num_samples)%N -> exists j, off = (already + N.of_nat j * hop)%N) ->
    Q off st ->
    Q num_samples
      (fst (window_loop (process_window process_fn p) k hop num_samples off st)).
Proof.
  intros Hhop Hwindow.
  induction k as [|k IH]; intros off st Hoff Hk Hal HQ; cbn [window_loop].
  - assert (Heq : off = num_samples).
    { destruct (N.eq_dec (num_samples - off)%N 0%N) as [Hz|Hnz]; [lia|].
      pose proof (ceil_div_pos (num_samples - off)%N hop Hhop ltac:(lia)). lia. }
    subst off. exact HQ.
  - assert (Hlt : (off < num_samples)%N).
    { destruct (N.eq_dec (num_samples - off)%N 0%N) as [Hz|Hnz]; [|lia].
      rewrite Hz, ceil_div_0 in Hk by assumption. lia. }
    destruct (Hal Hlt) as [j Hj].
    unfold samples_to_process_this_iteration.
    apply IH.
    + lia.
    + destruct (N.le_gt_cases hop (num_samples - off)%N) as [Hfull|Hpart].
      * rewrite N.min_l by assumption.
        replace (num_samples - (off + hop))%N
          with (num_samples - off - hop)%N by lia.
        rewrite ceil_div_sub by assumption. lia.
      * rewrite N.min_r by lia.
        rewrite (ceil_div_small (num_samples - off)%N hop) in Hk by lia.
        replace (num_samples - (off + (num_samples - off)))%N with 0%N by lia.
        rewrite ceil_div_0 by assumption. lia.
    + intros Hmore. exists (S j). lia.
    + apply (Hwindow j); assumption.
Qed.

Lemma do_stft_induction process_fn p b pd
    (Q : N -> ProcessData * AudioBuffer -> Prop) :
  let hop := windowing_interval (fft_window_size pd) (windowing_overlap_times p) in
  let already :=
    already_processed_samples (getNumSamples b)
      (from_option pos 0%N (input_ring_buffers pd !! 0%nat)) hop in
  (getNumSamples b < 2 ^ 24)%N ->
  (0 < hop < 2 ^ 24)%N ->
  Q 0%N (pd, clear_unused p b) ->
  (forall st, Q 0%N st -> (0 < already)%N ->
     Q already (copy_in_out p 0 already st)) ->
  (forall j off st, Q off st -> (off < getNumSamples b)%N ->
     off = (already + N.of_nat j * hop)%N ->
     Q (off + N.min hop (getNumSamples b - off))%N
       (process_window process_fn p off (N.min hop (getNumSamples b - off)) st)) ->
  Q (getNumSamples b) (fst (do_stft process_fn p b pd)).
Proof.
  intros hop already Hsmall Hhop Hstart Hfirst Hwindow.
  unfold do_stft. fold (clear_unused p b). fold hop. fold already.
  unfold samples_to_be_processed.
  assert (Hal : (already <= getNumSamples b)%N) by apply N.le_min_l.
  rewrite windows_to_process_exact by lia.
  rewrite to_nat_of_N.
  set (first := if (0 <? already)%N then _ else _).
  assert (H1 : Q already (fst first) /\ snd first = already).
  { subst first. destruct (N.ltb_spec 0 already) as [Hpos|Hzero]; cbn [fst snd].
    - split; [apply Hfirst; assumption|reflexivity].
    - assert (Hz : already = 0%N) by lia. rewrite Hz. split; [assumption|reflexivity]. }
  destruct first as [st off]. cbn [fst snd] in H1. destruct H1 as [H1 ->].
  pose proof (window_loop_induction process_fn p hop (getNumSamples b) already Q
                ltac:(lia) Hwindow
                (N.to_nat (ceil_div (getNumSamples b - already)%N hop)) already st
                Hal ltac:(rewrite N2Nat.id; reflexivity)
                ltac:(intros _; exists 0%nat; lia) H1) as Hloop.
  destruct (window_loop _ _ _ _ _ _) as [[pd' b'] off'].
  exact Hloop.
Qed.

(** ** What a block leaves in the ring buffers of the input

    The samples of a main channel go to the channel's input ring buffer
    stretch by stretch; the stretches follow each other without a gap. *)

(** The state after the first [off] samples of the block [b], which
    started with the working set [pd]; the ring buffers of the sidechain
    are followed for a stage that leaves them alone ([keeps]). *)
Definition fed (keeps : Prop) (p : Processor) (b : AudioBuffer) (pd : ProcessData)
    (off : N) (st : ProcessData * AudioBuffer) : Prop :=
  input_ring_buffers (fst st)
  = stretch_input_rings b 0 off (getMainBusNumInputChannels p)
      (input_ring_buffers pd) /\
  (keeps ->
   sidechain_ring_buffers (fst st)
   = stretch_sidechain_rings p b 0 off (getMainBusNumInputChannels p)
       (sidechain_ring_buffers pd)) /\
  same_shape b (snd st) /\
  forall c, drop (N.to_nat off) (default [] (channels (snd st) !! c))
            = drop (N.to_nat off) (default [] (channels b !! c)).

Lemma fed_start keeps p b pd : buffer_ok p b -> fed keeps p b pd 0 (pd, b).
Proof.
  intros Hok. unfold fed. cbn [fst snd].
  unfold stretch_input_rings, stretch_sidechain_rings.
  rewrite !imap_nothing.
  - split; [reflexivity|]. split; [reflexivity|].
    split; [eapply same_shape_refl, Hok|reflexivity].
  - intros c rb. case_decide; [|reflexivity].
    destruct (sidechain_active p); reflexivity.
  - intros c rb. case_decide; reflexivity.
Qed.

Lemma drop_stretch_channels gate out_rings off n k b c :
  Forall (fun ch => (N.to_nat off <= length ch)%nat) (channels b) ->
  drop (N.to_nat (off + n))
    (default [] (stretch_channels gate out_rings off n k (channels b) !! c))
  = drop (N.to_nat (off + n)) (default [] (channels b !! c)).
Proof.
  intros Hlen. unfold stretch_channels. rewrite list_lookup_imap.
  destruct (channels b !! c) as [ch|] eqn:Hc; cbn; [|reflexivity].
  assert (Hoff : (N.to_nat off <= length ch)%nat).
  { rewrite Forall_lookup in Hlen. exact (Hlen _ _ Hc). }
  assert (Hdrop : forall xs, length xs = N.to_nat n ->
            drop (N.to_nat (off + n)) (splice ch off xs)
            = drop (N.to_nat (off + n)) ch).
  { intros xs Hxs.
    replace (N.to_nat (off + n)) with (N.to_nat off + length xs)%nat by lia.
    apply drop_splice. assumption. }
  case_decide; [|reflexivity].
  destruct gate.
  - destruct (out_rings !! c); [|reflexivity].
    apply Hdrop, length_copy_n_to.
  - apply Hdrop, length_replicate.
Qed.

Lemma fed_copy_in_out (keeps : Prop) p b pd off n pd1 b1 pd2 :
  buffer_ok p b -> (off + n <= getNumSamples b)%N ->
  fed keeps p b pd off (pd1, b1) ->
  input_ring_buffers pd2 = input_ring_buffers pd1 ->
  (keeps -> sidechain_ring_buffers pd2 = sidechain_ring_buffers pd1) ->
  fed keeps p b pd (off + n) (copy_in_out p off n (pd2, b1)).
Proof.
  intros Hok Hoff (H1 & H2 & H3 & H4) Hin Hside. cbn [fst snd] in *.
  pose proof (same_shape_ok p b b1 Hok H3) as Hok1.
  assert (Hn1 : getNumSamples b1 = getNumSamples b) by apply H3.
  assert (Hcs : forall c, channel_samples b1 c off n = channel_samples b c off n).
  { intros c. unfold channel_samples. rewrite H4. reflexivity. }
  pose proof (copy_in_out_same_shape p off n pd2 b1 Hok1 ltac:(lia)) as Hshape.
  rewrite copy_in_out_stretch in *. unfold stretch_result, fed in *. fields.
  split; [|split; [|split]].
  - rewrite Hin, H1. unfold stretch_input_rings. rewrite imap_imap.
    apply imap_ext. intros c rb _. cbv beta. case_decide; [|reflexivity].
    rewrite Hcs, channel_samples_add, N.add_0_l. symmetry. apply read_n_from_app.
  - intros Hk. rewrite (Hside Hk), (H2 Hk). unfold stretch_sidechain_rings.
    rewrite imap_imap.
    apply imap_ext. intros c rb _. cbv beta. case_decide; [|reflexivity].
    destruct (sidechain_active p); [|reflexivity].
    rewrite Hcs, channel_samples_add, N.add_0_l. symmetry. apply read_n_from_app.
  - eapply same_shape_trans; eassumption.
  - intros c. rewrite drop_stretch_channels.
    + replace (N.to_nat (off + n)) with (N.to_nat off + N.to_nat n)%nat by lia.
      rewrite <- !drop_drop, H4. reflexivity.
    + apply (buffer_ok_lengths p); [assumption|lia].
Qed.

(** What zeroing the output channels without an input comes to. *)
Lemma clears_lookup num_samples len : forall start b c,
  channels (foldl (fun b' channel => clear b' channel 0 num_samples) b
              (seq start len)) !! c
  = (fun ch => if decide (start <= c < start + len)%nat
               then splice ch 0 (replicate (N.to_nat num_samples) f_zero)
               else ch) <$> channels b !! c.
Proof.
  induction len as [|len IH]; intros start b c.
  - cbn [seq foldl]. destruct (channels b !! c); cbn; [|reflexivity].
    case_decide; [lia|reflexivity].
  - cbn [seq foldl]. rewrite IH. unfold clear, write_samples.
    cbn [channels].
    destruct (decide (start = c)) as [->|Hne].
    + rewrite list_lookup_alter_eq. destruct (channels b !! c); cbn; [|reflexivity].
      repeat case_decide; try lia. reflexivity.
    + rewrite list_lookup_alter_ne by assumption.
      destruct (channels b !! c); cbn; [|reflexivity].
      repeat case_decide; try lia; reflexivity.
Qed.

Lemma clear_unused_lookup p b c :
  buffer_ok p b ->
  channels (clear_unused p b) !! c
  = (fun ch => if decide (getMainBusNumInputChannels p <= c
                          < getMainBusNumOutputChannels p)%nat
               then replicate (N.to_nat (getNumSamples b)) f_zero
               else ch) <$> channels b !! c.
Proof.
  intros (_ & Hlen & _). unfold clear_unused. rewrite clears_lookup.
  destruct (channels b !! c) as [ch|] eqn:Hc; cbn; [|reflexivity].
  rewrite Forall_lookup in Hlen. pose proof (Hlen c ch Hc) as Hl.
  repeat case_decide; try lia; try reflexivity.
  rewrite splice_all by assumption. reflexivity.
Qed.

Lemma channel_samples_clear_unused p b c off n :
  buffer_ok p b ->
  (c < getMainBusNumInputChannels p
   \/ getMainBusNumOutputChannels p <= c)%nat ->
  channel_samples (clear_unused p b) c off n = channel_samples b c off n.
Proof.
  intros Hok Hc. unfold channel_samples. rewrite clear_unused_lookup by assumption.
  destruct (channels b !! c); cbn; [|reflexivity].
  case_decide; [lia|reflexivity].
Qed.

Lemma channel_samples_all b c ch :
  channels b !! c = Some ch -> length ch = N.to_nat (getNumSamples b) ->
  channel_samples b c 0 (getNumSamples b) = ch.
Proof.
  intros Hc Hl. unfold channel_samples. rewrite Hc. cbn.
  apply take_ge. lia.
Qed.

(** The state a block leaves the working set in, as far as the ring buffers
    of the input go. *)
Lemma do_stft_fed process_fn p b pd :
  stage_keeps_input process_fn ->
  buffer_ok p b ->
  (0 < windowing_interval (fft_window_size pd) (windowing_overlap_times p)
   < 2 ^ 24)%N ->
  fed (forall pd n,
         sidechain_ring_buffers (process_fn pd n) = sidechain_ring_buffers pd)
    p (clear_unused p b) pd (getNumSamples b) (fst (do_stft process_fn p b pd)).
Proof.
  intros Hstage Hok Hhop.
  assert (Hshape0 : same_shape b (clear_unused p b))
    by apply (clear_unused_same_shape p), Hok.
  pose proof (same_shape_ok p b _ Hok Hshape0) as Hok1.
  assert (Hn1 : getNumSamples (clear_unused p b) = getNumSamples b)
    by apply Hshape0.
  apply (do_stft_induction process_fn p b pd (fed _ p (clear_unused p b) pd)).
  - apply Hok.
  - assumption.
  - apply fed_start. assumption.
  - intros [pd1 b1] Hfed Hpos.
    apply (fed_copy_in_out _ p _ pd 0 _ pd1 b1 pd1 Hok1); try reflexivity;
      [|assumption].
    rewrite Hn1. apply N.le_min_l.
  - intros j off [pd1 b1] Hfed Hlt Hoff. unfold process_window.
    destruct (Hstage pd1 (getMainBusNumInputChannels p)) as (_ & _ & Hin).
    apply (fed_copy_in_out _ p _ pd off _ pd1 b1 _ Hok1);
      [rewrite Hn1; lia|assumption|..].
    + fields. assumption.
    + intros Hside. fields. apply Hside.
Qed.

Lemma bypass_stage_keeps_sidechain p pd n :
  sidechain_ring_buffers (bypass_stage p pd n) = sidechain_ring_buffers pd.
Proof.
  unfold bypass_stage.
  apply (foldl_invariant
           (fun pd' => sidechain_ring_buffers pd' = sidechain_ring_buffers pd));
    [|reflexivity].
  intros pd' channel H. unfold bypass_channel. fields. exact H.
Qed.

Lemma spectral_stage_keeps_sidechain p pd n :
  sidechain_ring_buffers (spectral_stage p pd n) = sidechain_ring_buffers pd.
Proof.
  unfold spectral_stage.
  set (pd1 := if sidechain_active p then _ else _).
  assert (H1 : sidechain_ring_buffers pd1 = sidechain_ring_buffers pd).
  { subst pd1. destruct (sidechain_active p); [|reflexivity].
    unfold sidechain_thresholds.
    set (pd2 := foldl sidechain_channel pd (seq 0 n)).
    assert (H2 : sidechain_ring_buffers pd2 = sidechain_ring_buffers pd).
    { subst pd2.
      apply (foldl_invariant
               (fun pd' => sidechain_ring_buffers pd' = sidechain_ring_buffers pd));
        [|reflexivity].
      intros pd' channel H. unfold sidechain_channel, fft_forward. fields.
      exact H. }
    destruct (foldl (set_sidechain_threshold n) _ _) as [cs thresholds].
    fields. exact H2. }
  apply (foldl_invariant
           (fun pd' => sidechain_ring_buffers pd' = sidechain_ring_buffers pd));
    [|exact H1].
  intros pd' channel H.
  unfold spectral_channel, apply_window, fft_forward, fft_inverse. fields.
  destruct (compress_bins _ _ _) as [cs scratch]. fields. exact H.
Qed.

(** X4. A block of fewer than [2^24] samples, cut into stretches as the
    position of the first input ring buffer has it: every main channel of
    the block has gone to the input ring buffer of the channel, all of it,
    once and in order, as one [read_n_from] of the whole channel would
    leave it, so that all input ring buffers have moved on by the length
    of the block. With the sidechain on the same holds for the channels of
    the sidechain bus and their ring buffers; with the sidechain off these
    ring buffers are left alone. *)
Theorem block_goes_to_input_rings process_fn p b pd :
  stage_keeps_input process_fn ->
  (forall pd n,
     sidechain_ring_buffers (process_fn pd n) = sidechain_ring_buffers pd) ->
  buffer_ok p b ->
  (0 < windowing_interval (fft_window_size pd) (windowing_overlap_times p)
   < 2 ^ 24)%N ->
  let pd' := fst (fst (do_stft process_fn p b pd)) in
  (forall c rb ch,
     (c < getMainBusNumInputChannels p)%nat ->
     input_ring_buffers pd !! c = Some rb -> channels b !! c = Some ch ->
     input_ring_buffers pd' !! c = Some (read_n_from rb ch) /\
     ((current_pos rb < ring_size rb)%N ->
      current_pos (read_n_from rb ch)
      = ((current_pos rb + getNumSamples b) mod ring_size rb)%N)) /\
  length (input_ring_buffers pd') = length (input_ring_buffers pd) /\
  (sidechain_active p = true ->
   (getMainBusNumOutputChannels p <= getMainBusNumInputChannels p)%nat ->
   forall c rb ch,
     (c < getMainBusNumInputChannels p)%nat ->
     sidechain_ring_buffers pd !! c = Some rb ->
     channels b !! (getMainBusNumInputChannels p + c)%nat = Some ch ->
     sidechain_ring_buffers pd' !! c = Some (read_n_from rb ch)) /\
  (sidechain_active p = false ->
   sidechain_ring_buffers pd' = sidechain_ring_buffers pd).
Proof.
  intros Hstage Hside Hok Hhop pd'.
  pose proof (do_stft_fed process_fn p b pd Hstage Hok Hhop)
    as (H1 & H2 & _ & _).
  specialize (H2 Hside). fold pd' in H1, H2.
  assert (Hlen : forall c ch, channels b !! c = Some ch ->
                   length ch = N.to_nat (getNumSamples b)).
  { intros c ch Hc. destruct Hok as (_ & Hl & _).
    rewrite Forall_lookup in Hl. eapply Hl, Hc. }
  assert (Hn1 : getNumSamples (clear_unused p b) = getNumSamples b).
  { apply (clear_unused_same_shape p), Hok. }
  split; [|split; [|split]].
  - intros c rb ch Hc Hrb Hch.
    rewrite H1. unfold stretch_input_rings. rewrite list_lookup_imap, Hrb. cbn.
    case_decide; [|lia].
    rewrite channel_samples_clear_unused by (assumption || lia).
    rewrite (channel_samples_all b c ch Hch (Hlen c ch Hch)).
    split; [reflexivity|]. intros Hpos.
    rewrite current_pos_read_n_from by assumption.
    rewrite (Hlen c ch Hch), N2Nat.id. reflexivity.
  - rewrite H1. apply length_imap.
  - intros Hactive Hout c rb ch Hc Hrb Hch.
    rewrite H2. unfold stretch_sidechain_rings.
    rewrite list_lookup_imap, Hrb, Hactive. cbn.
    case_decide; [|lia].
    rewrite channel_samples_clear_unused by (assumption || lia).
    rewrite (channel_samples_all b _ ch Hch (Hlen _ ch Hch)). reflexivity.
  - intros Hoff. rewrite H2. unfold stretch_sidechain_rings. rewrite Hoff.
    apply imap_nothing. intros c rb. case_decide; reflexivity.
Qed.

(** ** Ring buffers, oldest sample first *)

(** The content of a ring buffer from the cursor on and around: the slot
    the next sample goes to, which holds the oldest one, comes first. *)
Definition ring_view (rb : RingBuffer) : list F :=
  drop (N.to_nat (current_pos rb)) (buffer rb)
  ++ take (N.to_nat (current_pos rb)) (buffer rb).

Lemma length_ring_view rb : length (ring_view rb) = length (buffer rb).
Proof. unfold ring_view. rewrite length_app, length_drop, length_take. lia. Qed.

Lemma ring_split rb :
  (current_pos rb < ring_size rb)%N ->
  exists A y B, buffer rb = A ++ y :: B /\ length A = N.to_nat (current_pos rb).
Proof.
  intros Hpos. unfold ring_size in Hpos.
  destruct (lookup_lt_is_Some_2 (buffer rb) (N.to_nat (current_pos rb))
              ltac:(lia)) as [y Hy].
  exists (take (N.to_nat (current_pos rb)) (buffer rb)), y,
    (drop (S (N.to_nat (current_pos rb))) (buffer rb)).
  split; [symmetry; apply take_drop_middle; assumption|].
  rewrite length_take. lia.
Qed.

Lemma ring_step_lt rb : (0 < ring_size rb)%N -> (ring_step rb < ring_size rb)%N.
Proof. intros H. unfold ring_step. apply N.mod_lt. lia. Qed.

Lemma ring_view_push rb x :
  (current_pos rb < ring_size rb)%N ->
  ring_view (push rb x) = drop 1 (ring_view rb) ++ [x].
Proof.
  intros Hpos. destruct (ring_split rb Hpos) as (A & y & B & Hbuf & HA).
  destruct rb as [buf q]. cbn [buffer current_pos] in *. subst buf.
  unfold ring_view, push, ring_step, ring_size. cbn [buffer current_pos].
  rewrite <- HA.
  rewrite insert_app_r_alt by lia. rewrite Nat.sub_diag.
  cbn [insert list_insert].
  rewrite drop_app_length, take_app_length.
  assert (Hq : q = N.of_nat (length A)) by lia.
  rewrite length_app.
  destruct B as [|z B]; cbn [length drop app].
  - replace ((q + 1) mod N.of_nat (length A + 1))%N with 0%N.
    + cbn [N.to_nat drop take app]. rewrite !app_nil_r. reflexivity.
    + rewrite Hq.
      replace (N.of_nat (length A) + 1)%N with (N.of_nat (length A + 1)) by lia.
      symmetry. apply N.Div0.mod_same.
  - rewrite N.mod_small by lia.
    replace (N.to_nat (q + 1)) with (length (A ++ [x])).
    2:{ rewrite length_app. cbn [length]. lia. }
    change (A ++ x :: z :: B) with (A ++ [x] ++ z :: B).
    rewrite app_assoc, drop_app_length, take_app_length.
    rewrite <- app_assoc. reflexivity.
Qed.

Lemma ring_view_read_n_from xs : forall rb,
  (current_pos rb < ring_size rb)%N ->
  ring_view (read_n_from rb xs) = drop (length xs) (ring_view rb ++ xs).
Proof.
  unfold read_n_from.
  induction xs as [|x xs IH]; intros rb Hpos; cbn [foldl length].
  - rewrite app_nil_r. reflexivity.
  - rewrite IH by (rewrite ring_size_push; apply ring_step_lt; lia).
    rewrite ring_view_push by assumption.
    assert (Hne : (0 < length (ring_view rb))%nat).
    { rewrite length_ring_view. unfold ring_size in Hpos. lia. }
    destruct (ring_view rb) as [|y v]; [cbn in Hne; lia|].
    cbn [drop app]. rewrite <- app_assoc. reflexivity.
Qed.

Lemma lookup_ring_view rb j :
  (current_pos rb < ring_size rb)%N -> (j < length (buffer rb))%nat ->
  ring_view rb !! j
  = buffer rb !! N.to_nat ((current_pos rb + N.of_nat j) mod ring_size rb)%N.
Proof.
  intros Hpos Hj. unfold ring_view, ring_size in *.
  set (L := length (buffer rb)) in *. set (q := current_pos rb) in *.
  destruct (decide (j < L - N.to_nat q)%nat) as [Hlt|Hge].
  - rewrite lookup_app_l by (rewrite length_drop; lia).
    rewrite lookup_drop, N.mod_small by lia. f_equal. lia.
  - rewrite lookup_app_r by (rewrite length_drop; lia).
    rewrite length_drop, lookup_take_lt by lia.
    f_equal.
    replace (q + N.of_nat j)%N with ((q + N.of_nat j - N.of_nat L) + 1 * N.of_nat L)%N
      by lia.
    rewrite N.Div0.mod_add, N.mod_small by lia. lia.
Qed.

Lemma copy_last_n_to_view rb n :
  (current_pos rb < ring_size rb)%N -> (n <= ring_size rb)%N ->
  copy_last_n_to rb n = drop (N.to_nat (ring_size rb - n)) (ring_view rb).
Proof.
  intros Hpos Hn. unfold copy_last_n_to.
  apply (list_eq_same_length _ _ (N.to_nat n)).
  - rewrite length_drop, length_ring_view. unfold ring_size in *. lia.
  - rewrite length_map, length_seq. reflexivity.
  - intros i x y Hi Hx Hy.
    rewrite list_lookup_fmap, lookup_seq_lt in Hx by assumption.
    cbn in Hx. injection Hx as <-.
    rewrite lookup_drop, lookup_ring_view in Hy
      by (assumption || unfold ring_size in *; lia).
    replace (current_pos rb + N.of_nat (N.to_nat (ring_size rb - n) + i))%N
      with (current_pos rb + ring_size rb - n + N.of_nat i)%N in Hy by lia.
    rewrite Hy. reflexivity.
Qed.







(** ** The channels a block leaves alone *)

Lemma window_loop_within {St} (P : St -> Prop) (body : N -> N -> St -> St)
    (hop num_samples : N) :
  (forall off n st, (off + n <= num_samples)%N -> P st -> P (body off n st)) ->
  forall k off st,
    (off <= num_samples)%N -> P st ->
    P (fst (window_loop body k hop num_samples off st)).
Proof.
  intros Hbody. induction k as [|k IH]; intros off st Hoff Hst;
    cbn [window_loop fst].
  - assumption.
  - unfold samples_to_process_this_iteration. apply IH; [lia|].
    apply Hbody; [lia|assumption].
Qed.

Lemma copy_in_out_other_channels p off n pd b c :
  (getMainBusNumInputChannels p <= c)%nat ->
  channels (snd (copy_in_out p off n (pd, b))) !! c = channels b !! c.
Proof.
  intros Hc. rewrite copy_in_out_stretch. unfold stretch_result. fields.
  unfold stretch_channels. rewrite list_lookup_imap.
  destruct (channels b !! c); cbn; [|reflexivity].
  case_decide; [lia|reflexivity].
Qed.

(** The buffer a block comes back in, whatever the stage and however many
    windows the driver runs. *)
Lemma do_stft_buffer process_fn p b pd :
  buffer_ok p b ->
  let out := snd (fst (do_stft process_fn p b pd)) in
  same_shape b out /\
  forall c, (getMainBusNumInputChannels p <= c)%nat ->
            channels out !! c = channels (clear_unused p b) !! c.
Proof.
  intros Hok out. subst out.
  assert (Hshape0 : same_shape b (clear_unused p b))
    by apply (clear_unused_same_shape p), Hok.
  pose proof (same_shape_ok p b _ Hok Hshape0) as Hok1.
  assert (Hn1 : getNumSamples (clear_unused p b) = getNumSamples b)
    by apply Hshape0.
  set (P := fun st : ProcessData * AudioBuffer =>
              same_shape b (snd st) /\
              forall c, (getMainBusNumInputChannels p <= c)%nat ->
                        channels (snd st) !! c = channels (clear_unused p b) !! c).
  assert (Hcopy : forall off n pd1 b1,
            (off + n <= getNumSamples b)%N -> P (pd1, b1) ->
            P (copy_in_out p off n (pd1, b1))).
  { intros off n pd1 b1 Hoff [Hs Hc]. cbn [snd] in Hs, Hc.
    pose proof (same_shape_ok p b b1 Hok Hs) as Hokb.
    assert (Hnb : getNumSamples b1 = getNumSamples b) by apply Hs.
    split.
    - eapply same_shape_trans; [exact Hs|].
      apply copy_in_out_same_shape; [assumption|lia].
    - intros c Hge. rewrite copy_in_out_other_channels by assumption.
      apply Hc, Hge. }
  unfold do_stft. fold (clear_unused p b).
  set (hop := windowing_interval _ _).
  set (already := already_processed_samples _ _ _).
  assert (Hal : (already <= getNumSamples b)%N) by apply N.le_min_l.
  set (first := if (0 <? already)%N then _ else _).
  assert (H1 : P (fst first) /\ snd first = already).
  { subst first. destruct (N.ltb_spec 0 already) as [Hpos|Hzero]; cbn [fst snd].
    - split; [|reflexivity]. apply Hcopy; [lia|].
      split; [assumption|reflexivity].
    - split; [|lia]. split; [assumption|reflexivity]. }
  destruct first as [st off]. cbn [fst snd] in H1. destruct H1 as [H1 ->].
  pose proof (window_loop_within P (process_window process_fn p) hop
                (getNumSamples b)
                ltac:(intros off n [pd1 b1] Hoff HP; unfold process_window;
                      apply Hcopy; [assumption|exact HP])
                (Z.to_nat
                   (windows_to_process
                      (samples_to_be_processed (getNumSamples b) already) hop))
                already st Hal H1) as Hloop.
  destruct (window_loop _ _ _ _ _ _) as [[pd' b'] off'].
  exact Hloop.
Qed.

(** X5. Whatever the stage does and however many windows a block takes,
    the host gets its buffer back with the same number of channels and of
    samples; the channels of the output bus that have no input channel
    hold silence; and every channel beyond the input and the output bus
    (the sidechain, when the main buses have the same number of channels)
    is handed back as it came. *)
Theorem unused_channels_are_zeroed process_fn p b pd :
  buffer_ok p b ->
  let out := snd (fst (do_stft process_fn p b pd)) in
  (getNumSamples out = getNumSamples b /\
   length (channels out) = length (channels b) /\
   Forall (fun ch => length ch = N.to_nat (getNumSamples b)) (channels out)) /\
  (forall c,
     (getMainBusNumInputChannels p <= c < getMainBusNumOutputChannels p)%nat ->
     (c < length (channels b))%nat ->
     channels out !! c = Some (replicate (N.to_nat (getNumSamples b)) f_zero)) /\
  (forall c,
     (getMainBusNumInputChannels p <= c)%nat ->
     (getMainBusNumOutputChannels p <= c)%nat ->
     channels out !! c = channels b !! c).
Proof.
  intros Hok out.
  destruct (do_stft_buffer process_fn p b pd Hok) as [Hshape Hrest].
  fold out in Hshape, Hrest.
  split; [exact Hshape|]. split.
  - intros c Hc Hlen. rewrite Hrest by lia.
    rewrite clear_unused_lookup by assumption.
    destruct (lookup_lt_is_Some_2 _ _ Hlen) as [ch ->]. cbn.
    case_decide; [reflexivity|lia].
  - intros c Hin Hout. rewrite Hrest by assumption.
    rewrite clear_unused_lookup by assumption.
    destruct (channels b !! c); cbn; [|reflexivity].
    case_decide; [lia|reflexivity].
Qed.

(** ** The newest window

    A channel of a run of blocks, end to end, as the host hands it in. *)
Definition input_stream (channel : nat) (blocks : list AudioBuffer) : list F :=
  concat (map (fun b => default [] (channels b !! channel)) blocks).

(** The input ring buffers of the main channels after the samples
    [s channel] since the rebuild: oldest first, they hold the newest [W]
    of them, after silence. *)
Definition holds_newest (p : Processor) (W : N) (s : nat -> list F)
    (pd : ProcessData) : Prop :=
  fft_window_size pd = W /\
  forall c, (c < getMainBusNumInputChannels p)%nat ->
    exists rb, input_ring_buffers pd !! c = Some rb /\
               ring_size rb = W /\ (current_pos rb < W)%N /\
               ring_view rb
               = drop (length (s c)) (replicate (N.to_nat W) f_zero ++ s c).

Lemma do_stft_holds_newest process_fn p W s b pd :
  stage_keeps_input process_fn ->
  buffer_ok p b ->
  (0 < windowing_interval W (windowing_overlap_times p) < 2 ^ 24)%N ->
  holds_newest p W s pd ->
  holds_newest p W (fun c => s c ++ default [] (channels b !! c))
    (fst (fst (do_stft process_fn p b pd))).
Proof.
  intros Hstage Hok Hhop [HW Hrings].
  rewrite <- HW in Hhop.
  pose proof (do_stft_fed process_fn p b pd Hstage Hok Hhop) as (H1 & _ & _ & _).
  split.
  - rewrite do_stft_window_size by assumption. exact HW.
  - intros c Hc. destruct (Hrings c Hc) as (rb & Hrb & Hsize & Hpos & Hview).
    destruct Hok as (Hch & Hlen & Hsmall).
    destruct (lookup_lt_is_Some_2 (channels b) c ltac:(lia)) as [ch Hcch].
    assert (Hl : length ch = N.to_nat (getNumSamples b)).
    { rewrite Forall_lookup in Hlen. eapply Hlen, Hcch. }
    exists (read_n_from rb ch).
    rewrite H1. unfold stretch_input_rings. rewrite list_lookup_imap, Hrb. cbn.
    case_decide; [|lia].
    rewrite channel_samples_clear_unused by (repeat split; assumption || lia).
    rewrite (channel_samples_all b c ch Hcch Hl).
    split; [reflexivity|]. split; [rewrite ring_size_read_n_from; exact Hsize|].
    split.
    + rewrite current_pos_read_n_from by (rewrite Hsize; exact Hpos).
      rewrite Hsize. apply N.mod_lt. lia.
    + rewrite ring_view_read_n_from by (rewrite Hsize; exact Hpos).
      rewrite Hview, Hcch. cbn [default from_option id].
      rewrite <- drop_app_le by (rewrite length_app; lia).
      rewrite drop_drop, <- app_assoc, length_app. reflexivity.
Qed.

Lemma run_blocks_holds_newest process_fn p W :
  stage_keeps_input process_fn ->
  (0 < windowing_interval W (windowing_overlap_times p) < 2 ^ 24)%N ->
  forall blocks s pd,
    Forall (buffer_ok p) blocks ->
    holds_newest p W s pd ->
    holds_newest p W (fun c => s c ++ input_stream c blocks)
      (fst (run_blocks process_fn p pd blocks)).
Proof.
  intros Hstage Hhop.
  induction blocks as [|b rest IH]; intros s pd Hoks Hnew.
  - cbn [run_blocks fst input_stream map concat].
    destruct Hnew as [HW Hrings]. split; [exact HW|].
    intros c Hc. destruct (Hrings c Hc) as (rb & H1 & H2 & H3 & H4).
    exists rb. rewrite app_nil_r. auto.
  - apply Forall_cons in Hoks as [Hok Hoks].
    pose proof (do_stft_holds_newest process_fn p W s b pd Hstage Hok Hhop Hnew)
      as Hstep.
    cbn [run_blocks].
    destruct (do_stft process_fn p b pd) as [[pd1 b1] off]. cbn [fst] in Hstep.
    specialize (IH _ pd1 Hoks Hstep).
    destruct (run_blocks process_fn p pd1 rest) as [pd2 outs]. cbn [fst] in *.
    destruct IH as [HW Hrings]. split; [exact HW|].
    intros c Hc. destruct (Hrings c Hc) as (rb & H1 & H2 & H3 & H4).
    exists rb. unfold input_stream in *. cbn [map concat].
    rewrite app_assoc. auto.
Qed.

Lemma rebuild_holds_newest p pd :
  holds_newest p (2 ^ fft_order p) (fun _ => []) (rebuild p pd).
Proof.
  assert (HW : (0 < 2 ^ fft_order p)%N).
  { apply N.neq_0_lt_0, N.pow_nonzero. discriminate. }
  split; [reflexivity|]. intros c Hc.
  exists (resize (2 ^ fft_order p)). unfold rebuild. fields.
  split; [apply lookup_replicate_2; assumption|].
  unfold resize, ring_size, ring_view. cbn [buffer current_pos length drop].
  rewrite length_replicate, N2Nat.id.
  split; [reflexivity|]. split; [assumption|].
  change (N.to_nat 0) with 0%nat. rewrite drop_0. reflexivity.
Qed.

(** X6. After any run of blocks of fewer than [2^24] samples each on a
    rebuilt working set, whatever the hop: what the stage copies out of
    the input ring buffer of a channel for its next window, the newest
    [fft_window_size] samples, oldest first, is the end of the channel's
    stream so far, after [fft_window_size] samples of silence. *)
Theorem input_rings_hold_newest_window process_fn p pd0 blocks :
  stage_keeps_input process_fn ->
  Forall (buffer_ok p) blocks ->
  (0 < windowing_interval (2 ^ fft_order p) (windowing_overlap_times p)
   < 2 ^ 24)%N ->
  let pd := fst (run_blocks process_fn p (rebuild p pd0) blocks) in
  fft_window_size pd = (2 ^ fft_order p)%N /\
  forall c, (c < getMainBusNumInputChannels p)%nat ->
    copy_last_n_to (ring_at (input_ring_buffers pd) c) (fft_window_size pd)
    = drop (length (input_stream c blocks))
        (replicate (N.to_nat (2 ^ fft_order p)) f_zero ++ input_stream c blocks).
Proof.
  intros Hstage Hoks Hhop pd.
  pose proof (run_blocks_holds_newest process_fn p (2 ^ fft_order p) Hstage Hhop
                blocks (fun _ => []) (rebuild p pd0) Hoks
                (rebuild_holds_newest p pd0)) as [HW Hrings].
  fold pd in HW, Hrings. split; [exact HW|].
  intros c Hc. destruct (Hrings c Hc) as (rb & Hrb & Hsize & Hpos & Hview).
  unfold ring_at. rewrite Hrb, HW. cbn [default from_option id].
  rewrite copy_last_n_to_view by (rewrite Hsize; (exact Hpos || lia)).
  rewrite Hsize, N.sub_diag. change (N.to_nat 0) with 0%nat.
  rewrite drop_0. exact Hview.
Qed.

(** ** The bypassed processor

    The stage of [processBlockBypassed] puts the newest hop of input
    samples into the output ring buffer at its cursor, and the driver
    hands them out over the hop that follows. *)

Lemma length_copy_last_n_to rb n : length (copy_last_n_to rb n) = N.to_nat n.
Proof. unfold copy_last_n_to. rewrite length_map, length_seq. reflexivity. Qed.


Lemma copy_n_to_ring n clear : forall rb,
  (current_pos rb < ring_size rb)%N ->
  ring_size (snd (copy_n_to rb n clear)) = ring_size rb /\
  (current_pos (snd (copy_n_to rb n clear)) < ring_size rb)%N.
Proof.
  induction n as [|n IH]; intros rb Hpos; cbn [copy_n_to].
  - auto.
  - destruct (pop clear rb) as [x rb'] eqn:Hpop.
    assert (Hrb' : ring_size rb' = ring_size rb /\
                   (current_pos rb' < ring_size rb')%N).
    { unfold pop in Hpop. injection Hpop as _ <-.
      assert (Hs : ring_size
                     {| buffer := if clear
                                  then <[N.to_nat (current_pos rb) := f_zero]>
                                         (buffer rb)
                                  else buffer rb;
                        current_pos := ring_step rb |} = ring_size rb).
      { unfold ring_size. cbn [buffer].
        destruct clear; [rewrite length_insert|]; reflexivity. }
      split; [exact Hs|]. rewrite Hs. cbn [current_pos].
      apply ring_step_lt. lia. }
    destruct Hrb' as [Hs Hp]. specialize (IH rb' Hp).
    destruct (copy_n_to rb' n clear) as [xs rb'']. cbn [snd] in *.
    rewrite <- Hs. exact IH.
Qed.




Section Bypass.

Variable p : Processor.
Variable pd0 : ProcessData.
Variable b : AudioBuffer.
Local Abbreviation W := (2 ^ fft_order p)%N.
Local Abbreviation hop := (windowing_interval W (windowing_overlap_times p)).
Local Abbreviation silent := ((windowing_overlap_times p - 1) * hop)%N.

Hypothesis Hhop : (0 < hop)%N.
Hypothesis Hok : buffer_ok p b.






End Bypass.

(** *** A run of bypassed blocks *)










(** ** The sidechain bus when the sidechain is off

    The channels of the host's buffer that follow the main channels. *)

Definition with_rest (b : AudioBuffer) (rest : list (list F)) : AudioBuffer :=
  {| getNumSamples := getNumSamples b; channels := channels b ++ rest |}.

Lemma copy_in_out_rest p off n pd bm rest :
  sidechain_active p = false ->
  length (channels bm) = getMainBusNumInputChannels p ->
  copy_in_out p off n (pd, with_rest bm rest)
  = (fst (copy_in_out p off n (pd, bm)),
     with_rest (snd (copy_in_out p off n (pd, bm))) rest).
Proof.
  intros Hoff Hlen. rewrite !copy_in_out_stretch.
  unfold stretch_result, with_rest. fields.
  f_equal; [apply process_data_eq; fields; try reflexivity|f_equal].
  - unfold stretch_input_rings. apply imap_ext. intros c rb _. cbv beta.
    case_decide; [|reflexivity]. f_equal. unfold channel_samples.
    cbn [channels]. rewrite lookup_app_l by lia. reflexivity.
  - unfold stretch_sidechain_rings. rewrite Hoff. reflexivity.
  - unfold stretch_channels. rewrite imap_app. f_equal.
    apply imap_nothing. intros c ch. case_decide; [lia|reflexivity].
Qed.

Lemma length_channels_copy_in_out p off n pd b :
  length (channels (snd (copy_in_out p off n (pd, b)))) = length (channels b).
Proof.
  rewrite copy_in_out_stretch. unfold stretch_result, stretch_channels. fields.
  apply length_imap.
Qed.

Lemma window_loop_rest process_fn p hop num_samples rest :
  sidechain_active p = false ->
  forall k off pd bm,
    length (channels bm) = getMainBusNumInputChannels p ->
    window_loop (process_window process_fn p) k hop num_samples off
      (pd, with_rest bm rest)
    = (fst (fst (window_loop (process_window process_fn p) k hop num_samples off
                   (pd, bm))),
       with_rest
         (snd (fst (window_loop (process_window process_fn p) k hop num_samples
                      off (pd, bm)))) rest,
       snd (window_loop (process_window process_fn p) k hop num_samples off
              (pd, bm))).
Proof.
  intros Hoff. induction k as [|k IH]; intros off pd bm Hlen; cbn [window_loop].
  - reflexivity.
  - set (n := samples_to_process_this_iteration hop num_samples off).
    assert (Hw : process_window process_fn p off n (pd, with_rest bm rest)
                 = (fst (process_window process_fn p off n (pd, bm)),
                    with_rest (snd (process_window process_fn p off n (pd, bm)))
                      rest) /\
                 length (channels (snd (process_window process_fn p off n (pd, bm))))
                 = length (channels bm)).
    { unfold process_window. split.
      - apply copy_in_out_rest; assumption.
      - apply length_channels_copy_in_out. }
    destruct Hw as [Hw Hl]. rewrite Hw.
    destruct (process_window process_fn p off n (pd, bm)) as [pd2 bm2].
    cbn [fst snd] in *. apply IH. congruence.
Qed.

Lemma clear_unused_nothing p b :
  (getMainBusNumOutputChannels p <= getMainBusNumInputChannels p)%nat ->
  clear_unused p b = b.
Proof.
  intros Hout. unfold clear_unused.
  replace (getMainBusNumOutputChannels p - getMainBusNumInputChannels p)%nat
    with 0%nat by lia.
  reflexivity.
Qed.

Lemma do_stft_rest process_fn p bm rest pd :
  sidechain_active p = false ->
  (getMainBusNumOutputChannels p <= getMainBusNumInputChannels p)%nat ->
  length (channels bm) = getMainBusNumInputChannels p ->
  do_stft process_fn p (with_rest bm rest) pd
  = (fst (fst (do_stft process_fn p bm pd)),
     with_rest (snd (fst (do_stft process_fn p bm pd))) rest,
     snd (do_stft process_fn p bm pd)).
Proof.
  intros Hoff Hout Hlen. unfold do_stft.
  fold (clear_unused p (with_rest bm rest)). fold (clear_unused p bm).
  rewrite !clear_unused_nothing by assumption.
  change (getNumSamples (with_rest bm rest)) with (getNumSamples bm).
  set (hop := windowing_interval _ _).
  set (already := already_processed_samples _ _ _).
  set (k := Z.to_nat _).
  destruct (0 <? already)%N.
  - rewrite copy_in_out_rest by assumption.
    pose proof (length_channels_copy_in_out p 0 already pd bm) as Hl.
    destruct (copy_in_out p 0 already (pd, bm)) as [pd1 bm1]. cbn [fst snd] in *.
    rewrite (window_loop_rest process_fn p hop (getNumSamples bm) rest Hoff
               k already pd1 bm1) by congruence.
    destruct (window_loop _ _ _ _ _ (pd1, bm1)) as [[pd2 bm2] off].
    reflexivity.
  - rewrite (window_loop_rest process_fn p hop (getNumSamples bm) rest Hoff
               k 0%N pd bm) by assumption.
    destruct (window_loop _ _ _ _ _ (pd, bm)) as [[pd2 bm2] off].
    reflexivity.
Qed.

Lemma length_channels_do_stft process_fn p b pd :
  length (channels (snd (fst (do_stft process_fn p b pd)))) = length (channels b).
Proof.
  unfold do_stft. fold (clear_unused p b).
  assert (H0 : length (channels (clear_unused p b)) = length (channels b)).
  { unfold clear_unused.
    apply (foldl_invariant
             (fun b' => length (channels b') = length (channels b)));
      [|reflexivity].
    intros b' c H. unfold clear, write_samples. cbn [channels].
    rewrite length_alter. exact H. }
  set (first := if (0 <? _)%N then _ else _).
  assert (H1 : length (channels (snd (fst first))) = length (channels b)).
  { subst first. destruct (0 <? _)%N; cbn [fst snd]; [|exact H0].
    rewrite length_channels_copy_in_out. exact H0. }
  destruct first as [st off].
  pose proof (window_loop_invariant
                (fun st => length (channels (snd st)) = length (channels b))
                (process_window process_fn p)
                (Z.to_nat
                   (windows_to_process
                      (samples_to_be_processed (getNumSamples b)
                         (already_processed_samples (getNumSamples b)
                            (from_option pos 0%N (input_ring_buffers pd !! 0%nat))
                            (windowing_interval (fft_window_size pd)
                               (windowing_overlap_times p))))
                      (windowing_interval (fft_window_size pd)
                         (windowing_overlap_times p))))
                (windowing_interval (fft_window_size pd)
                   (windowing_overlap_times p))
                (getNumSamples b)
                ltac:(intros off' n [pd1 b1] H; cbn [snd] in *;
                      unfold process_window;
                      rewrite length_channels_copy_in_out; exact H)
                off st H1) as Hloop.
  destruct (window_loop _ _ _ _ _ _) as [[pd' b'] off'].
  exact Hloop.
Qed.

(** The main bus of a buffer, and a buffer as its main bus and the rest. *)
Definition main_bus (p : Processor) (b : AudioBuffer) : AudioBuffer :=
  {| getNumSamples := getNumSamples b;
     channels := take (getMainBusNumInputChannels p) (channels b) |}.

Lemma main_bus_rest p b :
  b = with_rest (main_bus p b) (drop (getMainBusNumInputChannels p) (channels b)).
Proof.
  unfold with_rest, main_bus. cbn [getNumSamples channels].
  rewrite take_drop. destruct b; reflexivity.
Qed.

Lemma do_stft_main_bus process_fn p b pd :
  sidechain_active p = false ->
  (getMainBusNumOutputChannels p <= getMainBusNumInputChannels p
   <= length (channels b))%nat ->
  let r := do_stft process_fn p b pd in
  let m := do_stft process_fn p (main_bus p b) pd in
  fst (fst r) = fst (fst m) /\
  take (getMainBusNumInputChannels p) (channels (snd (fst r)))
  = channels (snd (fst m)) /\
  drop (getMainBusNumInputChannels p) (channels (snd (fst r)))
  = drop (getMainBusNumInputChannels p) (channels b).
Proof.
  intros Hoff Hch r m.
  assert (Hlen : length (channels (main_bus p b)) = getMainBusNumInputChannels p).
  { unfold main_bus. cbn [channels]. rewrite length_take. lia. }
  assert (Hl : length (channels (snd (fst m))) = getMainBusNumInputChannels p).
  { subst m. rewrite length_channels_do_stft. exact Hlen. }
  subst r. rewrite (main_bus_rest p b) at 1 2 3.
  rewrite do_stft_rest by (assumption || lia). fold m. cbn [fst snd].
  split; [reflexivity|]. unfold with_rest. cbn [channels].
  split.
  - rewrite take_app_length' by (symmetry; exact Hl). reflexivity.
  - rewrite drop_app_length' by (symmetry; exact Hl). reflexivity.
Qed.

(** X8. With the sidechain off and as many output as input channels (or
    fewer), neither callback looks at the sidechain bus: two buffers of the
    same length with the same main channels leave the processor in the
    same state and come back with the same main channels, and a buffer
    comes back with the channels after the main ones as they were. *)
Theorem sidechain_bus_ignored_when_off p b b' :
  sidechain_active p = false ->
  (getMainBusNumOutputChannels p <= getMainBusNumInputChannels p)%nat ->
  (getMainBusNumInputChannels p <= length (channels b))%nat ->
  (getMainBusNumInputChannels p <= length (channels b'))%nat ->
  getNumSamples b' = getNumSamples b ->
  take (getMainBusNumInputChannels p) (channels b')
  = take (getMainBusNumInputChannels p) (channels b) ->
  (fst (processBlock p b') = fst (processBlock p b) /\
   take (getMainBusNumInputChannels p) (channels (snd (processBlock p b')))
   = take (getMainBusNumInputChannels p) (channels (snd (processBlock p b))) /\
   drop (getMainBusNumInputChannels p) (channels (snd (processBlock p b)))
   = drop (getMainBusNumInputChannels p) (channels b)) /\
  (fst (processBlockBypassed p b') = fst (processBlockBypassed p b) /\
   take (getMainBusNumInputChannels p)
     (channels (snd (processBlockBypassed p b')))
   = take (getMainBusNumInputChannels p)
       (channels (snd (processBlockBypassed p b))) /\
   drop (getMainBusNumInputChannels p)
     (channels (snd (processBlockBypassed p b)))
   = drop (getMainBusNumInputChannels p) (channels b)).
Proof.
  intros Hoff Hout Hb Hb' Hn Hmain.
  assert (Hm : main_bus p b' = main_bus p b).
  { unfold main_bus. rewrite Hn, Hmain. reflexivity. }
  split.
  - unfold processBlock.
    set (st := if compressor_settings_changed p then _ else _).
    assert (Hst : sidechain_active (fst st) = false /\
                  getMainBusNumInputChannels (fst st) = getMainBusNumInputChannels p /\
                  getMainBusNumOutputChannels (fst st)
                  = getMainBusNumOutputChannels p).
    { subst st. destruct (compressor_settings_changed p); cbn; auto. }
    destruct st as [p1 pd1]. cbn [fst] in Hst. destruct Hst as (S1 & S2 & S3).
    assert (Hm1 : main_bus p1 b' = main_bus p1 b).
    { unfold main_bus. rewrite S2, Hn, Hmain. reflexivity. }
    pose proof (do_stft_main_bus (spectral_stage p1) p1 b pd1 S1 ltac:(lia))
      as (A1 & A2 & A3).
    pose proof (do_stft_main_bus (spectral_stage p1) p1 b' pd1 S1 ltac:(lia))
      as (B1 & B2 & B3).
    cbv zeta in *. rewrite Hm1 in B1, B2. rewrite S2 in *.
    destruct (do_stft (spectral_stage p1) p1 b pd1) as [[pd2 b2] off2].
    destruct (do_stft (spectral_stage p1) p1 b' pd1) as [[pd3 b3] off3].
    cbn [fst snd] in *.
    split; [congruence|]. split; [congruence|assumption].
  - unfold processBlockBypassed.
    pose proof (do_stft_main_bus (bypass_stage p) p b
                  (active (get (process_data p))) Hoff ltac:(lia))
      as (A1 & A2 & A3).
    pose proof (do_stft_main_bus (bypass_stage p) p b'
                  (active (get (process_data p))) Hoff ltac:(lia))
      as (B1 & B2 & B3).
    cbv zeta in *. rewrite Hm in B1, B2.
    destruct (do_stft (bypass_stage p) p b _) as [[pd2 b2] off2].
    destruct (do_stft (bypass_stage p) p b' _) as [[pd3 b3] off3].
    cbn [fst snd] in *.
    split; [congruence|]. split; [congruence|assumption].
Qed.

(** ** The makeup gain before the first block

    [makeup_gain] is a member without an initialiser. Two processors that
    differ in it at most, and not at all once the settings flag has been
    cleared. *)
Definition same_but_makeup_gain (p1 p2 : Processor) : Prop :=
  p2 = with_makeup_gain p1 (makeup_gain p2) /\
  (compressor_settings_changed p1 = false -> makeup_gain p2 = makeup_gain p1).

Lemma with_makeup_gain_same p : with_makeup_gain p (makeup_gain p) = p.
Proof. destruct p; reflexivity. Qed.

Lemma processBlock_makeup_gain p g b :
  compressor_settings_changed p = true ->
  processBlock (with_makeup_gain p g) b = processBlock p b.
Proof.
  intros Hflag. unfold processBlock.
  cbn [compressor_settings_changed process_data with_makeup_gain].
  rewrite Hflag. reflexivity.
Qed.

Lemma processBlockBypassed_makeup_gain p g b :
  processBlockBypassed (with_makeup_gain p g) b
  = (with_makeup_gain (fst (processBlockBypassed p b)) g,
     snd (processBlockBypassed p b)).
Proof.
  unfold processBlockBypassed.
  cbn [process_data with_makeup_gain].
  change (do_stft (bypass_stage (with_makeup_gain p g)) (with_makeup_gain p g) b
            (active (get (process_data p))))
    with (do_stft (bypass_stage p) p b (active (get (process_data p)))).
  destruct (do_stft (bypass_stage p) p b _) as [[pd1 b1] off].
  reflexivity.
Qed.

(** What the host gets back from an event, if it is a block. *)
Definition output_of (p : Processor) (e : Event) : option AudioBuffer :=
  match e with
  | Process b => Some (snd (processBlock p b))
  | ProcessBypassed b => Some (snd (processBlockBypassed p b))
  | _ => None
  end.

Fixpoint outputs (p : Processor) (events : list Event)
    : list (option AudioBuffer) :=
  match events with
  | [] => []
  | e :: rest => output_of p e :: outputs (step p e) rest
  end.

Lemma step_same_but_makeup_gain p1 p2 e :
  same_but_makeup_gain p1 p2 ->
  same_but_makeup_gain (step p1 e) (step p2 e) /\
  output_of p2 e = output_of p1 e.
Proof.
  intros [Heq Hgain]. set (g := makeup_gain p2) in *. clearbody g.
  destruct e as [n|order| | |stored listeners_run|b|b]; cbn [step output_of].
  - subst p2. split; [|reflexivity]. split; [reflexivity|]. intros H. discriminate H.
  - subst p2. split; [|reflexivity]. split; [reflexivity|]. exact Hgain.
  - subst p2. split; [|reflexivity].
    cbn [update_triggered with_makeup_gain].
    destruct (update_triggered p1).
    + split; [reflexivity|]. intros H. discriminate H.
    + split; [reflexivity|]. exact Hgain.
  - subst p2. split; [|reflexivity]. split; [reflexivity|].
    intros H. discriminate H.
  - subst p2. split; [|reflexivity].
    destruct stored as [order|]; [destruct listeners_run|];
      (split; [reflexivity|intros H; discriminate H]).
  - destruct (compressor_settings_changed p1) eqn:Hflag.
    + subst p2. rewrite processBlock_makeup_gain by assumption.
      split; [|reflexivity]. split.
      * symmetry. apply with_makeup_gain_same.
      * reflexivity.
    + subst p2. rewrite (Hgain eq_refl), with_makeup_gain_same.
      split; [|reflexivity]. split.
      * symmetry. apply with_makeup_gain_same.
      * reflexivity.
  - subst p2. rewrite processBlockBypassed_makeup_gain. cbn [fst snd].
    split; [|reflexivity].
    destruct (processBlockBypassed_frame p1 b) as (H1 & H2 & _).
    cbv zeta in H1, H2. split.
    + reflexivity.
    + cbn [makeup_gain with_makeup_gain compressor_settings_changed] in *.
      rewrite H1, H2. exact Hgain.
Qed.

Lemma run_same_but_makeup_gain events : forall p1 p2,
  same_but_makeup_gain p1 p2 ->
  same_but_makeup_gain (run p1 events) (run p2 events) /\
  outputs p2 events = outputs p1 events.
Proof.
  induction events as [|e events IH]; intros p1 p2 H; cbn [run foldl outputs].
  - split; [exact H|reflexivity].
  - destruct (step_same_but_makeup_gain p1 p2 e H) as [Hstep Hout].
    destruct (IH _ _ Hstep) as [Hrun Houts].
    split; [exact Hrun|]. rewrite Hout. f_equal. exact Houts.
Qed.

(** X9. [makeup_gain] is written before it is read: the constructor
    leaves the settings flag set, so the first [processBlock] runs
    [update_compressors], which assigns the gain, before its first window;
    the bypassed callback does not use it. Whatever value the member
    holds after construction, and whatever happens to the processor, the
    host gets the same blocks back, and from the first [processBlock] on
    the processors are the same. *)
Theorem makeup_gain_is_set_before_use
    sidechain ratio_ attack_ms release_ms auto_makeup order overlap_times
    sample_rate input_channels output_channels value1 value2 events :
  let constructed value :=
    SpectralCompressorProcessor sidechain ratio_ attack_ms release_ms
      auto_makeup order overlap_times sample_rate input_channels
      output_channels value in
  outputs (constructed value1) events = outputs (constructed value2) events /\
  (compressor_settings_changed (run (constructed value1) events) = false <->
   compressor_settings_changed (run (constructed value2) events) = false) /\
  (compressor_settings_changed (run (constructed value1) events) = false ->
   run (constructed value1) events = run (constructed value2) events).
Proof.
  intros constructed.
  assert (H : same_but_makeup_gain (constructed value2) (constructed value1)).
  { split; [reflexivity|]. intros H. discriminate H. }
  destruct (run_same_but_makeup_gain events _ _ H) as [[Heq Hgain] Houts].
  split; [exact Houts|].
  assert (Hflag : compressor_settings_changed (run (constructed value1) events)
                  = compressor_settings_changed (run (constructed value2) events)).
  { rewrite Heq. reflexivity. }
  split; [rewrite Hflag; reflexivity|].
  intros Hclear. rewrite Hflag in Hclear.
  rewrite Heq, (Hgain Hclear). apply with_makeup_gain_same.
Qed.

(** ** The shape of the working set

    What [update_and_swap_process_data] sets up and every callback keeps:
    a window size that is the power of two of the FFT's order, a scratch
    buffer of twice that many floats, a compressor and a sidechain
    accumulator (at zero between two windows) for every bin but the first
    of the lower half, and ring buffers of the window size, with their
    cursor inside, for every channel. *)

Definition ring_ok (W : N) (rb : RingBuffer) : Prop :=
  ring_size rb = W /\ (current_pos rb < W)%N.

Definition rings_ok (p : Processor) (W : N) (rs : list RingBuffer) : Prop :=
  length rs = getMainBusNumInputChannels p /\ Forall (ring_ok W) rs.

Definition working_set_ok (p : Processor) (pd : ProcessData) : Prop :=
  (exists order, fft pd = Some order /\ fft_window_size pd = (2 ^ order)%N) /\
  length (fft_scratch_buffer pd) = N.to_nat (fft_window_size pd * 2) /\
  length (spectral_compressors pd) = N.to_nat (fft_window_size pd / 2) /\
  spectral_compressor_sidechain_thresholds pd
  = replicate (length (spectral_compressors pd)) f_zero /\
  rings_ok p (fft_window_size pd) (input_ring_buffers pd) /\
  rings_ok p (fft_window_size pd) (output_ring_buffers pd) /\
  rings_ok p (fft_window_size pd) (sidechain_ring_buffers pd).

Lemma working_set_ok_frame p pd pd' :
  working_set_ok p pd ->
  fft pd' = fft pd ->
  fft_window_size pd' = fft_window_size pd ->
  length (fft_scratch_buffer pd') = length (fft_scratch_buffer pd) ->
  length (spectral_compressors pd') = length (spectral_compressors pd) ->
  spectral_compressor_sidechain_thresholds pd'
  = spectral_compressor_sidechain_thresholds pd ->
  rings_ok p (fft_window_size pd) (input_ring_buffers pd') ->
  rings_ok p (fft_window_size pd) (output_ring_buffers pd') ->
  rings_ok p (fft_window_size pd) (sidechain_ring_buffers pd') ->
  working_set_ok p pd'.
Proof.
  intros (H1 & H2 & H3 & H4 & H5 & H6 & H7) F1 F2 F3 F4 F5 F6 F7 F8.
  unfold working_set_ok. rewrite F1, F2, F3, F4, F5.
  repeat (split; [assumption|]). assumption.
Qed.

Lemma ring_ok_read_n_from W rb xs : ring_ok W rb -> ring_ok W (read_n_from rb xs).
Proof.
  intros [Hsize Hpos]. split.
  - rewrite ring_size_read_n_from. exact Hsize.
  - rewrite current_pos_read_n_from by (rewrite Hsize; exact Hpos).
    rewrite Hsize. apply N.mod_lt. lia.
Qed.

Lemma ring_ok_in_place W rb xs :
  ring_ok W rb -> ring_ok W (read_n_from_in_place rb xs).
Proof.
  intros [Hsize Hpos]. split; [|exact Hpos].
  unfold read_n_from_in_place, ring_size. cbn [buffer].
  etransitivity; [apply (ring_size_read_n_from xs rb)|exact Hsize].
Qed.

Lemma ring_ok_copy_n_to W rb n clear :
  ring_ok W rb -> ring_ok W (snd (copy_n_to rb n clear)).
Proof.
  intros [Hsize Hpos].
  destruct (copy_n_to_ring n clear rb ltac:(rewrite Hsize; exact Hpos))
    as [K1 K2].
  split; congruence.
Qed.

Lemma ring_ok_add W rb xs gain :
  ring_ok W rb -> ring_ok W (add_n_from_in_place rb xs gain).
Proof.
  unfold add_n_from_in_place. apply foldl_invariant.
  intros rb' x [Hsize Hpos].
  assert (Hs : ring_size (accumulate gain rb' x) = W).
  { unfold accumulate, ring_size in *. cbn [buffer].
    rewrite length_alter. exact Hsize. }
  split; [exact Hs|]. unfold accumulate. cbn [current_pos].
  rewrite <- Hsize. apply ring_step_lt. lia.
Qed.

Lemma rings_ok_imap p W (f : nat -> RingBuffer -> RingBuffer) rs :
  (forall c rb, ring_ok W rb -> ring_ok W (f c rb)) ->
  rings_ok p W rs -> rings_ok p W (imap f rs).
Proof.
  intros Hf [Hlen Hall]. split; [rewrite length_imap; exact Hlen|].
  rewrite Forall_lookup in *. intros c rb' Hc.
  rewrite list_lookup_imap in Hc.
  destruct (rs !! c) as [rb|] eqn:Hrb; [|discriminate].
  cbn in Hc. injection Hc as <-. apply Hf. eapply Hall, Hrb.
Qed.

Lemma rings_ok_alter p W (f : RingBuffer -> RingBuffer) c rs :
  (forall rb, ring_ok W rb -> ring_ok W (f rb)) ->
  rings_ok p W rs -> rings_ok p W (alter f c rs).
Proof.
  intros Hf [Hlen Hall]. split; [rewrite length_alter; exact Hlen|].
  apply Forall_alter; [exact Hall|]. intros rb _. apply Hf.
Qed.

Lemma length_store scratch xs :
  (length xs <= length scratch)%nat -> length (store scratch xs) = length scratch.
Proof. intros H. unfold store. rewrite length_app, length_drop. lia. Qed.

Lemma hop_le W O : (windowing_interval W O <= W)%N.
Proof.
  unfold windowing_interval. destruct (N.eq_dec O 0%N) as [->|HO].
  - rewrite N.div_0_r. lia.
  - apply N.Div0.div_le_upper_bound. nia.
Qed.

Lemma working_set_ok_with_num_windows p pd k :
  working_set_ok p pd -> working_set_ok p (with_num_windows_processed pd k).
Proof. intros H. exact H. Qed.

Lemma copy_in_out_ok p off n pd b :
  working_set_ok p pd -> working_set_ok p (fst (copy_in_out p off n (pd, b))).
Proof.
  intros Hok. pose proof Hok as (_ & _ & _ & _ & H5 & H6 & H7).
  rewrite copy_in_out_stretch. unfold stretch_result. cbn [fst].
  apply (working_set_ok_frame p pd); try assumption; try reflexivity; fields.
  - apply rings_ok_imap; [|exact H5]. intros c rb Hrb.
    case_decide; [apply ring_ok_read_n_from|]; assumption.
  - apply rings_ok_imap; [|exact H6]. intros c rb Hrb.
    case_decide; [|assumption].
    destruct (output_gate p pd); [apply ring_ok_copy_n_to|]; assumption.
  - apply rings_ok_imap; [|exact H7]. intros c rb Hrb.
    case_decide; [|assumption].
    destruct (sidechain_active p); [apply ring_ok_read_n_from|]; assumption.
Qed.

Lemma bypass_stage_ok p pd n :
  working_set_ok p pd -> working_set_ok p (bypass_stage p pd n).
Proof.
  unfold bypass_stage. apply foldl_invariant. clear pd.
  intros pd c Hok. pose proof Hok as (_ & H2 & _ & _ & H5 & H6 & H7).
  unfold bypass_channel.
  apply (working_set_ok_frame p pd); try assumption; try reflexivity; fields.
  - apply length_store. rewrite length_copy_last_n_to, H2.
    pose proof (hop_le (fft_window_size pd) (windowing_overlap_times p)). lia.
  - apply rings_ok_alter; [|exact H6]. intros rb. apply ring_ok_in_place.
Qed.

Lemma compress_bins_lengths channel cs scratch :
  length (fst (compress_bins channel cs scratch)) = length cs /\
  length (snd (compress_bins channel cs scratch)) = length scratch.
Proof.
  unfold compress_bins.
  apply (foldl_invariant
           (fun st => length (fst st) = length cs /\
                      length (snd st) = length scratch));
    [|split; reflexivity].
  intros [cs' scratch'] idx [H1 H2]. cbn [fst snd] in *. unfold compress_bin.
  destruct (cs' !! idx) as [c|]; [|split; assumption].
  destruct (processSample c channel _) as [c' y]. cbn [fst snd].
  unfold scale_bin. rewrite length_insert, !length_alter. split; assumption.
Qed.

Section Shape.

(** The transforms and the window work in place: the scratch buffer keeps
    its length. *)
Hypothesis Hforward : forall order only_positive scratch,
  length (performRealOnlyForwardTransform order only_positive scratch)
  = length scratch.
Hypothesis Hinverse : forall order scratch,
  length (performRealOnlyInverseTransform order scratch) = length scratch.
Hypothesis Hwindow : forall size scratch n,
  length (multiplyWithWindowingTable size scratch n) = length scratch.

Lemma spectral_channel_ok p pd c :
  working_set_ok p pd -> working_set_ok p (spectral_channel p pd c).
Proof.
  intros Hok. pose proof Hok as (_ & H2 & H3 & H4 & H5 & H6 & H7).
  unfold spectral_channel, apply_window, fft_forward, fft_inverse. fields.
  set (scratch1 := performRealOnlyForwardTransform _ _ _).
  assert (Hl1 : length scratch1 = length (fft_scratch_buffer pd)).
  { subst scratch1. rewrite Hforward, Hwindow. apply length_store.
    rewrite length_copy_last_n_to, H2. lia. }
  destruct (compress_bins_lengths c (spectral_compressors pd) scratch1)
    as [L1 L2].
  destruct (compress_bins c (spectral_compressors pd) scratch1) as [cs scratch2].
  cbn [fst snd] in L1, L2. fields.
  apply (working_set_ok_frame p pd); try assumption; try reflexivity; fields.
  - rewrite Hwindow, Hinverse. congruence.
  - apply rings_ok_alter; [|exact H6]. intros rb. apply ring_ok_add.
Qed.

Lemma sidechain_channels_ok p pd n :
  working_set_ok p pd ->
  let pd1 := foldl sidechain_channel pd (seq 0 n) in
  fft pd1 = fft pd /\ fft_window_size pd1 = fft_window_size pd /\
  length (fft_scratch_buffer pd1) = length (fft_scratch_buffer pd) /\
  input_ring_buffers pd1 = input_ring_buffers pd /\
  output_ring_buffers pd1 = output_ring_buffers pd /\
  sidechain_ring_buffers pd1 = sidechain_ring_buffers pd.
Proof.
  intros (_ & H2 & _). cbv zeta.
  apply (foldl_invariant
           (fun pd1 =>
              fft pd1 = fft pd /\ fft_window_size pd1 = fft_window_size pd /\
              length (fft_scratch_buffer pd1) = length (fft_scratch_buffer pd) /\
              input_ring_buffers pd1 = input_ring_buffers pd /\
              output_ring_buffers pd1 = output_ring_buffers pd /\
              sidechain_ring_buffers pd1 = sidechain_ring_buffers pd));
    [|repeat split].
  intros pd1 c (G1 & G2 & G3 & G4 & G5 & G6).
  unfold sidechain_channel, fft_forward. fields.
  repeat split; try assumption.
  rewrite Hforward, length_store; [assumption|].
  rewrite length_copy_last_n_to, G2, G3, H2. lia.
Qed.

Lemma sidechain_thresholds_ok p pd n :
  working_set_ok p pd -> working_set_ok p (sidechain_thresholds pd n).
Proof.
  intros Hok. pose proof Hok as (_ & H2 & H3 & H4 & H5 & H6 & H7).
  pose proof (sidechain_channels_ok p pd n Hok) as Hch. cbv zeta in Hch.
  destruct Hch as (G1 & G2 & G3 & G4 & G5 & G6).
  destruct (accumulate_channels pd n) as [A1 A2]. cbv zeta in A1, A2.
  unfold sidechain_thresholds.
  set (pd1 := foldl sidechain_channel pd (seq 0 n)) in *.
  assert (Hlen : (length (spectral_compressors pd1)
                  <= length (spectral_compressor_sidechain_thresholds pd1))%nat).
  { rewrite A1, A2, length_imap, H4, length_replicate. reflexivity. }
  rewrite (set_thresholds_prefix n _ _ Hlen (length (spectral_compressors pd1))).
  apply (working_set_ok_frame p pd); try assumption; fields;
    try (rewrite ?G4, ?G5, ?G6; assumption).
  - rewrite length_imap, A1. reflexivity.
  - rewrite H4. apply list_eq. intros i.
    rewrite list_lookup_imap, A2, list_lookup_imap, H4, A1.
    destruct (decide (i < length (spectral_compressors pd))%nat) as [Hi|Hi].
    + rewrite !lookup_replicate_2 by assumption. cbn.
      repeat case_decide; (reflexivity || lia).
    + rewrite !(proj1 (lookup_replicate_None _ _ _)) by lia. reflexivity.
Qed.

Lemma spectral_stage_ok p pd n :
  working_set_ok p pd -> working_set_ok p (spectral_stage p pd n).
Proof.
  intros Hok. unfold spectral_stage.
  apply foldl_invariant.
  - intros pd' c. apply spectral_channel_ok.
  - destruct (sidechain_active p); [apply sidechain_thresholds_ok|]; assumption.
Qed.

Lemma do_stft_preserves (P : ProcessData -> Prop) process_fn p b pd :
  (forall pd n, P pd -> P (process_fn pd n)) ->
  (forall pd k, P pd -> P (with_num_windows_processed pd k)) ->
  (forall pd b off n, P pd -> P (fst (copy_in_out p off n (pd, b)))) ->
  P pd -> P (fst (fst (do_stft process_fn p b pd))).
Proof.
  intros Hstage Hnum Hcopy Hpd. unfold do_stft.
  set (first := if (0 <? _)%N then _ else _).
  assert (H1 : P (fst (fst first))).
  { subst first. destruct (0 <? _)%N; cbn [fst]; [apply Hcopy|]; assumption. }
  destruct first as [st off]. cbn [fst] in H1.
  pose proof (window_loop_invariant (fun st => P (fst st))
                (process_window process_fn p)
                (Z.to_nat
                   (windows_to_process
                      (samples_to_be_processed (getNumSamples b)
                         (already_processed_samples (getNumSamples b)
                            (from_option pos 0%N (input_ring_buffers pd !! 0%nat))
                            (windowing_interval (fft_window_size pd)
                               (windowing_overlap_times p))))
                      (windowing_interval (fft_window_size pd)
                         (windowing_overlap_times p))))
                (windowing_interval (fft_window_size pd)
                   (windowing_overlap_times p))
                (getNumSamples b)
                ltac:(intros off' n [pd1 b1] H; cbn [fst] in *;
                      unfold process_window; apply Hcopy, Hnum, Hstage, H)
                off st H1) as Hloop.
  destruct (window_loop _ _ _ _ _ _) as [[pd' b'] off'].
  exact Hloop.
Qed.

Lemma update_compressors_ok p q pd :
  working_set_ok p pd -> working_set_ok p (snd (update_compressors q pd)).
Proof.
  intros Hok. unfold update_compressors. cbn [snd].
  apply (working_set_ok_frame p pd); try assumption; try reflexivity; fields;
    try apply Hok.
  destruct (sidechain_active q); rewrite ?length_imap, length_map; reflexivity.
Qed.

Lemma take_replicate_zero n m :
  vector_resize f_zero n (replicate m f_zero) = replicate n f_zero.
Proof.
  unfold vector_resize. rewrite take_replicate, length_replicate.
  rewrite <- replicate_add. f_equal. lia.
Qed.

(** The accumulators of a working set are at zero, however many there
    are. *)
Definition accumulators_clear (pd : ProcessData) : Prop :=
  exists n, spectral_compressor_sidechain_thresholds pd = replicate n f_zero.

Lemma rebuild_ok p pd :
  accumulators_clear pd -> working_set_ok p (rebuild p pd).
Proof.
  intros [m Hm].
  assert (HW : (0 < 2 ^ fft_order p)%N).
  { apply N.neq_0_lt_0, N.pow_nonzero. discriminate. }
  assert (Hring : ring_ok (2 ^ fft_order p) (resize (2 ^ fft_order p))).
  { unfold ring_ok, resize, ring_size. cbn [buffer current_pos].
    rewrite length_replicate, N2Nat.id. auto. }
  assert (Hrings : rings_ok p (2 ^ fft_order p)
                     (replicate (getMainBusNumInputChannels p)
                        (resize (2 ^ fft_order p)))).
  { split; [apply length_replicate|]. apply Forall_replicate. exact Hring. }
  unfold working_set_ok, rebuild. fields.
  split; [exists (fft_order p); auto|].
  split; [apply length_vector_resize|].
  split; [apply length_vector_resize|].
  split; [rewrite Hm; apply take_replicate_zero|].
  auto.
Qed.

Lemma working_set_ok_clear p pd : working_set_ok p pd -> accumulators_clear pd.
Proof. intros (_ & _ & _ & H4 & _). eexists. exact H4. Qed.

(** The invariant of a processor: the working set the next callback runs
    on has its shape, and the accumulators of both copies are at zero. *)
Definition processor_ok (p : Processor) : Prop :=
  working_set_ok p (newest p) /\
  accumulators_clear (active (process_data p)) /\
  accumulators_clear (inactive (process_data p)).

Lemma working_set_ok_parameters p q pd :
  getMainBusNumInputChannels q = getMainBusNumInputChannels p ->
  working_set_ok p pd -> working_set_ok q pd.
Proof.
  intros Hn (H1 & H2 & H3 & H4 & H5 & H6 & H7).
  unfold working_set_ok, rings_ok in *. rewrite Hn.
  repeat (split; [assumption|]). assumption.
Qed.

Lemma update_and_swap_ok p :
  accumulators_clear (active (process_data p)) ->
  accumulators_clear (inactive (process_data p)) ->
  processor_ok (update_and_swap_process_data p).
Proof.
  intros Ha Hi. unfold processor_ok, update_and_swap_process_data, newest.
  cbn [process_data with_process_data with_compressor_settings_changed
       modify_and_swap get swap_pending active inactive].
  pose proof (rebuild_ok p (inactive (process_data p)) Hi) as Hok.
  split; [|split].
  - eapply working_set_ok_parameters; [|exact Hok]. reflexivity.
  - exact Ha.
  - eapply working_set_ok_clear, Hok.
Qed.

Lemma processor_ok_get p :
  processor_ok p -> processor_ok (with_process_data p (get (process_data p))).
Proof.
  intros (H1 & H2 & H3). unfold processor_ok, newest in *.
  cbn [process_data with_process_data].
  destruct (process_data p) as [a i []]; cbn [get swap_pending active inactive] in *.
  - split; [|split]; assumption.
  - split; [|split]; assumption.
Qed.

Lemma processor_ok_callback p q pd :
  processor_ok p ->
  getMainBusNumInputChannels q = getMainBusNumInputChannels p ->
  working_set_ok p pd ->
  processor_ok (with_process_data q (with_active (get (process_data p)) pd)).
Proof.
  intros (H1 & H2 & H3) Hn Hpd. unfold processor_ok, newest in *.
  cbn [process_data with_process_data]. rewrite active_after_get.
  split; [eapply working_set_ok_parameters; [|exact Hpd]; cbn; congruence|].
  split.
  - cbn [with_active active]. eapply working_set_ok_clear, Hpd.
  - destruct (process_data p) as [a i []];
      cbn [get with_active swap_pending active inactive] in *; assumption.
Qed.

Lemma step_processor_ok p e : processor_ok p -> processor_ok (step p e).
Proof.
  intros Hp. pose proof Hp as (H1 & H2 & H3).
  destruct e as [n|order| | |stored listeners_run|b|b]; cbn [step].
  - unfold prepareToPlay.
    apply (processor_ok_get
             (update_and_swap_process_data (with_max_samples_per_block p n))).
    apply update_and_swap_ok; assumption.
  - exact Hp.
  - destruct (update_triggered p); [|exact Hp].
    unfold process_data_updater.
    pose proof (update_and_swap_ok p H2 H3) as Hu. exact Hu.
  - exact Hp.
  - unfold setStateInformation.
    destruct stored as [order|]; [destruct listeners_run|].
    + exact (update_and_swap_ok (set_fft_order p order) H2 H3).
    + exact (update_and_swap_ok (with_fft_order p order) H2 H3).
    + exact (update_and_swap_ok p H2 H3).
  - unfold processBlock. fold (newest p).
    set (st := if compressor_settings_changed p then _ else _).
    assert (Hst : getMainBusNumInputChannels (fst st) = getMainBusNumInputChannels p /\
                  working_set_ok p (snd st)).
    { subst st. destruct (compressor_settings_changed p); cbn [fst snd].
      - split; [reflexivity|]. apply update_compressors_ok. exact H1.
      - split; [reflexivity|exact H1]. }
    destruct st as [p1 pd1]. cbn [fst snd] in Hst. destruct Hst as [Hn Hpd1].
    pose proof (do_stft_preserves (working_set_ok p1) (spectral_stage p1) p1 b pd1
                  (spectral_stage_ok p1)
                  (working_set_ok_with_num_windows p1)
                  (fun pd b off n => copy_in_out_ok p1 off n pd b)
                  (working_set_ok_parameters p p1 pd1 Hn Hpd1)) as Hdo.
    destruct (do_stft (spectral_stage p1) p1 b pd1) as [[pd2 b2] off].
    cbn [fst snd] in *.
    apply processor_ok_callback; [exact Hp|exact Hn|].
    eapply working_set_ok_parameters; [|exact Hdo]. congruence.
  - unfold processBlockBypassed. fold (newest p).
    pose proof (do_stft_preserves (working_set_ok p) (bypass_stage p) p b
                  (newest p) (bypass_stage_ok p)
                  (working_set_ok_with_num_windows p)
                  (fun pd b off n => copy_in_out_ok p off n pd b) H1) as Hdo.
    destruct (do_stft (bypass_stage p) p b (newest p)) as [[pd2 b2] off].
    cbn [fst snd] in *.
    apply processor_ok_callback; [exact Hp|reflexivity|exact Hdo].
Qed.

Lemma run_processor_ok events : forall p,
  processor_ok p -> processor_ok (run p events).
Proof.
  induction events as [|e events IH]; intros p Hp; cbn [run foldl].
  - exact Hp.
  - apply IH, step_processor_ok, Hp.
Qed.

End Shape.

Lemma step_input_channels p e :
  getMainBusNumInputChannels (step p e) = getMainBusNumInputChannels p.
Proof.
  destruct e as [n|order| | |stored listeners_run|b|b]; cbn [step].
  - reflexivity.
  - reflexivity.
  - destruct (update_triggered p); reflexivity.
  - reflexivity.
  - destruct stored as [order|]; [destruct listeners_run|]; reflexivity.
  - unfold processBlock.
    destruct (compressor_settings_changed p).
    + unfold update_compressors.
      destruct (do_stft _ _ _ _) as [[pd2 b2] off]. reflexivity.
    + destruct (do_stft _ _ _ _) as [[pd2 b2] off]. reflexivity.
  - unfold processBlockBypassed.
    destruct (do_stft _ _ _ _) as [[pd2 b2] off]. reflexivity.
Qed.

Lemma run_input_channels events : forall p,
  getMainBusNumInputChannels (run p events) = getMainBusNumInputChannels p.
Proof.
  induction events as [|e events IH]; intros p; cbn [run foldl].
  - reflexivity.
  - unfold run in IH. rewrite IH. apply step_input_channels.
Qed.

(** X10. From a processor that has been constructed and prepared, and
    whatever happens to it (taking the transforms and the window to work
    in place): the working set the next callback runs on has a window
    size that is the power of two of its FFT's order, a scratch buffer of
    twice the window size, half the window size of compressors, as many
    sidechain accumulators, all at zero, and for each of the three kinds
    of ring buffer one per input channel, of the window size, with its
    cursor inside. *)
Theorem working_set_keeps_its_shape
    sidechain ratio_ attack_ms release_ms auto_makeup order overlap_times
    sample_rate input_channels output_channels uninitialised max events :
  (forall order only_positive scratch,
     length (performRealOnlyForwardTransform order only_positive scratch)
     = length scratch) ->
  (forall order scratch,
     length (performRealOnlyInverseTransform order scratch) = length scratch) ->
  (forall size scratch n,
     length (multiplyWithWindowingTable size scratch n) = length scratch) ->
  let p :=
    run (prepareToPlay
           (SpectralCompressorProcessor sidechain ratio_ attack_ms release_ms
              auto_makeup order overlap_times sample_rate input_channels
              output_channels uninitialised) max) events in
  let pd := newest p in
  let W := fft_window_size pd in
  (exists order, fft pd = Some order /\ W = (2 ^ order)%N) /\
  length (fft_scratch_buffer pd) = N.to_nat (W * 2) /\
  length (spectral_compressors pd) = N.to_nat (W / 2) /\
  spectral_compressor_sidechain_thresholds pd
  = replicate (length (spectral_compressors pd)) f_zero /\
  (forall rings,
     rings = input_ring_buffers pd \/ rings = output_ring_buffers pd \/
     rings = sidechain_ring_buffers pd ->
     length rings = input_channels /\
     Forall (fun rb => ring_size rb = W /\ (current_pos rb < W)%N) rings).
Proof.
  intros Hforward Hinverse Hwindow p pd W.
  assert (H0 : processor_ok
                 (prepareToPlay
                    (SpectralCompressorProcessor sidechain ratio_ attack_ms
                       release_ms auto_makeup order overlap_times sample_rate
                       input_channels output_channels uninitialised) max)).
  { unfold prepareToPlay. apply processor_ok_get.
    apply update_and_swap_ok; exists 0%nat; reflexivity. }
  pose proof (run_processor_ok Hforward Hinverse Hwindow events _ H0)
    as (Hok & _ & _).
  fold p in Hok. fold pd in Hok.
  destruct Hok as (H1 & H2 & H3 & H4 & H5 & H6 & H7).
  split; [exact H1|]. split; [exact H2|]. split; [exact H3|].
  split; [exact H4|].
  assert (Hn : getMainBusNumInputChannels p = input_channels).
  { subst p. rewrite run_input_channels. reflexivity. }
  intros rings [-> | [-> | ->]];
    [destruct H5 as [Hl Hf]|destruct H6 as [Hl Hf]|destruct H7 as [Hl Hf]];
    (split; [congruence|exact Hf]).
Qed.

(** ** The windows of a stream

    With a hop that divides the window size the windows fall on the
    multiples of the hop, counted in samples since the rebuild, wherever
    the blocks begin and end. *)

Lemma do_stft_window_count process_fn p W t b pd :
  stage_keeps_input process_fn ->
  (0 < windowing_interval W (windowing_overlap_times p))%N ->
  (W mod windowing_interval W (windowing_overlap_times p) = 0)%N ->
  (W < 2 ^ 24)%N ->
  buffer_ok p b ->
  synced W t pd ->
  num_windows_processed pd
  = ceil_div t (windowing_interval W (windowing_overlap_times p)) ->
  let pd' := fst (fst (do_stft process_fn p b pd)) in
  synced W (t + getNumSamples b) pd' /\
  num_windows_processed pd'
  = ceil_div (t + getNumSamples b)
      (windowing_interval W (windowing_overlap_times p)).
Proof.
  intros Hstage Hhop Hdiv HW Hok Hs Hnum pd'. subst pd'.
  set (hop := windowing_interval W (windowing_overlap_times p)) in *.
  pose proof (hop_positive _ _ Hhop) as (HWpos & HOpos & HOW).
  assert (Hhop24 : (hop < 2 ^ 24)%N).
  { pose proof (pos_mul_ge (windowing_overlap_times p) hop ltac:(lia)). lia. }
  split.
  - rewrite (do_stft_ticks process_fn p W Hstage Hhop Hdiv t pd b Hs Hok HW).
    destruct (ticks_synced process_fn p W Hstage Hhop Hdiv
                (N.to_nat (getNumSamples b)) t 0 pd (clear_unused p b) Hs)
      as [Hs' _].
    + eapply same_shape_ok; [exact Hok|].
      apply (clear_unused_same_shape p), Hok.
    + assert (Hn : getNumSamples (clear_unused p b) = getNumSamples b)
        by apply (clear_unused_same_shape p), Hok.
      lia.
    + rewrite N2Nat.id in Hs'. exact Hs'.
  - pose proof Hs as (HWpd & r0 & Hr0 & Hsize & Hpos).
    pose proof (do_stft_induction process_fn p b pd
                  (fun off st =>
                     num_windows_processed (fst st) = ceil_div (t + off) hop))
      as Hind.
    cbv zeta in Hind. rewrite HWpd, Hr0 in Hind. cbn [from_option] in Hind.
    unfold pos in Hind. rewrite Hpos in Hind. fold hop in Hind.
    unfold already_processed_samples in Hind.
    rewrite (phase W hop t Hhop Hdiv) in Hind.
    pose proof (to_boundary t hop Hhop) as Hbound.
    pose proof (fun n => ceil_div_before_boundary t n hop Hhop) as Hbefore.
    pose proof (ceil_div_lower t hop Hhop) as Hlow.
    pose proof (ceil_div_spec t hop Hhop) as [_ Hup].
    revert Hind Hbound Hbefore.
    generalize ((hop - t mod hop) mod hop)%N as A. intros A Hind Hbound Hbefore.
    apply Hind; clear Hind.
    + apply Hok.
    + lia.
    + cbn [fst]. rewrite N.add_0_r. exact Hnum.
    + intros [pd1 b1] H0 Hal. cbn [fst] in *.
      destruct (copy_in_out_frame p 0 (N.min (getNumSamples b) A) pd1 b1)
        as (_ & -> & _).
      rewrite H0, N.add_0_r. symmetry. apply Hbefore. lia.
    + intros j off [pd1 b1] H0 Hlt Hoff. cbn [fst] in *.
      unfold process_window.
      set (n := N.min hop (getNumSamples b - off)).
      match goal with
      | |- num_windows_processed (fst (copy_in_out p off n (?pd2, b1))) = _ =>
          destruct (copy_in_out_frame p off n pd2 b1) as (_ & -> & _)
      end.
      fields.
      destruct (Hstage pd1 (getMainBusNumInputChannels p)) as (_ & -> & _).
      rewrite H0.
      assert (HA : N.min (getNumSamples b) A = A) by lia.
      rewrite HA in Hoff.
      set (c := (ceil_div t hop + N.of_nat j)%N).
      assert (Hc : (t + off = c * hop)%N) by (subst c; lia).
      assert (Hn : (0 < n <= hop)%N) by (subst n; lia).
      rewrite (ceil_div_eq (t + off) hop c);
        [|assumption|lia|
         destruct (N.eq_dec c 0%N) as [Hz|Hnz];
         [left; exact Hz|right; rewrite pred_mul; nia]].
      symmetry. apply ceil_div_eq; [assumption|lia|].
      right. rewrite N.add_sub. lia.
Qed.

(** The samples of a run of blocks. *)
Definition total_samples (blocks : list AudioBuffer) : N :=
  foldr (fun b n => (getNumSamples b + n)%N) 0%N blocks.

(** X11. With a hop that divides the window size, and blocks of fewer
    than [2^24] samples: after any run of blocks on a rebuilt working set
    the stage has been run once for every hop begun, [ceil (T / hop)]
    times for [T] samples in all, however the host has cut them into
    blocks. *)
Theorem one_window_per_hop process_fn p pd0 blocks :
  let W := (2 ^ fft_order p)%N in
  let hop := windowing_interval W (windowing_overlap_times p) in
  stage_keeps_input process_fn ->
  Forall (buffer_ok p) blocks ->
  (0 < getMainBusNumInputChannels p)%nat ->
  (0 < hop)%N -> (W mod hop = 0)%N -> (W < 2 ^ 24)%N ->
  num_windows_processed (fst (run_blocks process_fn p (rebuild p pd0) blocks))
  = ceil_div (total_samples blocks) hop.
Proof.
  intros W hop Hstage Hoks Hch Hhop Hdiv HW.
  assert (Hgen : forall bs t pd,
            Forall (buffer_ok p) bs -> synced W t pd ->
            num_windows_processed pd = ceil_div t hop ->
            num_windows_processed (fst (run_blocks process_fn p pd bs))
            = ceil_div (t + total_samples bs) hop).
  { induction bs as [|b bs IH]; intros t pd Hbs Hs Hnum;
      cbn [run_blocks total_samples foldr fst].
    - rewrite N.add_0_r. exact Hnum.
    - apply Forall_cons in Hbs as [Hb Hbs].
      pose proof (do_stft_window_count process_fn p W t b pd Hstage Hhop Hdiv HW
                    Hb Hs Hnum) as [Hs1 Hnum1].
      destruct (do_stft process_fn p b pd) as [[pd1 b1] off].
      cbn [fst] in Hs1, Hnum1.
      specialize (IH (t + getNumSamples b)%N pd1 Hbs Hs1 Hnum1).
      destruct (run_blocks process_fn p pd1 bs) as [pd2 outs]. cbn [fst] in *.
      fold (total_samples bs). rewrite IH. f_equal. lia. }
  rewrite (Hgen blocks 0%N (rebuild p pd0) Hoks).
  - reflexivity.
  - split; [reflexivity|]. exists (resize W). unfold rebuild. fields.
    split; [apply lookup_replicate_2; assumption|].
    unfold resize, ring_size. cbn [buffer current_pos].
    rewrite length_replicate, N2Nat.id, N.Div0.mod_0_l. auto.
  - symmetry. apply ceil_div_0. assumption.
Qed.

(** ** A block that ends before the next window *)

(** X12. A block that does not reach beyond the next window boundary of
    the input ring buffer, an empty block among them: the driver copies
    its samples in and out as one stretch and runs no window; the stage is
    not called. An empty block leaves the working set as it is. *)
Theorem block_within_a_hop process_fn p b pd :
  let hop := windowing_interval (fft_window_size pd) (windowing_overlap_times p) in
  let position := from_option pos 0%N (input_ring_buffers pd !! 0%nat) in
  (0 < hop < 2 ^ 24)%N ->
  (getNumSamples b <= (hop - position mod hop) mod hop)%N ->
  do_stft process_fn p b pd
  = (if (0 <? getNumSamples b)%N
     then copy_in_out p 0 (getNumSamples b) (pd, clear_unused p b)
     else (pd, clear_unused p b),
     getNumSamples b).
Proof.
  intros hop position Hhop Hshort.
  unfold do_stft. fold (clear_unused p b). fold hop. fold position.
  unfold already_processed_samples, samples_to_be_processed.
  rewrite N.min_l by assumption. rewrite N.sub_diag.
  rewrite windows_to_process_exact by lia.
  rewrite ceil_div_0 by lia. cbn [Z.of_N Z.to_nat window_loop].
  destruct (N.ltb_spec 0 (getNumSamples b)) as [Hpos|Hzero].
  - destruct (copy_in_out p 0 (getNumSamples b) (pd, clear_unused p b))
      as [pd1 b1].
    reflexivity.
  - replace (getNumSamples b) with 0%N by lia. reflexivity.
Qed.

(** ** The parameters and the hop *)

(** X13. For every FFT order and every overlap the parameters allow (9
    to 15, 2 to 64), the hop is at least eight samples and at most half
    the window: the driver never divides by a hop of zero, and window and
    hop stay below [2^24], where its single-precision window count is
    exact. *)
Theorem hop_is_never_zero order overlap_times :
  (9 <= order <= 15)%N -> (2 <= overlap_times <= 64)%N ->
  let W := (2 ^ order)%N in
  let hop := windowing_interval W overlap_times in
  (8 <= hop)%N /\ (hop * 2 <= W)%N /\ (overlap_times * hop <= W)%N /\
  (W < 2 ^ 24)%N.
Proof.
  intros Horder Hoverlap W hop. subst hop. unfold windowing_interval.
  assert (HWlow : (2 ^ 9 <= W)%N) by (apply N.pow_le_mono_r; lia).
  assert (HWhigh : (W <= 2 ^ 15)%N) by (apply N.pow_le_mono_r; lia).
  change (2 ^ 9)%N with 512%N in HWlow.
  change (2 ^ 15)%N with 32768%N in HWhigh.
  change (2 ^ 24)%N with 16777216%N.
  clearbody W.
  pose proof (N.Div0.mul_div_le W overlap_times) as Hmul.
  assert (Hlow : (8 <= W / overlap_times)%N).
  { apply N.div_le_lower_bound; lia. }
  assert (Hhigh : (W / overlap_times <= W / 2)%N).
  { apply N.div_le_compat_l. lia. }
  pose proof (N.Div0.mul_div_le W 2) as Hhalf.
  revert Hmul Hlow Hhigh Hhalf.
  generalize (W / overlap_times)%N as h, (W / 2)%N as h2.
  intros h h2 Hmul Hlow Hhigh Hhalf. lia.
Qed.

(** ** Releasing the resources *)

(** Modelled from the spec: [utils.h] with [AtomicallySwappable] is not
    among the sources. [clear] hands both objects to the function. *)
Definition clear_both {T} (f : T -> T) (x : AtomicallySwappable T)
    : AtomicallySwappable T :=
  {| active := f (active x); inactive := f (inactive x);
     swap_pending := swap_pending x |}.

(** What [releaseResources] does to a working set: window and FFT are
    reset and every vector is emptied. *)
Definition release (pd : ProcessData) : ProcessData :=
  {| fft_window_size := fft_window_size pd;
     num_windows_processed := num_windows_processed pd;
     windowing_function := None; fft := None; fft_scratch_buffer := [];
     spectral_compressors := [];
     spectral_compressor_sidechain_thresholds := [];
     input_ring_buffers := []; output_ring_buffers := [];
     sidechain_ring_buffers := [] |}.

Definition releaseResources (p : Processor) : Processor :=
  with_process_data p (clear_both release (process_data p)).

(** X14. [releaseResources] empties both copies of the working set, and
    a [prepareToPlay] after it builds the working set from nothing, as for
    a processor that has just been constructed: all compressors are new
    ones, where a [prepareToPlay] alone keeps those of the copy it
    rebuilds. The other copy stays empty, and parameters, latency and
    makeup gain are left as they are. *)
Theorem release_then_prepare_starts_afresh p max :
  let q := prepareToPlay (releaseResources p) max in
  newest q = rebuild p empty_process_data /\
  spectral_compressors (newest q)
  = replicate (N.to_nat (2 ^ fft_order p / 2)) default_compressor /\
  inactive (process_data q) = release (active (process_data p)) /\
  spectral_compressors (newest (prepareToPlay p max))
  = vector_resize default_compressor (N.to_nat (2 ^ fft_order p / 2))
      (spectral_compressors (inactive (process_data p))) /\
  (fft_order q, windowing_overlap_times q, getLatencySamples q, makeup_gain q)
  = (fft_order p, windowing_overlap_times p, getLatencySamples p, makeup_gain p).
Proof.
  cbv zeta. split; [reflexivity|]. split; [|split; [|split]].
  - unfold newest, prepareToPlay, releaseResources, update_and_swap_process_data.
    cbn. unfold vector_resize. cbn. rewrite Nat.sub_0_r, take_nil. reflexivity.
  - unfold newest, prepareToPlay, releaseResources, update_and_swap_process_data.
    cbn. reflexivity.
  - reflexivity.
  - reflexivity.
Qed.

End Model.

(** * The bus layouts the processor accepts *)

(** [juce::AudioChannelSet] is a set of channel types, held as a number
    with one bit for each type; the set without channels is the disabled
    one. *)
Abbreviation AudioChannelSet := N (only parsing).

Definition isDisabled (channel_set : AudioChannelSet) : bool :=
  (channel_set =? 0)%N.

(** [juce::AudioProcessor::BusesLayout]. On a constant layout
    [getChannelSet] reads the array of buses with [operator[]], which
    gives a set without channels where there is no such bus. *)
Record BusesLayout := {
  inputBuses : list AudioChannelSet;
  outputBuses : list AudioChannelSet
}.

Definition getChannelSet (layouts : BusesLayout) (isInput : bool)
    (busIndex : nat) : AudioChannelSet :=
  default 0%N ((if isInput then inputBuses layouts else outputBuses layouts)
               !! busIndex).

Definition getMainInputChannelSet (layouts : BusesLayout) : AudioChannelSet :=
  getChannelSet layouts true 0.

Definition getMainOutputChannelSet (layouts : BusesLayout) : AudioChannelSet :=
  getChannelSet layouts false 0.

Definition isBusesLayoutSupported (layouts : BusesLayout) : bool :=
  let sidechain_channel_set := getChannelSet layouts true 1 in
  (getMainInputChannelSet layouts =? getMainOutputChannelSet layouts)%N
  && (sidechain_channel_set =? getMainInputChannelSet layouts)%N
  && negb (isDisabled (getMainInputChannelSet layouts)).

(** X15. The processor accepts a layout exactly when it has a main
    input, a sidechain input and a main output bus that all have the same
    channel set, and that set has a channel: a layout without a sidechain
    bus, or with a disabled one, is refused. Further buses are not looked
    at. *)
Theorem supported_layouts_have_a_sidechain layouts :
  isBusesLayoutSupported layouts = true <->
  exists channel_set : AudioChannelSet,
    channel_set <> 0%N /\
    inputBuses layouts !! 0%nat = Some channel_set /\
    inputBuses layouts !! 1%nat = Some channel_set /\
    outputBuses layouts !! 0%nat = Some channel_set.
Proof.
  unfold isBusesLayoutSupported, getMainInputChannelSet,
    getMainOutputChannelSet, getChannelSet, isDisabled.
  cbv zeta. rewrite !andb_true_iff, negb_true_iff, !N.eqb_eq, N.eqb_neq.
  split.
  - intros [[Hout Hside] Hmain].
    destruct (inputBuses layouts !! 0%nat) as [a|],
      (inputBuses layouts !! 1%nat) as [s|],
      (outputBuses layouts !! 0%nat) as [o|];
      cbn [default from_option id] in *; try congruence.
    exists a. subst. auto.
  - intros (channel_set & Hmain & Ha & Hs & Ho). rewrite Ha, Hs, Ho.
    cbn [default from_option id]. auto.
Qed.

(** * Runs of the processor

    Samples are single-precision numbers, [spec_float]s rounded to 24
    bits, with the arithmetic [do_stft] runs under: denormal numbers are
    flushed to zero. The envelope state of a compressor is left out
    ([unit]). For the code of [juce::dsp] (the FFT, the window, the
    compressor) and the logarithms, which the theorems above hold for
    whatever they compute, the runs below take the identity. *)
Module Run.

Definition F32 : Type := spec_float.
Definition zero : F32 := S754_zero false.
Definition one : F32 := Float.f32_of_Z 1.

(** [do_stft] holds a [juce::ScopedNoDenormals] while it and the stage
    run: the processor is set to take a denormal operand for zero and to
    give zero for a denormal result. A single-precision number is denormal
    when it is below [2^-126] in magnitude. (Outside [do_stft],
    [update_compressors] computes with the parameters, whose values give
    no denormal numbers.) *)
Definition flush (x : F32) : F32 :=
  match x with
  | S754_finite s m e =>
      if (Z.pos (digits2_pos m) + e <=? -126)%Z then S754_zero s else x
  | _ => x
  end.

Definition add (x y : F32) : F32 := flush (SFadd 24 128 (flush x) (flush y)).
Definition sub (x y : F32) : F32 := flush (SFsub 24 128 (flush x) (flush y)).
Definition mul (x y : F32) : F32 := flush (SFmul 24 128 (flush x) (flush y)).
Definition div (x y : F32) : F32 := flush (Float.f32_div (flush x) (flush y)).

(** A [double] rounded to single precision. *)
Definition of_double (x : spec_float) : F32 :=
  match x with
  | S754_finite s m e => binary_normalize 24 128 (cond_Zopp s (Zpos m)) e s
  | _ => x
  end.

Definition nonzero (x : F32) : bool :=
  match flush x with S754_zero _ => false | _ => true end.

(** [std::abs] of a complex number is the library's [hypot], which does
    not overflow or underflow on the way: for finite parts, the square
    root of the sum of the squares computed in double precision and
    rounded to single. *)
Definition abs_complex (re im : F32) : F32 :=
  let re := flush re in
  let im := flush im in
  flush
    (of_double
       (SFsqrt 53 1024
          (SFadd 53 1024 (SFmul 53 1024 re re) (SFmul 53 1024 im im)))).

Definition compressor : Compressor F32 unit :=
  {| thresholddB := zero; ratio := one; attackTime := one; releaseTime := one;
     sampleRate := zero; envelope := tt |}.

Definition constructed (sidechain : bool) (order overlap_times : N)
    (channels : nat) : Processor F32 unit :=
  SpectralCompressorProcessor F32 unit sidechain (Float.f32_of_Z 50)
    (Float.f32_of_Z 50) (Float.f32_of_Z 5000) true order overlap_times
    (Float.f64_of_Z 48000) channels channels zero.

(** A mono processor with the defaults of the parameters but for the FFT
    order and the overlap, at 48 kHz, after [prepareToPlay]. *)
Definition prepared (order overlap_times : N) : Processor F32 unit :=
  prepareToPlay F32 zero unit compressor (constructed false order overlap_times 1)
    512.

(** A mono block of [n] samples of value one. *)
Definition ones (n : nat) : AudioBuffer F32 :=
  {| getNumSamples := N.of_nat n; channels := [replicate n one] |}.


(** The blocks the bypassed processor returns for a stream of blocks. *)
Fixpoint bypassed (p : Processor F32 unit) (blocks : list (AudioBuffer F32))
    : list (AudioBuffer F32) :=
  match blocks with
  | [] => []
  | b :: rest =>
      let '(p, b) := processBlockBypassed F32 zero unit p b in
      b :: bypassed p rest
  end.

Definition processBlock (p : Processor F32 unit) (b : AudioBuffer F32)
    : Processor F32 unit * AudioBuffer F32 :=
  processBlock F32 zero one add sub mul div Float.f32_of_Z of_double nonzero
    abs_complex id id unit tt (fun _ _ _ _ _ env _ x => (env, x))
    (fun _ _ scratch => scratch) (fun _ scratch => scratch)
    (fun _ scratch _ => scratch) p b.

Definition run (p : Processor F32 unit) (events : list (Event F32))
    : Processor F32 unit :=
  run F32 zero one add sub mul div Float.f32_of_Z of_double nonzero
    abs_complex id id unit tt (fun _ _ _ _ _ env _ x => (env, x)) compressor
    (fun _ _ scratch => scratch) (fun _ scratch => scratch)
    (fun _ scratch _ => scratch) p events.

End Run.

(** ** The hop and the block boundaries *)

(** C2, at an overlap of three. With a window of 512 samples the hop is
    170, which does not divide the window: after 680 samples, four hops,
    the input ring buffer stands at 168 and [do_stft] takes the next
    window to be two samples away. The bypassed processor, fed 1000 ones,
    returns a one at sample 680 when given the stream in one block, and a
    zero when given it as 680 samples and then 320. *)
Theorem output_depends_on_block_sizes :
  let p := Run.prepared 9 3 in
  windowing_interval 512 3 = 170%N /\
  channels _ (Run.ones 1000)
  = zip_with app (channels _ (Run.ones 680)) (channels _ (Run.ones 320)) /\
  already_processed_samples 320 (680 mod 512) 170 = 2%N /\
  output_stream _ 0 (Run.bypassed p [Run.ones 1000]) !! 680%nat
  = Some Run.one /\
  output_stream _ 0 (Run.bypassed p [Run.ones 680; Run.ones 320]) !! 680%nat
  = Some Run.zero /\
  Run.one <> Run.zero.
Proof. vm_compute. repeat split; discriminate. Qed.

(** ** The sample rate of the compressors *)

(** An overlap of three does not divide the window size. The
    compressors are then prepared for the sample rate divided by
    [512.0 / 3], the sample rate times the overlap over the window size,
    which is 281.25 at 48 kHz; the windowing interval of [do_stft] is the
    integer 170, and 48000 / 170 is another number. *)
Lemma effective_sample_rate_odd_overlap :
  let sample_rate := Float.f64_of_Z 48000 in
  windowing_interval 512 3 = 170%N /\
  effective_sample_rate sample_rate 512 3
  = S754_finite false 4947802324992000 (-44) /\
  Float.f64_div (Float.f64_of_Z 1125) (Float.f64_of_Z 4)
  = S754_finite false 4947802324992000 (-44) /\
  Float.f64_div sample_rate (Float.f64_of_Z (Z.of_N (windowing_interval 512 3)))
  = S754_finite false 4967205471364518 (-44) /\
  effective_sample_rate sample_rate 512 3
  <> Float.f64_div sample_rate
       (Float.f64_of_Z (Z.of_N (windowing_interval 512 3))).
Proof. vm_compute. repeat split; discriminate. Qed.

(** X2. With an overlap that is a power of two, as far as the parameters
    go, the two agree: the compressors are prepared for the sample rate
    divided by the windowing interval. *)
Lemma effective_sample_rate_power_of_two sample_rate order overlap_times :
  In order [9; 10; 11; 12; 13; 14; 15]%N ->
  In overlap_times [2; 4; 8; 16; 32; 64]%N ->
  effective_sample_rate sample_rate (2 ^ order) overlap_times
  = Float.f64_div sample_rate
      (Float.f64_of_Z (Z.of_N (windowing_interval (2 ^ order) overlap_times))).
Proof.
  intros Horder Hoverlap. unfold effective_sample_rate. f_equal.
  cbn [In] in Horder, Hoverlap.
  repeat (destruct Horder as [<-|Horder]; [|]);
    try contradiction;
    repeat (destruct Hoverlap as [<-|Hoverlap]; [|]);
    try contradiction; vm_compute; reflexivity.
Qed.

Lemma effective_sample_rate_power_of_two_witness :
  effective_sample_rate (Float.f64_of_Z 48000) (2 ^ 12) 4
  = Float.f64_div (Float.f64_of_Z 48000)
      (Float.f64_of_Z (Z.of_N (windowing_interval (2 ^ 12) 4))).
Proof.
  apply (effective_sample_rate_power_of_two (Float.f64_of_Z 48000) 12 4);
    cbn [In]; auto 10.
Defined.


(** A block of five samples for a rebuilt working set of eight, with an
    overlap of two: the stage runs twice. *)
Lemma do_stft_counts_exact_witness :
  let p := Run.prepared 3 2 in
  let pd := newest _ _ p in
  let stage := bypass_stage _ Run.zero _ p in
  let r := do_stft _ Run.zero _ stage p (Run.ones 5) pd in
  r = Nat.iter 2 (one_window _ Run.zero _ stage p 4 5)
        (first_stretch_of _ Run.zero _ p (Run.ones 5) pd 0) /\
  snd r = 5%N /\ num_windows_processed _ _ (fst (fst r)) = 2%N.
Proof.
  pose proof (do_stft_counts_exact Run.F32 Run.zero unit
                (bypass_stage _ Run.zero _ (Run.prepared 3 2)) (Run.prepared 3 2)
                (Run.ones 5) (newest _ _ (Run.prepared 3 2))
                ltac:(vm_compute; reflexivity)
                ltac:(vm_compute; split; reflexivity)) as (Hrun & Hoff & Hcount).
  split; [exact Hrun|]. split; [exact Hoff|].
  apply Hcount. intros pd n. apply bypass_stage_keeps_input.
Defined.


(** ** Silence at the start *)


Lemma silence_until_enough_windows_witness :
  output_stream Run.F32 0
    (snd (run_blocks Run.F32 Run.zero unit
            (bypass_stage _ Run.zero _ (Run.prepared 3 2)) (Run.prepared 3 2)
            (rebuild _ Run.zero _ Run.compressor (Run.prepared 3 2)
               (empty_process_data _ _))
            [Run.ones 3; Run.ones 5])) !! 3%nat
  = Some Run.zero.
Proof.
  destruct (output_stream _ _ _ !! 3%nat) as [x|] eqn:Hx.
  - f_equal.
    refine (proj2 (silence_until_enough_windows Run.F32 Run.zero unit
                     Run.compressor
                     (bypass_stage _ Run.zero _ (Run.prepared 3 2))
                     (Run.prepared 3 2) (empty_process_data _ _)
                     [Run.ones 3; Run.ones 5] _ _ _ _ _) 0%nat 3%nat x _ Hx _).
    + apply bypass_stage_keeps_input.
    + vm_compute. lia.
    + repeat constructor; vm_compute; try lia; repeat constructor.
    + vm_compute. reflexivity.
    + vm_compute. reflexivity.
    + vm_compute. lia.
    + vm_compute. reflexivity.
  - vm_compute in Hx. discriminate.
Defined.

(** ** The latency *)

(** C4, at a restart of playback. The FFT order goes from 9 to 10 and
    the listener asks for a run of [process_data_updater]; before that
    run the host calls [prepareToPlay], which rebuilds the working set for
    the new order and swaps it in but, unlike [process_data_updater] and
    [setStateInformation], does not call [setLatencySamples]. The next
    block is processed with a window of 1024 samples while the host is
    still told a latency of 512; the new latency is reported when the
    updater runs, after that block. *)
Theorem block_processed_before_latency_is_reported :
  let p0 := Run.prepared 9 4 in
  let p :=
    Run.run p0 [SetFftOrder _ 10; Prepare _ 512; Process _ (Run.ones 8)] in
  getLatencySamples _ _ p0 = 512%N /\
  fft_window_size _ _ (active _ (process_data _ _ p0)) = 512%N /\
  fft_order _ _ p = 10%N /\
  update_triggered _ _ p = true /\
  swap_pending _ (process_data _ _ p) = false /\
  fft_window_size _ _ (active _ (process_data _ _ p)) = 1024%N /\
  num_windows_processed _ _ (active _ (process_data _ _ p)) = 1%N /\
  getLatencySamples _ _ p = 512%N /\
  getLatencySamples _ _ (Run.run p [RunUpdater _]) = 1024%N.
Proof. vm_compute. repeat split. Qed.

(** The FFT order goes from 12 to 13 and [process_data_updater] runs.
    The host is told a latency of 8192 samples while the working set of
    4096 samples is still the active one; the working set of 8192 samples
    is pending. *)
Lemma latency_reported_before_swap :
  let p :=
    process_data_updater _ Run.zero _ Run.compressor
      (set_fft_order _ _ (Run.prepared 12 4) 13) in
  getLatencySamples _ _ p = 8192%N /\
  fft_window_size _ _ (active _ (process_data _ _ p)) = 4096%N /\
  swap_pending _ (process_data _ _ p) = true /\
  fft_window_size _ _ (inactive _ (process_data _ _ p)) = 8192%N.
Proof. vm_compute. repeat split. Qed.

Lemma latency_is_newest_window_size_witness :
  let p :=
    Run.run (Run.prepared 9 2)
      [SetFftOrder _ 10; RunUpdater _; ProcessBypassed _ (Run.ones 8)] in
  getLatencySamples _ _ p = (2 ^ fft_order _ _ p)%N /\
  fft_window_size _ _
    (if swap_pending _ (process_data _ _ p) then inactive _ (process_data _ _ p)
     else active _ (process_data _ _ p))
  = getLatencySamples _ _ p.
Proof.
  apply (latency_is_newest_window_size Run.F32 Run.zero Run.one Run.add Run.sub
           Run.mul Run.div Float.f32_of_Z Run.of_double Run.nonzero
           Run.abs_complex id id unit tt (fun _ _ _ _ _ env _ x => (env, x))
           Run.compressor (fun _ _ scratch => scratch) (fun _ scratch => scratch)
           (fun _ scratch _ => scratch)).
  vm_compute. reflexivity.
Defined.

(** ** After a change of the window size *)


Lemma rebuild_restarts_working_set_witness :
  let q :=
    process_data_updater _ Run.zero _ Run.compressor
      (set_fft_order _ _ (Run.prepared 3 2) 4) in
  num_windows_processed _ _ (newest _ _ q) = 0%N /\
  fft_window_size _ _ (newest _ _ q) = (2 ^ fft_order _ _ q)%N /\
  compressor_settings_changed _ _ q = true.
Proof.
  refine (proj1 (rebuild_restarts_working_set Run.F32 Run.zero Run.one Run.add
                   Run.sub Run.mul Run.div Float.f32_of_Z Run.of_double
                   Run.nonzero Run.abs_complex id id unit tt
                   (fun _ _ _ _ _ env _ x => (env, x)) Run.compressor
                   (fun _ _ scratch => scratch) (fun _ scratch => scratch)
                   (fun _ scratch _ => scratch)
                   (set_fft_order _ _ (Run.prepared 3 2) 4) 0 None false _
                   (Run.ones 16) _ _ _ _ _)).
  - right. left. reflexivity.
  - repeat constructor; vm_compute; try lia; repeat constructor.
  - vm_compute. lia.
  - vm_compute. reflexivity.
  - vm_compute. reflexivity.
Defined.


(** ** The stages on small inputs *)




(** A mono processor with a window of eight samples, its first block. *)
Lemma pink_noise_thresholds_witness :
  let p := Run.prepared 3 2 in
  let threshold (compressor_idx : nat) :=
    Run.sub (Run.add Run.zero (Float.f32_of_Z 3))
      (Run.mul (Float.f32_of_Z 3)
         (Run.add
            (Run.mul
               (Run.of_double
                  (Float.f64_div (Float.f64_of_Z 48000) (Float.f64_of_Z 8)))
               (Float.f32_of_Z (Z.of_nat (compressor_idx + 1))))
            (Float.f32_of_Z 2))) in
  thresholddB _ _
    <$> spectral_compressors _ _
          (active _ (process_data _ _ (fst (Run.processBlock p (Run.ones 8)))))
  = threshold <$> seq 0 4.
Proof.
  exact (proj2 (pink_noise_thresholds Run.F32 Run.zero Run.one Run.add Run.sub
                  Run.mul Run.div Float.f32_of_Z Run.of_double Run.nonzero
                  Run.abs_complex id id unit tt
                  (fun _ _ _ _ _ env _ x => (env, x))
                  (fun _ _ scratch => scratch) (fun _ scratch => scratch)
                  (fun _ scratch _ => scratch)
                  (Run.prepared 3 2) (Run.ones 8) eq_refl)).
Defined.

(** ** One stream, two ways of cutting it *)

(** Eight samples for a rebuilt working set of eight with an overlap of
    two, given as three and five samples and as one block. *)
Lemma chunking_does_not_matter_witness :
  let p := Run.prepared 3 2 in
  let stage := bypass_stage _ Run.zero _ p in
  glue_all _ 1
    (snd (run_blocks _ Run.zero _ stage p (newest _ _ p)
            [Run.ones 3; Run.ones 5]))
  = glue_all _ 1
      (snd (run_blocks _ Run.zero _ stage p (newest _ _ p) [Run.ones 8])).
Proof.
  refine (proj2 (chunking_does_not_matter Run.F32 Run.zero unit
                   (bypass_stage _ Run.zero _ (Run.prepared 3 2))
                   (Run.prepared 3 2) 8 0 (newest _ _ (Run.prepared 3 2)) 1
                   [Run.ones 3; Run.ones 5] [Run.ones 8] _ _ _ _ _ _ _ _ _)).
  - apply bypass_stage_keeps_input.
  - vm_compute. reflexivity.
  - vm_compute. reflexivity.
  - vm_compute. reflexivity.
  - split; [reflexivity|]. eexists. split; [vm_compute; reflexivity|].
    split; vm_compute; reflexivity.
  - split; [vm_compute; lia|].
    repeat constructor; vm_compute; try lia; repeat constructor.
  - split; [vm_compute; lia|].
    repeat constructor; vm_compute; try lia; repeat constructor.
  - vm_compute. reflexivity.
  - vm_compute. reflexivity.
Defined.

(** ** One block and the ring buffers *)

(** Five samples for a rebuilt working set of eight with an overlap of
    two: the input ring buffer has read them. *)
Lemma block_goes_to_input_rings_witness :
  let p := Run.prepared 3 2 in
  let stage := bypass_stage _ Run.zero _ p in
  input_ring_buffers _ _
    (fst (fst (do_stft _ Run.zero _ stage p (Run.ones 5) (newest _ _ p))))
  !! 0%nat
  = Some (read_n_from _ (resize _ Run.zero 8) (replicate 5 Run.one)).
Proof.
  refine (proj1 (proj1 (block_goes_to_input_rings Run.F32 Run.zero unit
                          (bypass_stage _ Run.zero _ (Run.prepared 3 2))
                          (Run.prepared 3 2) (Run.ones 5)
                          (newest _ _ (Run.prepared 3 2)) _ _ _ _)
                   0%nat _ _ _ _ _)).
  - apply bypass_stage_keeps_input.
  - apply bypass_stage_keeps_sidechain.
  - repeat split; vm_compute; try lia; repeat constructor.
  - vm_compute. split; reflexivity.
  - vm_compute. lia.
  - vm_compute. reflexivity.
  - vm_compute. reflexivity.
Defined.

(** A processor with one input and two output channels: the second
    channel of the block comes back silent. *)
Lemma unused_channels_are_zeroed_witness :
  let p :=
    prepareToPlay Run.F32 Run.zero unit Run.compressor
      (SpectralCompressorProcessor Run.F32 unit false (Float.f32_of_Z 50)
         (Float.f32_of_Z 50) (Float.f32_of_Z 5000) true 3 2
         (Float.f64_of_Z 48000) 1 2 Run.zero) 512 in
  let b :=
    {| getNumSamples := 3;
       channels := [replicate 3 Run.one; replicate 3 Run.one] |} in
  channels _
    (snd (fst (do_stft _ Run.zero _ (bypass_stage _ Run.zero _ p) p b
                 (newest _ _ p)))) !! 1%nat
  = Some (replicate 3 Run.zero).
Proof.
  intros p b.
  refine (proj1 (proj2 (unused_channels_are_zeroed Run.F32 Run.zero unit
                          (bypass_stage _ Run.zero _ p) p b (newest _ _ p) _))
            1%nat _ _).
  - repeat split; vm_compute; try lia; repeat constructor.
  - vm_compute. lia.
  - vm_compute. lia.
Defined.

(** Three and two samples for a rebuilt working set of eight: the window
    the stage would read is three zeros and the five samples. *)
Lemma input_rings_hold_newest_window_witness :
  let p := Run.prepared 3 2 in
  let pd :=
    fst (run_blocks _ Run.zero _ (bypass_stage _ Run.zero _ p) p
           (rebuild _ Run.zero _ Run.compressor p (empty_process_data _ _))
           [Run.ones 3; Run.ones 2]) in
  copy_last_n_to _ Run.zero (ring_at _ (input_ring_buffers _ _ pd) 0)
    (fft_window_size _ _ pd)
  = replicate 3 Run.zero ++ replicate 5 Run.one.
Proof.
  intros p pd.
  refine (proj2 (input_rings_hold_newest_window Run.F32 Run.zero unit
                   Run.compressor (bypass_stage _ Run.zero _ p) p
                   (empty_process_data _ _) [Run.ones 3; Run.ones 2] _ _ _)
            0%nat _).
  - apply bypass_stage_keeps_input.
  - repeat constructor; vm_compute; try lia; repeat constructor.
  - vm_compute. split; reflexivity.
  - vm_compute. lia.
Defined.

(** ** The bypassed processor *)


(** ** The sidechain bus while the sidechain is off *)

(** A mono processor and two blocks that differ in their second channel
    only. *)
Lemma sidechain_bus_ignored_when_off_witness :
  let p := Run.prepared 3 2 in
  let b :=
    {| getNumSamples := 3;
       channels := [replicate 3 Run.one; replicate 3 Run.zero] |} in
  let b' :=
    {| getNumSamples := 3;
       channels := [replicate 3 Run.one; replicate 3 Run.one] |} in
  fst (Run.processBlock p b') = fst (Run.processBlock p b).
Proof.
  intros p b b'.
  refine (proj1 (proj1 (sidechain_bus_ignored_when_off Run.F32 Run.zero Run.one
                          Run.add Run.sub Run.mul Run.div Float.f32_of_Z
                          Run.of_double Run.nonzero Run.abs_complex id id unit
                          tt (fun _ _ _ _ _ env _ x => (env, x))
                          (fun _ _ scratch => scratch)
                          (fun _ scratch => scratch)
                          (fun _ scratch _ => scratch) p b b' _ _ _ _ _ _))).
  - reflexivity.
  - vm_compute. lia.
  - vm_compute. lia.
  - vm_compute. lia.
  - reflexivity.
  - reflexivity.
Defined.

(** ** The shape of the working set *)

(** A change of the FFT order, the rebuild and a bypassed block. *)
Lemma working_set_keeps_its_shape_witness :
  let p :=
    Run.run (Run.prepared 3 2)
      [SetFftOrder _ 4; RunUpdater _; ProcessBypassed _ (Run.ones 8)] in
  let pd := newest _ _ p in
  length (fft_scratch_buffer _ _ pd)
  = N.to_nat (fft_window_size _ _ pd * 2) /\
  length (spectral_compressors _ _ pd)
  = N.to_nat (fft_window_size _ _ pd / 2).
Proof.
  pose proof (working_set_keeps_its_shape Run.F32 Run.zero Run.one Run.add
                Run.sub Run.mul Run.div Float.f32_of_Z Run.of_double
                Run.nonzero Run.abs_complex id id unit tt
                (fun _ _ _ _ _ env _ x => (env, x)) Run.compressor
                (fun _ _ scratch => scratch) (fun _ scratch => scratch)
                (fun _ scratch _ => scratch)
                false (Float.f32_of_Z 50) (Float.f32_of_Z 50)
                (Float.f32_of_Z 5000) true 3 2 (Float.f64_of_Z 48000) 1%nat
                1%nat Run.zero 512
                [SetFftOrder _ 4; RunUpdater _; ProcessBypassed _ (Run.ones 8)]
                ltac:(reflexivity) ltac:(reflexivity) ltac:(reflexivity))
    as (_ & Hscratch & Hcompressors & _).
  split; [exact Hscratch|exact Hcompressors].
Defined.

(** ** The windows of a stream *)

(** Nine samples in two blocks with a hop of four: three windows. *)
Lemma one_window_per_hop_witness :
  let p := Run.prepared 3 2 in
  num_windows_processed _ _
    (fst (run_blocks _ Run.zero _ (bypass_stage _ Run.zero _ p) p
            (rebuild _ Run.zero _ Run.compressor p (empty_process_data _ _))
            [Run.ones 3; Run.ones 6]))
  = 3%N.
Proof.
  intros p.
  refine (one_window_per_hop Run.F32 Run.zero unit Run.compressor
            (bypass_stage _ Run.zero _ p) p (empty_process_data _ _)
            [Run.ones 3; Run.ones 6] _ _ _ _ _ _).
  - apply bypass_stage_keeps_input.
  - repeat constructor; vm_compute; try lia; repeat constructor.
  - vm_compute. lia.
  - vm_compute. reflexivity.
  - vm_compute. reflexivity.
  - vm_compute. reflexivity.
Defined.

(** One sample has gone in since the rebuild; the next two end before
    the window boundary at four. *)
Lemma block_within_a_hop_witness :
  let p := Run.prepared 3 2 in
  let stage := bypass_stage _ Run.zero _ p in
  let pd := fst (fst (do_stft _ Run.zero _ stage p (Run.ones 1) (newest _ _ p))) in
  let b := Run.ones 2 in
  do_stft _ Run.zero _ stage p b pd
  = (if (0 <? getNumSamples _ b)%N
     then copy_in_out _ Run.zero _ p 0 (getNumSamples _ b)
            (pd, clear_unused _ Run.zero _ p b)
     else (pd, clear_unused _ Run.zero _ p b),
     getNumSamples _ b).
Proof.
  intros p stage pd b.
  apply (block_within_a_hop Run.F32 Run.zero unit stage p b pd).
  - vm_compute. split; reflexivity.
  - vm_compute. discriminate.
Defined.

(** The defaults of the two parameters: a window of 4096 samples and an
    overlap of four. *)
Lemma hop_is_never_zero_witness :
  (8 <= windowing_interval (2 ^ 12) 4)%N /\
  (windowing_interval (2 ^ 12) 4 * 2 <= 2 ^ 12)%N /\
  (4 * windowing_interval (2 ^ 12) 4 <= 2 ^ 12)%N /\
  (2 ^ 12 < 2 ^ 24)%N.
Proof. apply (hop_is_never_zero 12 4); lia. Defined.

(** ** Bus layouts *)

(** Stereo in, stereo sidechain, stereo out. *)
Lemma supported_layouts_have_a_sidechain_witness :
  isBusesLayoutSupported {| inputBuses := [3%N; 3%N]; outputBuses := [3%N] |}
  = true.
Proof.
  apply (proj2 (supported_layouts_have_a_sidechain
                  {| inputBuses := [3%N; 3%N]; outputBuses := [3%N] |})).
  exists 3%N. repeat split. discriminate.
Defined.
